(** * TT.Eval: the evaluation engine of [EvalCore.h], embedded in Rocq

    The engine is a stack machine over trees.  A tree node is a heap object
    held through [std::shared_ptr]; the embedding keeps the identity of every
    object (its address) next to its contents, so that sharing between two
    stack slots is visible as a repeated address.  C++ exceptions and
    undefined behaviour are explicit outcomes of every operation. *)

From Stdlib Require Import List String Ascii ZArith Lia Bool Arith.
From Stdlib Require DecimalString DecimalNat DecimalFacts.
Import ListNotations.
Set Warnings "-register-all".
Local Open Scope string_scope.
Local Open Scope list_scope.
Local Open Scope nat_scope.

(* ================================================================== *)
(** ** Exceptions *)

(** [ExecutionEngineException::Level]; the enumerators are ordered as
    declared. *)
Inductive Level : Type := Warning | Minor | Critical | Fatal.

Definition Level_rank (l : Level) : nat :=
  match l with Warning => 0 | Minor => 1 | Critical => 2 | Fatal => 3 end.

(** [a > b] on the enumeration. *)
Definition Level_gt (a b : Level) : bool := Level_rank b <? Level_rank a.

Inductive ExecutionEngineException : Type :=
  mkException (base_ : option ExecutionEngineException)
              (what_ : string) (err_level_ : Level).

Definition what (e : ExecutionEngineException) : string :=
  match e with mkException _ w _ => w end.

Definition ErrorLevel (e : ExecutionEngineException) : Level :=
  match e with mkException _ _ l => l end.

Definition BaseException (e : ExecutionEngineException)
  : option ExecutionEngineException :=
  match e with mkException b _ _ => b end.

Definition default_what : string := "Execution engine exception".

(** The constructor.  Its [switch] appends the level tag to the by-value
    parameter [what], after [what_] was initialised from it, so the tag never
    reaches [what_]; only the text of [base] is appended to the member. *)
Definition new_Exception (base : option ExecutionEngineException)
           (what0 : string) (level : Level) : ExecutionEngineException :=
  mkException base
    (what0 ++ match base with Some b => what b | None => "" end)%string
    level.

(** The object thrown by [ThrowWraped(msg, level)]: the inner exception gets
    [msg] and [level]; the outer one, which is the one thrown, is built with
    the defaults of the two remaining parameters. *)
Definition Wraped (msg : string) (level : Level) : ExecutionEngineException :=
  new_Exception (Some (new_Exception None msg level)) default_what Fatal.

(* ================================================================== *)
(** ** Tree model *)

(** Identity of a heap object. *)
Definition addr := nat.

(** [BranchBase] with its two subclasses.  [Value a s] is the [Value] object
    at address [a] with [Stored = s]; [Branch a bs] is the [Branch] object at
    [a] whose vector [Branches] points to the objects [bs]. *)
Inductive BranchBase : Type :=
| Value (a : addr) (Stored : string)
| Branch (a : addr) (Branches : list BranchBase).

Definition addr_of (n : BranchBase) : addr :=
  match n with Value a _ => a | Branch a _ => a end.

(** All objects reachable from a node, the node first. *)
Fixpoint addrs (n : BranchBase) : list addr :=
  match n with
  | Value a _ => [a]
  | Branch a bs => a :: flat_map addrs bs
  end.

(** The contents of a node with the identities forgotten. *)
Inductive tree : Type :=
| Leaf (text : string)
| Node (children : list tree).

Fixpoint value_of (n : BranchBase) : tree :=
  match n with
  | Value _ s => Leaf s
  | Branch _ bs => Node (map value_of bs)
  end.

(** [Depth()]: 0 for a [Value], [max + 1] for a [Branch]. *)
Fixpoint Depth (n : BranchBase) : nat :=
  match n with
  | Value _ _ => 0
  | Branch _ bs => S (fold_left (fun mx i => if mx <? Depth i then Depth i else mx) bs 0)
  end.

(** The macros [is_branch] and [is_value]. *)
Definition is_branch (x : BranchBase) : bool := 0 <? Depth x.
Definition is_value (x : BranchBase) : bool := Depth x =? 0.

(** [Copy()] run with [next] as the first unused address: the clone and the
    first address left unused.  A [Branch] allocates itself, then clones its
    children from index 0 upwards. *)
Fixpoint Copy_at (n : BranchBase) (next : addr) : BranchBase * addr :=
  match n with
  | Value _ s => (Value next s, S next)
  | Branch _ bs =>
      let fix copy_all (l : list BranchBase) (nx : addr)
        : list BranchBase * addr :=
        match l with
        | [] => ([], nx)
        | b :: l' =>
            let (b', nx1) := Copy_at b nx in
            let (l'', nx2) := copy_all l' nx1 in
            (b' :: l'', nx2)
        end in
      let (bs', nx) := copy_all bs (S next) in
      (Branch next bs', nx)
  end.

(** The loop of [Branch::Copy] over a vector, as a function of its own. *)
Fixpoint Copy_all (l : list BranchBase) (nx : addr) : list BranchBase * addr :=
  match l with
  | [] => ([], nx)
  | b :: l' =>
      let (b', nx1) := Copy_at b nx in
      let (l'', nx2) := Copy_all l' nx1 in
      (b' :: l'', nx2)
  end.

(** A write through the pointer [a]: every occurrence of the object at [a]
    inside [n] is replaced by [f] of it. *)
Fixpoint update (a : addr) (f : BranchBase -> BranchBase) (n : BranchBase)
  : BranchBase :=
  if addr_of n =? a then f n
  else match n with
       | Value _ _ => n
       | Branch b bs => Branch b (map (update a f) bs)
       end.

(* ================================================================== *)
(** ** Machine integers *)

Definition INT_MAX : Z := 2147483647%Z.
Definition INT_MIN : Z := (-2147483648)%Z.
(** [std::string::npos], the largest [size_t] (64-bit target). *)
Definition SIZE_MOD : Z := (2 ^ 64)%Z.
Definition npos : Z := (SIZE_MOD - 1)%Z.

(** Conversion of an [int] to [size_t] in a mixed comparison. *)
Definition to_size (i : Z) : Z := (i mod SIZE_MOD)%Z.

(** Conversion of a [size_t] to [int] (modular, two's complement). *)
Definition to_int (u : Z) : Z := ((u + 2 ^ 31) mod 2 ^ 32 - 2 ^ 31)%Z.

Definition clamp_int (v : Z) : Z :=
  if (v <? INT_MIN)%Z then INT_MIN else if (INT_MAX <? v)%Z then INT_MAX else v.

(* ================================================================== *)
(** ** [Value::ReadAs<int>] *)

Definition isspace (c : ascii) : bool :=
  let n := nat_of_ascii c in (n =? 32) || ((9 <=? n) && (n <=? 13)).

Definition isdigit (c : ascii) : bool :=
  let n := nat_of_ascii c in (48 <=? n) && (n <=? 57).

Definition digit_val (c : ascii) : Z := (Z.of_nat (nat_of_ascii c) - 48)%Z.

Fixpoint skipws (s : string) : string :=
  match s with
  | String c r => if isspace c then skipws r else s
  | EmptyString => EmptyString
  end.

(** The longest run of decimal digits at the front of [s], read in base 10
    on top of [acc]. *)
Fixpoint read_digits (s : string) (acc : Z) : Z :=
  match s with
  | String c r => if isdigit c then read_digits r (acc * 10 + digit_val c)%Z else acc
  | EmptyString => acc
  end.

(** [std::stringstream s(Stored); s >> res; return res;] with [res] an
    uninitialised [int].  Leading white space is skipped.  When nothing is
    left the extraction does not run and [res] is returned as it was, without
    a value: [None].  Otherwise a sign and the digits that follow are read;
    with no digit the result is 0, and a value out of range is replaced by the
    nearest bound of [int]. *)
Definition ReadAs_int (Stored : string) : option Z :=
  match skipws Stored with
  | EmptyString => None
  | String c r =>
      if Ascii.eqb c "-" then Some (clamp_int (- read_digits r 0)%Z)
      else if Ascii.eqb c "+" then Some (clamp_int (read_digits r 0%Z))
      else Some (clamp_int (read_digits (String c r) 0%Z))
  end.

(* ================================================================== *)
(** ** The evaluator state and the outcome of an operation *)

(** The members [Data], [Log] and [ApprovedLevel] of [Evaluator].  Both
    stacks are lists with the top at the head.  [heap_next] is the allocator:
    every address from it upwards is unused.  The registry [Functions] is kept
    beside the state: no operation changes it. *)
Record Evaluator : Type := mkEvaluator {
  Data : list BranchBase;
  Log : list string;
  ApprovedLevel : Level;
  heap_next : addr
}.

Definition set_Data (d : list BranchBase) (ev : Evaluator) : Evaluator :=
  mkEvaluator d (Log ev) (ApprovedLevel ev) (heap_next ev).

Definition set_Log (l : list string) (ev : Evaluator) : Evaluator :=
  mkEvaluator (Data ev) l (ApprovedLevel ev) (heap_next ev).

Definition set_next (n : addr) (ev : Evaluator) : Evaluator :=
  mkEvaluator (Data ev) (Log ev) (ApprovedLevel ev) n.

(** What a piece of code does to the evaluator: it returns, it leaves by an
    [ExecutionEngineException*] in flight (the state is the one at the
    [throw]), or it runs into behaviour the language leaves undefined
    ([top]/[pop] of an empty [std::stack], [operator[]] out of range, a read
    of an uninitialised [int]). *)
Inductive outcome (A : Type) : Type :=
| Ok (a : A) (ev : Evaluator)
| Throw (e : ExecutionEngineException) (ev : Evaluator)
| Undefined.
Arguments Ok {A} a ev.
Arguments Throw {A} e ev.
Arguments Undefined {A}.

Definition M (A : Type) : Type := Evaluator -> outcome A.

Definition ret {A} (a : A) : M A := fun ev => Ok a ev.

Definition bind {A B} (m : M A) (k : A -> M B) : M B :=
  fun ev =>
    match m ev with
    | Ok a ev' => k a ev'
    | Throw e ev' => Throw e ev'
    | Undefined => Undefined
    end.

Declare Scope eval_scope.
Delimit Scope eval_scope with eval.
Notation "x <- m ;; k" := (bind m (fun x => k))
  (at level 61, m at next level, right associativity) : eval_scope.
Notation "m ;; k" := (bind m (fun _ => k))
  (at level 61, right associativity) : eval_scope.
Local Open Scope eval_scope.

Definition undefined {A} : M A := fun _ => Undefined.

Definition ThrowWraped {A} (msg : string) (level : Level) : M A :=
  fun ev => Throw (Wraped msg level) ev.

(** [if (c) ThrowWraped(msg, level);] *)
Definition throw_if (c : bool) (msg : string) (level : Level) : M unit :=
  if c then ThrowWraped msg level else ret tt.

(** [Data.size()], [Data.top()], [Data.pop()], [Data.push(x)]. *)
Definition size : M nat := fun ev => Ok (List.length (Data ev)) ev.

Definition top : M BranchBase :=
  fun ev => match Data ev with
            | x :: _ => Ok x ev
            | [] => Undefined
            end.

Definition pop : M unit :=
  fun ev => match Data ev with
            | _ :: d => Ok tt (set_Data d ev)
            | [] => Undefined
            end.

Definition push (x : BranchBase) : M unit :=
  fun ev => Ok tt (set_Data (x :: Data ev) ev).

(** [std::make_shared]: the address of the new object. *)
Definition alloc : M addr :=
  fun ev => Ok (heap_next ev) (set_next (S (heap_next ev)) ev).

(** [x->Copy()]. *)
Definition node_Copy (x : BranchBase) : M BranchBase :=
  fun ev => let (x', nx) := Copy_at x (heap_next ev) in Ok x' (set_next nx ev).

(** A write through the pointer [a], seen from every stack slot that reaches
    the object. *)
Definition write (a : addr) (f : BranchBase -> BranchBase) : M unit :=
  fun ev => Ok tt (set_Data (map (update a f) (Data ev)) ev).

(** [as_value(x)->Stored] and [as_branch(x)->Branches]: the cast yields a
    null pointer on the other subclass. *)
Definition Stored_of (x : BranchBase) : M string :=
  match x with Value _ s => ret s | Branch _ _ => undefined end.

Definition Branches_of (x : BranchBase) : M (list BranchBase) :=
  match x with Branch _ bs => ret bs | Value _ _ => undefined end.

(** [as_value(x)->ReadAs<int>()]. *)
Definition ReadAs (x : BranchBase) : M Z :=
  s <- Stored_of x ;;
  match ReadAs_int s with Some z => ret z | None => undefined end.

(* ================================================================== *)
(** ** The [Require...] checks *)

Definition RequireValue (br : BranchBase) : M unit :=
  throw_if (negb (is_value br)) "Branch as value argument" Critical.

Definition RequireBranch (br : BranchBase) : M unit :=
  throw_if (negb (is_branch br)) "Value as branch argument" Critical.

(** The digit loop of [RequireInteger]. *)
Fixpoint RequireDigits (s : string) : M unit :=
  match s with
  | String c r =>
      throw_if (negb (isdigit c)) "Not a number passed as an integer" Critical ;;
      RequireDigits r
  | EmptyString => ret tt
  end.

Definition RequireInteger (br : BranchBase) : M unit :=
  RequireValue br ;;
  v <- Stored_of br ;;
  throw_if (8 <? String.length v) "Number larger than integer" Critical ;;
  throw_if (String.length v =? 0) "Passing empty as number" Critical ;;
  RequireDigits v.

(** [RequireTop(int sz)]: [Data.size() < sz] compares as [size_t]. *)
Definition RequireTop (sz : Z) : M unit :=
  n <- size ;;
  throw_if (Z.of_nat n <? to_size sz)%Z "Required argument, but not passed" Critical.

Definition RequireValueTop : M unit :=
  RequireTop 1 ;; t <- top ;; RequireValue t.

Definition RequireIntegerTop : M unit :=
  RequireTop 1 ;; t <- top ;; RequireInteger t.

Definition RequireBranchTop : M unit :=
  RequireTop 1 ;; t <- top ;; RequireBranch t.

(* ================================================================== *)
(** ** [Branch] members that act on a stack *)

(** The loop of the constructor [Branch(stack, taken)]: [Branches[i]] is
    filled from [i = taken - 1] down to 0, each time with the popped top. *)
Fixpoint Branch_fill (i : nat) (Branches : list BranchBase)
  : M (list BranchBase) :=
  match i with
  | O => ret Branches
  | S i' => t <- top ;; pop ;; Branch_fill i' (t :: Branches)
  end.

(** [std::make_shared<Branch>(Data, taken)].  Both callers pass a count that
    is not negative; a negative one would make [resize] fail with an exception
    of the standard library, which is outside the engine. *)
Definition new_Branch (taken : Z) : M BranchBase :=
  a <- alloc ;;
  if (taken <? 0)%Z then undefined
  else bs <- Branch_fill (Z.to_nat taken) [] ;; ret (Branch a bs).

(** The loop of [Branch::Unpack]. *)
Fixpoint Unpack_push (Branches : list BranchBase) : M unit :=
  match Branches with
  | i :: r => c <- node_Copy i ;; push c ;; Unpack_push r
  | [] => ret tt
  end.

Definition clear (n : BranchBase) : BranchBase :=
  match n with Branch a _ => Branch a [] | Value _ _ => n end.

(** [as_branch(br)->Unpack(Data)]. *)
Definition Unpack (br : BranchBase) : M unit :=
  bs <- Branches_of br ;;
  Unpack_push bs ;;
  write (addr_of br) clear.

(** [v[i]] on a vector with an [int] index: the index converts to [size_t],
    and an index past the end is not checked. *)
Definition at_index (v : list BranchBase) (i : Z) : M BranchBase :=
  match nth_error v (Z.to_nat (to_size i)) with
  | Some x => ret x
  | None => undefined
  end.

(* ================================================================== *)
(** ** The built-in operations *)

Definition PackTop : M unit :=
  n <- size ;;
  throw_if (n =? 0) "Required argument, but not passed" Critical ;;
  br <- new_Branch 1 ;;
  push br.

Definition UnpackTop : M unit :=
  RequireBranchTop ;;
  br <- top ;;
  pop ;;
  Unpack br.

(** The [while] of [PackTopSameLevel] on the stack [data], with the vector
    [br] of the new branch: the vector and the stack that remain. *)
Fixpoint SameLevel_loop (d : nat) (data br : list BranchBase)
  : list BranchBase * list BranchBase :=
  match data with
  | t :: data' =>
      if Depth t =? d then SameLevel_loop d data' (br ++ [t]) else (br, data)
  | [] => (br, data)
  end.

Definition PackTopSameLevel : M unit :=
  a <- alloc ;;
  t <- top ;;
  let d := Depth t in
  fun ev =>
    let (br, data) := SameLevel_loop d (Data ev) [] in
    push (Branch a br) (set_Data data ev).

Definition PackTopX : M unit :=
  RequireValueTop ;;
  t <- top ;;
  c <- ReadAs t ;;
  pop ;;
  n <- size ;;
  throw_if (Z.of_nat n <? to_size c)%Z "Too few arguments to unpack" Critical ;;
  br <- new_Branch c ;;
  push br.

Definition EmptyBranch : M unit :=
  a <- alloc ;; push (Branch a []).

Definition EmptyElement : M unit :=
  a <- alloc ;; push (Value a "").

Definition CopyFromIndex : M unit :=
  RequireValueTop ;;
  t <- top ;;
  c <- ReadAs t ;;
  pop ;;
  RequireBranchTop ;;
  b <- top ;;
  bs <- Branches_of b ;;
  x <- at_index bs c ;;
  x' <- node_Copy x ;;
  push x'.

(** [v = v.substr(1, v.size())] when [v[0] == '.']; [v[0]] of an empty string
    is the terminating zero. *)
Definition undot (n : BranchBase) : BranchBase :=
  match n with
  | Value a (String c r) => if Ascii.eqb c "." then Value a r else n
  | _ => n
  end.

Definition Undot : M unit :=
  RequireValueTop ;;
  t <- top ;;
  write (addr_of t) undot.

(** An upper bound on the number of iterations the traversal loops of the
    two column extractions make on a tree. *)
Fixpoint work (n : BranchBase) : nat :=
  match n with
  | Value _ _ => 1
  | Branch _ bs => 2 + list_sum (map work bs)
  end.

(** The [while (br.size() != 0)] of [ExtractColumnPack].  [br] and [cp] are
    the two local stacks, [nb] is the vector of [nbranch].  The loop runs at
    most [work root] times (lemma [Column_loop_fuel]); [fuel] only makes the
    recursion structural. *)
Fixpoint Column_loop (fuel : nat) (index depth : Z)
         (br : list BranchBase) (cp : list nat) (nb : list BranchBase)
  : M (list BranchBase) :=
  match fuel with
  | O => undefined
  | S fuel' =>
      match br, cp with
      | [], _ => ret nb
      | _ :: _, [] => undefined
      | b :: br', c :: cp' =>
          bs <- Branches_of b ;;
          if List.length bs <=? c then
            Column_loop fuel' index depth br' cp' nb
          else if (Z.of_nat (List.length br) =? to_size depth)%Z then
            if (to_size index <? Z.of_nat (List.length bs))%Z then
              x <- at_index bs index ;;
              x' <- node_Copy x ;;
              Column_loop fuel' index depth br' cp' (nb ++ [x'])
            else
              Column_loop fuel' index depth br' cp' nb
          else
            match nth_error bs c with
            | None => undefined
            | Some child =>
                if is_branch child then
                  Column_loop fuel' index depth (child :: b :: br')
                              (0 :: S c :: cp') nb
                else
                  Column_loop fuel' index depth (b :: br') (S c :: cp') nb
            end
      end
  end.

Definition ExtractColumnPack : M unit :=
  RequireValueTop ;;
  t <- top ;;
  index <- ReadAs t ;;
  pop ;;
  RequireValueTop ;;
  t <- top ;;
  depth <- ReadAs t ;;
  pop ;;
  throw_if (depth <? 1)%Z "Cannot extract from zero depth" Critical ;;
  RequireBranchTop ;;
  a <- alloc ;;
  root <- top ;;
  nb <- Column_loop (work root) index depth [root] [0] [] ;;
  push (Branch a nb).

(** [p->Branches.push_back(x)]. *)
Definition push_back (x : BranchBase) (n : BranchBase) : BranchBase :=
  match n with Branch a bs => Branch a (bs ++ [x]) | Value _ _ => n end.

(** The loop of [ExtractGroupedColumnPack].  [nbranch] is the output tree
    under construction and [nbr] the stack of pointers to its open
    branches. *)
Fixpoint Grouped_loop (fuel : nat) (index depth : Z)
         (br : list BranchBase) (cp : list nat) (nbr : list addr)
         (nbranch : BranchBase) : M BranchBase :=
  match fuel with
  | O => undefined
  | S fuel' =>
      match br, cp, nbr with
      | [], _, _ => ret nbranch
      | _ :: _, [], _ => undefined
      | _ :: _, _ :: _, [] => undefined
      | b :: br', c :: cp', o :: nbr' =>
          bs <- Branches_of b ;;
          if List.length bs <=? c then
            Grouped_loop fuel' index depth br' cp' nbr' nbranch
          else if (Z.of_nat (List.length br) =? to_size depth)%Z then
            if (to_size index <? Z.of_nat (List.length bs))%Z then
              x <- at_index bs index ;;
              x' <- node_Copy x ;;
              Grouped_loop fuel' index depth br' cp' nbr'
                           (update o (push_back x') nbranch)
            else
              Grouped_loop fuel' index depth br' cp' nbr' nbranch
          else
            match nth_error bs c with
            | None => undefined
            | Some child =>
                if is_branch child then
                  b_ <- alloc ;;
                  Grouped_loop fuel' index depth (child :: b :: br')
                               (0 :: S c :: cp') (b_ :: o :: nbr')
                               (update o (push_back (Branch b_ [])) nbranch)
                else
                  Grouped_loop fuel' index depth (b :: br') (S c :: cp')
                               (o :: nbr') nbranch
            end
      end
  end.

Definition ExtractGroupedColumnPack : M unit :=
  RequireValueTop ;;
  t <- top ;;
  index <- ReadAs t ;;
  pop ;;
  RequireValueTop ;;
  t <- top ;;
  depth <- ReadAs t ;;
  pop ;;
  throw_if (depth <? 1)%Z "Cannot extract from zero depth" Critical ;;
  RequireBranchTop ;;
  a <- alloc ;;
  root <- top ;;
  nbranch <- Grouped_loop (work root) index depth [root] [0] [a] (Branch a []) ;;
  push nbranch.

Fixpoint string_rev (s : string) : string :=
  match s with
  | String c r => (string_rev r ++ String c EmptyString)%string
  | EmptyString => EmptyString
  end.

(** What the two swap loops of [Reverse] do to the object they run on. *)
Definition reverse (n : BranchBase) : BranchBase :=
  match n with
  | Value a s => Value a (string_rev s)
  | Branch a bs => Branch a (rev bs)
  end.

Definition Reverse : M unit :=
  RequireTop 1 ;;
  t <- top ;;
  write (addr_of t) reverse.

Definition Copy : M unit :=
  RequireTop 1 ;;
  t <- top ;;
  c <- node_Copy t ;;
  push c.

(** [for (int i = 1; i < c; i++) Data.push(Data.top()->Copy());] with [n]
    iterations left. *)
Fixpoint Duplicate_loop (n : nat) : M unit :=
  match n with
  | O => ret tt
  | S n' => t <- top ;; c <- node_Copy t ;; push c ;; Duplicate_loop n'
  end.

Definition Duplicate : M unit :=
  RequireIntegerTop ;;
  t <- top ;;
  c <- ReadAs t ;;
  pop ;;
  Duplicate_loop (Z.to_nat (c - 1)).

(** The two [for] loops of [DeepRemove] around the stack [tmp]. *)
Fixpoint DeepRemove_save (n : nat) (tmp : list BranchBase)
  : M (list BranchBase) :=
  match n with
  | O => ret tmp
  | S n' => t <- top ;; pop ;; DeepRemove_save n' (t :: tmp)
  end.

Fixpoint DeepRemove_restore (n : nat) (tmp : list BranchBase) : M unit :=
  match n with
  | O => ret tt
  | S n' =>
      match tmp with
      | t :: tmp' => push t ;; DeepRemove_restore n' tmp'
      | [] => undefined
      end
  end.

Definition DeepRemove : M unit :=
  RequireIntegerTop ;;
  t <- top ;;
  c <- ReadAs t ;;
  pop ;;
  RequireTop (c + 1) ;;
  tmp <- DeepRemove_save (Z.to_nat c) [] ;;
  pop ;;
  DeepRemove_restore (Z.to_nat c) tmp.

(* ================================================================== *)
(** ** Row operations *)

(** [value.find(split, pos)] with [pos] a [size_t]. *)
Definition find (value split : string) (pos : Z) : Z :=
  match String.index (Z.to_nat pos) split value with
  | Some n => Z.of_nat n
  | None => npos
  end.

(** [value.substr(pos, count)] with both arguments [size_t].  A position past
    the end makes the library throw [std::out_of_range], which no handler of
    the engine catches. *)
Definition substr (value : string) (pos count : Z) : M string :=
  if (Z.of_nat (String.length value) <? pos)%Z then undefined
  else ret (String.substring (Z.to_nat pos) (Z.to_nat count) value).

(** [int np = value.find(split, p); if (np == npos) np = value.size();] *)
Definition next_match (value split : string) (p : Z) : Z :=
  let np := to_int (find value split (to_size p)) in
  if (to_size np =? npos)%Z then to_int (Z.of_nat (String.length value)) else np.

(** The [while (np != value.size())] of [SplitRow] with the statement that
    follows it; [r] is the vector of the new branch.  Every iteration moves
    [p] forward, so [String.length value + 1] rounds of [fuel] are enough
    (lemma [SplitRow_loop_fuel]). *)
Fixpoint SplitRow_loop (fuel : nat) (value split : string) (p np : Z)
         (r : list BranchBase) : M (list BranchBase) :=
  match fuel with
  | O => undefined
  | S fuel' =>
      if (to_size np =? Z.of_nat (String.length value))%Z then
        seg <- substr value (to_size p) (to_size (np - p)) ;;
        a <- alloc ;;
        ret (r ++ [Value a seg])
      else
        seg <- substr value (to_size p) (to_size (np - p)) ;;
        a <- alloc ;;
        let p' := to_int (to_size (to_size np + Z.of_nat (String.length split))) in
        SplitRow_loop fuel' value split p' (next_match value split p')
                      (r ++ [Value a seg])
  end.

Definition SplitRow : M unit :=
  RequireValueTop ;;
  t <- top ;;
  split <- Stored_of t ;;
  throw_if (String.length split =? 0) "Empty passed as split" Critical ;;
  pop ;;
  RequireValueTop ;;
  t <- top ;;
  value <- Stored_of t ;;
  pop ;;
  r <- alloc ;;
  bs <- SplitRow_loop (S (String.length value)) value split 0
                      (next_match value split 0) [] ;;
  push (Branch r bs).

(** The [for] of [ConcatRow]: [f] is the flag, [str] the text written to the
    stream so far. *)
Fixpoint ConcatRow_loop (space : string) (Branches : list BranchBase)
         (f : bool) (str : string) : M string :=
  match Branches with
  | i :: rest =>
      if Depth i =? 0 then
        s <- Stored_of i ;;
        ConcatRow_loop space rest true
                       ((if f then str ++ space else str) ++ s)%string
      else ConcatRow_loop space rest f str
  | [] => ret str
  end.

Definition ConcatRow : M unit :=
  RequireValueTop ;;
  t <- top ;;
  space <- Stored_of t ;;
  pop ;;
  RequireBranchTop ;;
  br <- top ;;
  bs <- Branches_of br ;;
  pop ;;
  str <- ConcatRow_loop space bs false "" ;;
  a <- alloc ;;
  push (Value a str).

(** The lambda registered as ["#"]. *)
Definition Pop : M unit := pop.

(* ================================================================== *)
(** ** Registry and dispatch *)

Definition Function : Type := M unit.

(** [FuncDef]; two definitions are the same element of the set when their
    names are equal. *)
Record FuncDef : Type := mkFuncDef { Func : Function; Name : string }.

(** [std::set<FuncDef>], as the sequence of its elements. *)
Definition Functions_t : Type := list FuncDef.

(** [Functions.insert(d)]: a set keeps the element it already has. *)
Definition insert (d : FuncDef) (F : Functions_t) : Functions_t :=
  if existsb (fun e => String.eqb (Name e) (Name d)) F then F else F ++ [d].

(** [Functions.find({nullptr, com})]. *)
Definition lookup (com : string) (F : Functions_t) : option Function :=
  match List.find (fun e => String.eqb (Name e) com) F with
  | Some e => Some (Func e)
  | None => None
  end.

Definition LoadDefault (F : Functions_t) : Functions_t :=
  fold_left (fun F d => insert d F)
    [ mkFuncDef PackTop "^t";
      mkFuncDef PackTopSameLevel "^";
      mkFuncDef UnpackTop "^_t";
      mkFuncDef PackTopX "^tc";
      mkFuncDef EmptyBranch "|Eb";
      mkFuncDef EmptyElement "|Ev";
      mkFuncDef CopyFromIndex "|i";
      mkFuncDef ExtractColumnPack "|id";
      mkFuncDef CopyFromIndex "|[";
      mkFuncDef ExtractColumnPack "|]";
      mkFuncDef ExtractGroupedColumnPack "|]g";
      mkFuncDef Copy "|";
      mkFuncDef Duplicate "|c";
      mkFuncDef Pop "#";
      mkFuncDef DeepRemove "#d";
      mkFuncDef Undot "$";
      mkFuncDef ConcatRow "$^";
      mkFuncDef SplitRow "$_";
      mkFuncDef Reverse "_" ] F.

(** The registry of a fresh evaluator after [LoadDefault()]. *)
Definition Functions : Functions_t := LoadDefault [].

Definition nl : string := String (ascii_of_nat 10) EmptyString.
Definition tab : string := String (ascii_of_nat 9) EmptyString.

(** The text both handlers start their log entry with. *)
Definition caused (e : ExecutionEngineException) (com : string) : string :=
  (what e ++ nl ++ "Caused during invoking:" ++ com)%string.

(** The [try] block of [EvalCom]. *)
Definition EvalCom_try (F : Functions_t) (com : string) : M unit :=
  if String.length com <? 1 then ret tt
  else match lookup com F with
       | None => a <- alloc ;; push (Value a com)
       | Some f => f
       end.

(** [EvalCom(com, log, catch_localy)]. *)
Definition EvalCom (F : Functions_t) (com : string) (log catch_localy : bool)
  : M unit :=
  fun ev =>
    match EvalCom_try F com ev with
    | Ok _ ev' => Ok tt ev'
    | Undefined => Undefined
    | Throw exception ev' =>
        if negb catch_localy then Throw exception ev'
        else
          let str := caused exception com in
          let ev'' := if log then set_Log (str :: Log ev') ev' else ev' in
          if Level_gt (ErrorLevel exception) (ApprovedLevel ev'')
          then Throw exception ev''
          else Ok tt ev''
    end.

(** The trace loop of [EvalComs]: [j] runs from 0 to [i] and every round
    writes [coms[i]]. *)
Fixpoint trace (n : nat) (com_i : string) : string :=
  match n with
  | O => EmptyString
  | S n' => (tab ++ com_i ++ nl ++ trace n' com_i)%string
  end.

(** [EvalComs(coms)] from index [i] on; [rest] is [coms] from [i]. *)
Fixpoint EvalComs_from (F : Functions_t) (i : nat) (rest : list string)
  : M unit :=
  match rest with
  | [] => ret tt
  | com_i :: rest' =>
      fun ev =>
        match EvalCom F com_i false false ev with
        | Ok _ ev' => EvalComs_from F (S i) rest' ev'
        | Undefined => Undefined
        | Throw exception ev' =>
            let str := (caused exception com_i ++ nl ++ "Com trace:"
                        ++ trace (i + 1) com_i)%string in
            let ev'' := set_Log (str :: Log ev') ev' in
            if Level_gt (ErrorLevel exception) (ApprovedLevel ev'')
            then Throw exception ev''
            else EvalComs_from F (S i) rest' ev''
        end
  end.

Definition EvalComs (F : Functions_t) (coms : list string) : M unit :=
  EvalComs_from F 0 coms.

(** [Evaluator()]: both stacks empty.  The constructor does not initialise
    [ApprovedLevel]; the level a fresh evaluator holds is a parameter. *)
Definition new_Evaluator (level : Level) : Evaluator :=
  mkEvaluator [] [] level 0.

(* ================================================================== *)
(** ** [Evaluator::Require], the pattern validator *)

(** The local stacks [l] and [c_p], tops at the heads. *)
Definition cursors : Type := (list BranchBase * list nat)%type.

(** [l.top()->Branches[c_p.top()]]. *)
Definition cursor_node (st : cursors) : M BranchBase :=
  match st with
  | (b :: _, c :: _) =>
      bs <- Branches_of b ;;
      match nth_error bs c with Some x => ret x | None => undefined end
  | _ => undefined
  end.

(** [c_p.top()++]. *)
Definition cursor_advance (st : cursors) : M cursors :=
  match st with
  | (l, c :: c_p) => ret (l, S c :: c_p)
  | (_, []) => undefined
  end.

(** [l.pop(); c_p.pop();] *)
Definition Require_dot (st : cursors) : M cursors :=
  match st with
  | (_ :: l, _ :: c_p) => ret (l, c_p)
  | _ => undefined
  end.

(** [RequireBranch(l.top()->Branches[c_p.top()]);
     l.push(as_branch(l.top()->Branches[c_p.top()]));
     c_p.top()++; c_p.push(0);] *)
Definition Require_b (st : cursors) : M cursors :=
  x <- cursor_node st ;;
  RequireBranch x ;;
  x <- cursor_node st ;;
  st' <- cursor_advance (x :: fst st, snd st) ;;
  ret (fst st', 0 :: snd st').

(** One round of the [do] body for the character [ch]: the [if]/[else if]
    chain, then the [switch]. *)
Definition Require_body (ch : ascii) (st : cursors) : M cursors :=
  st <- (if Ascii.eqb ch "." then Require_dot st
         else if Ascii.eqb ch "b" then Require_b st
         else ret st) ;;
  if Ascii.eqb ch "." then Require_dot st
  else if Ascii.eqb ch "b" then Require_b st
  else if Ascii.eqb ch "v" then
    x <- cursor_node st ;; RequireValue x ;; cursor_advance st
  else if Ascii.eqb ch "i" then
    x <- cursor_node st ;; RequireInteger x ;; cursor_advance st
  else if Ascii.eqb ch "e" then
    _ <- cursor_node st ;; cursor_advance st
  else ThrowWraped "Require syntax error" Critical.

(** [do { ... index++; } while (index < request.size());] on the characters
    from [index] on; the body runs before the test. *)
Fixpoint Require_do (ch : ascii) (rest : string) (st : cursors) : M unit :=
  st' <- Require_body ch st ;;
  match rest with
  | String ch' rest' => Require_do ch' rest' st'
  | EmptyString => ret tt
  end.

(** [Require(request, br)].  [l] starts with the root, [c_p] starts empty.
    [request[0]] of an empty string is the terminating zero. *)
Definition Require (request : string) (br : BranchBase) : M unit :=
  RequireBranch br ;;
  match request with
  | String ch rest => Require_do ch rest ([br], [])
  | EmptyString => Require_do zero EmptyString ([br], [])
  end.

(** The tokens [coms] given to [EvalCom] one call after the other, with the
    default arguments, the way a caller feeds lines to the engine. *)
Fixpoint feed (F : Functions_t) (coms : list string) : M unit :=
  match coms with
  | [] => ret tt
  | com :: rest => EvalCom F com true true ;; feed F rest
  end.

(** The leaves made one after the other from [nx] on for the texts
    [texts]. *)
Fixpoint Values_at (nx : addr) (texts : list string) : list BranchBase :=
  match texts with
  | [] => []
  | s :: r => Value nx s :: Values_at (S nx) r
  end.

(* ================================================================== *)
(** ** Column extraction in the words of its description *)

(** The [Branch] nodes at nesting distance [k] from [n] (the node itself for
    [k = 0], its children for [k = 1], ...), in depth-first order. *)
Fixpoint rows_at (k : nat) (n : BranchBase) {struct n} : list BranchBase :=
  match n with
  | Value _ _ => []
  | Branch _ bs =>
      match k with
      | O => [n]
      | S k' => flat_map (rows_at k') bs
      end
  end.

(** The child of [row] at position [idx], when it has one. *)
Definition child_at (idx : Z) (row : BranchBase) : list BranchBase :=
  match row with
  | Branch _ bs =>
      if (0 <=? idx)%Z then
        match nth_error bs (Z.to_nat idx) with Some c => [c] | None => [] end
      else []
  | Value _ _ => []
  end.

(** The children at position [idx] of the branches at distance [k] from
    [root]; a branch without such a child contributes nothing. *)
Definition column (idx : Z) (k : nat) (root : BranchBase) : list BranchBase :=
  flat_map (child_at idx) (rows_at k root).

(** Every vector in the tree can be walked by an [int] counter. *)
Fixpoint small (n : BranchBase) : bool :=
  match n with
  | Value _ _ => true
  | Branch _ bs => (Z.of_nat (List.length bs) <=? INT_MAX)%Z && forallb small bs
  end.

(** A frame of the traversal: a branch on [br] with its counter on [cp].
    [frame_picks] is what the frame still contributes when [k] levels remain
    between it and the target level; [frame_work] bounds the iterations it
    still takes. *)
Definition frame_picks (index : Z) (k : nat) (f : BranchBase * nat)
  : list BranchBase :=
  match fst f with
  | Value _ _ => []
  | Branch _ bs =>
      match k with
      | O => if snd f <? List.length bs then child_at index (fst f) else []
      | S k' => flat_map (column index k') (skipn (snd f) bs)
      end
  end.

Fixpoint stack_picks (index : Z) (k : nat) (fs : list (BranchBase * nat))
  : list BranchBase :=
  match fs with
  | [] => []
  | f :: r => frame_picks index k f ++ stack_picks index (S k) r
  end.

Definition frame_work (f : BranchBase * nat) : nat :=
  match fst f with
  | Value _ _ => 1
  | Branch _ bs => 1 + list_sum (map work (skipn (snd f) bs))
  end.

Definition good_frame (f : BranchBase * nat) : Prop :=
  is_branch (fst f) = true /\ small (fst f) = true.

(* ================================================================== *)
(** ** Sharing between stack slots *)

(** Induction on a node with the hypothesis on all its children. *)
Fixpoint BranchBase_rect' (P : BranchBase -> Prop)
         (HV : forall a s, P (Value a s))
         (HB : forall a bs, Forall P bs -> P (Branch a bs))
         (n : BranchBase) : P n :=
  match n with
  | Value a s => HV a s
  | Branch a bs =>
      HB a bs ((fix all (l : list BranchBase) : Forall P l :=
                  match l with
                  | [] => Forall_nil P
                  | b :: l' => Forall_cons b (BranchBase_rect' P HV HB b) (all l')
                  end) bs)
  end.

(** The objects reachable from a sequence of nodes, with repetitions. *)
Definition footprint (l : list BranchBase) : list addr := flat_map addrs l.

(** How often the object [x] is reached. *)
Definition occ (l : list addr) (x : addr) : nat := count_occ Nat.eq_dec l x.

(** The objects held by local variables ([la]) and those reachable from the
    stack are all different, and all were handed out by the allocator. *)
Definition owns (la : list addr) (ev : Evaluator) : Prop :=
  forall x,
    occ la x + occ (footprint (Data ev)) x <= 1 /\
    (1 <= occ la x + occ (footprint (Data ev)) x -> x < heap_next ev).

(** The invariant of the evaluator: no object is reachable twice from the
    stack, and the allocator counter is above every object in use. *)
Definition inv (ev : Evaluator) : Prop := owns [] ev.

(** Two nodes share no object. *)
Definition disjoint (x y : BranchBase) : Prop :=
  forall a, In a (addrs x) -> ~ In a (addrs y).

(** Every two slots of a stack hold nodes that share no object. *)
Definition topologically_disjoint (st : list BranchBase) : Prop :=
  forall i j x y,
    i <> j -> nth_error st i = Some x -> nth_error st j = Some y ->
    disjoint x y.

(** [m], started in a state with [P], returns in a state with [Q] or throws
    in a state with [E]. *)
Definition hoare {A} (P : Evaluator -> Prop) (m : M A)
           (Q : A -> Evaluator -> Prop) (E : Evaluator -> Prop) : Prop :=
  forall ev, P ev ->
    match m ev with
    | Ok a ev' => Q a ev'
    | Throw e ev' => E ev'
    | Undefined => True
    end.

(** [m] returns or throws in the state it started in. *)
Definition pure {A} (m : M A) : Prop :=
  forall ev,
    match m ev with
    | Ok _ ev' => ev' = ev
    | Throw _ ev' => ev' = ev
    | Undefined => True
    end.

(** A function on nodes whose result reaches no object more often than its
    argument does. *)
Definition shrinking (f : BranchBase -> BranchBase) : Prop :=
  forall n x, occ (addrs (f n)) x <= occ (addrs n) x.

(** [m] keeps the invariant, whether it returns or throws. *)
Definition preserves (m : M unit) : Prop :=
  forall ev, inv ev ->
    match m ev with
    | Ok _ ev' | Throw _ ev' => inv ev'
    | Undefined => True
    end.

(** The decimal numeral of [n], the text of the unsigned-integer leaf for
    [n]. *)
Definition decimal (n : nat) : string :=
  DecimalString.NilEmpty.string_of_uint (Nat.to_uint n).

(** [m] leaves [ApprovedLevel] as it is, and every exception it throws has
    the level [Fatal]. *)
Definition raises_Fatal {A} (m : M A) : Prop :=
  forall ev,
    match m ev with
    | Ok _ ev' => ApprovedLevel ev' = ApprovedLevel ev
    | Throw e ev' => ApprovedLevel ev' = ApprovedLevel ev /\ ErrorLevel e = Fatal
    | Undefined => True
    end.

(* ================================================================== *)
(** ** The swap loops of [Reverse] *)

(** [v[i] = x] on a vector, for [i] inside it. *)
Fixpoint assign {A} (i : nat) (x : A) (v : list A) : list A :=
  match v, i with
  | [], _ => []
  | _ :: r, O => x :: r
  | y :: r, S i' => y :: assign i' x r
  end.

(** [std::swap(v[i], v[j])]; [operator[]] does not check its index. *)
Definition swap {A} (i j : nat) (v : list A) : option (list A) :=
  match nth_error v i, nth_error v j with
  | Some x, Some y => Some (assign j x (assign i y v))
  | _, _ => None
  end.

(** [for (int i = 0; i < v.size() / 2; i++) std::swap(v[i], v[v.size() - 1 - i]);]
    from the counter value [i] on, with [n] rounds left.  The counter is an
    [int]: incrementing it past [INT_MAX] is undefined. *)
Fixpoint swap_loop {A} (n i : nat) (v : list A) : option (list A) :=
  match n with
  | O => Some v
  | S n' =>
      match swap i (List.length v - 1 - i) v with
      | Some v' =>
          if (Z.of_nat i <? INT_MAX)%Z then swap_loop n' (S i) v' else None
      | None => None
      end
  end.

(** The loop of [Reverse] on the vector of a [Branch], and on the characters
    of the text of a [Value]. *)
Definition Reverse_swaps {A} (v : list A) : option (list A) :=
  swap_loop (List.length v / 2) 0 v.

Definition Reverse_swaps_string (s : string) : option string :=
  option_map string_of_list_ascii (Reverse_swaps (list_ascii_of_string s)).

(* ================================================================== *)
(** ** [BranchStream] and [PrintData] *)

(** [BranchStream]: the text written to [out_] so far, the counter [depth_]
    and the three public strings. *)
Record BranchStream : Type := mkBranchStream {
  out_ : string;
  depth_ : nat;
  Space : string;
  Section_ : string;
  ValueEnd : string
}.

(** [BranchStream str{ out }] with the default member initialisers. *)
Definition new_BranchStream (out : string) : BranchStream :=
  mkBranchStream out 0 tab "./section" nl.

(** [out_ << s]. *)
Definition stream_out (s : string) (str : BranchStream) : BranchStream :=
  mkBranchStream (out_ str ++ s) (depth_ str) (Space str) (Section_ str)
                 (ValueEnd str).

(** An assignment to [depth_]. *)
Definition set_depth (d : nat) (str : BranchStream) : BranchStream :=
  mkBranchStream (out_ str) d (Space str) (Section_ str) (ValueEnd str).

(** [for (int i = 0; i < depth_; i++) out_ << Space;] with [n] rounds
    left. *)
Fixpoint indent (n : nat) (str : BranchStream) : BranchStream :=
  match n with
  | O => str
  | S n' => indent n' (stream_out (Space str) str)
  end.

(** [operator<<(sp<Value>)]. *)
Definition put_Value (Stored : string) (str : BranchStream) : BranchStream :=
  stream_out (ValueEnd str) (stream_out Stored (indent (depth_ str) str)).

(** [operator<<(sp<BranchBase>)], which tests [Depth()] and casts, with
    [operator<<(sp<Branch>)] inlined: the indentation, [depth_++], the
    section line, the children, [depth_--].  [None] stands for the use of a
    null pointer that a failed cast would yield. *)
Fixpoint put (branch : BranchBase) (str : BranchStream) : option BranchStream :=
  if Depth branch =? 0 then
    match branch with
    | Value _ s => Some (put_Value s str)
    | Branch _ _ => None
    end
  else
    match branch with
    | Value _ _ => None
    | Branch _ bs =>
        let str1 := indent (depth_ str) str in
        let str2 := set_depth (S (depth_ str1)) str1 in
        let str3 := stream_out (ValueEnd str2) (stream_out (Section_ str2) str2) in
        match (fix put_all (l : list BranchBase) (st : BranchStream)
                 : option BranchStream :=
                 match l with
                 | [] => Some st
                 | i :: l' =>
                     match put i st with
                     | Some st' => put_all l' st'
                     | None => None
                     end
                 end) bs str3 with
        | Some str4 => Some (set_depth (Nat.pred (depth_ str4)) str4)
        | None => None
        end
    end.

(** The [for (auto i : branch->Branches) *this << i;] as a function of its
    own. *)
Fixpoint put_all (l : list BranchBase) (st : BranchStream) : option BranchStream :=
  match l with
  | [] => Some st
  | i :: l' =>
      match put i st with
      | Some st' => put_all l' st'
      | None => None
      end
  end.

(** The first [while] of [PrintData]: [Data] is moved to [tmp] node by node
    and every node is written when it is moved. *)
Fixpoint PrintData_write (data tmp : list BranchBase) (str : BranchStream)
  : option (list BranchBase * BranchStream) :=
  match data with
  | [] => Some (tmp, str)
  | t :: data' =>
      match put t str with
      | Some str' => PrintData_write data' (t :: tmp) str'
      | None => None
      end
  end.

(** The second [while]: [tmp] is moved back. *)
Fixpoint PrintData_restore (tmp data : list BranchBase) : list BranchBase :=
  match tmp with
  | [] => data
  | t :: tmp' => PrintData_restore tmp' (t :: data)
  end.

(** [PrintData(out)]; [out] is the text the stream holds before the call,
    the result the text it holds after it. *)
Definition PrintData (out : string) : M string :=
  fun ev =>
    match PrintData_write (Data ev) [] (new_BranchStream out) with
    | Some (tmp, str) => Ok (out_ str) (set_Data (PrintData_restore tmp []) ev)
    | None => Undefined
    end.

(* ================================================================== *)
(** ** Descriptions used by the further properties *)

(** Every character of [s] is a decimal digit. *)
Fixpoint all_digits (s : string) : bool :=
  match s with
  | String c r => isdigit c && all_digits r
  | EmptyString => true
  end.

(** A text of one to eight decimal digits. *)
Definition integer_text (s : string) : bool :=
  (1 <=? String.length s) && (String.length s <=? 8) && all_digits s.

(** A token that [EvalCom] pushes as a leaf: it is not empty and names no
    registered operation. *)
Definition literal (com : string) : Prop :=
  com <> EmptyString /\ lookup com Functions = None.

(** The characters [Require] treats as opcodes. *)
Definition opcode (ch : ascii) : bool :=
  Ascii.eqb ch "." || Ascii.eqb ch "b" || Ascii.eqb ch "v" || Ascii.eqb ch "i"
  || Ascii.eqb ch "e".

(** The height of a tree: 0 for a leaf, one more than the highest child for
    a node, and 1 for a node without children. *)
Fixpoint height (t : tree) : nat :=
  match t with
  | Leaf _ => 0
  | Node cs => S (list_max (map height cs))
  end.

(** The texts of the children of a [Branch] that are leaves, in order. *)
Definition leaf_texts (bs : list BranchBase) : list string :=
  flat_map (fun x => match x with Value _ s => [s] | Branch _ _ => [] end) bs.

(** [m] leaves the stack [Log] as it is, whether it returns or throws. *)
Definition keeps_Log {A} (m : M A) : Prop :=
  forall ev,
    match m ev with
    | Ok _ ev' | Throw _ ev' => Log ev' = Log ev
    | Undefined => True
    end.

(** The messages of the errors the registered operations raise. *)
Definition messages : list string :=
  [ "Required argument, but not passed";
    "Branch as value argument";
    "Value as branch argument";
    "Number larger than integer";
    "Passing empty as number";
    "Not a number passed as an integer";
    "Too few arguments to unpack";
    "Cannot extract from zero depth";
    "Empty passed as split" ].

(** Every exception [m] throws was made by [ThrowWraped] from one of
    [messages] and the level [Critical]. *)
Definition raises_listed {A} (m : M A) : Prop :=
  forall ev,
    match m ev with
    | Throw e _ => exists msg, In msg messages /\ e = Wraped msg Critical
    | _ => True
    end.

(* ================================================================== *)
(** ** Grouped column extraction in the words of its description *)

(** The children that the grouped extraction gives its output branch for the
    source branch [n], when [k] levels lie between [n] and the target level:
    at the target level the child at [idx], when there is one; above it one
    branch for every child of [n] that is a branch, holding what that child
    gives. *)
Fixpoint groups (idx : Z) (k : nat) (n : BranchBase) {struct n} : list tree :=
  match n with
  | Value _ _ => []
  | Branch _ bs =>
      match k with
      | O => map value_of (child_at idx n)
      | S k' =>
          flat_map (fun c => if is_branch c then [Node (groups idx k' c)] else [])
                   bs
      end
  end.

(** The picks inside a list of groups nested [k] deep, in order. *)
Fixpoint flatten (k : nat) (ts : list tree) : list tree :=
  match k with
  | O => ts
  | S k' =>
      flat_map (fun t => match t with
                         | Node cs => flatten k' cs
                         | Leaf _ => []
                         end) ts
  end.

(** What a frame of the grouped traversal still gives its output branch. *)
Definition frame_groups (idx : Z) (k : nat) (f : BranchBase * nat) : list tree :=
  match fst f with
  | Value _ _ => []
  | Branch _ bs =>
      match k with
      | O => if snd f <? List.length bs
             then map value_of (child_at idx (fst f)) else []
      | S k' =>
          flat_map (fun c => if is_branch c then [Node (groups idx k' c)] else [])
                   (skipn (snd f) bs)
      end
  end.

(** The output tree under construction: the open branch [inner] is the last
    child of the open branch above it, and so on up to the output root.  A
    level of [outer] is the address of an open branch with the children it
    had before the open branch below it was added. *)
Fixpoint close (inner : BranchBase) (outer : list (addr * list BranchBase))
  : BranchBase :=
  match outer with
  | [] => inner
  | l :: outer' => close (Branch (fst l) (snd l ++ [inner])) outer'
  end.

(** The objects of the levels of [outer]. *)
Definition outer_addrs (outer : list (addr * list BranchBase)) : list addr :=
  flat_map (fun l => fst l :: flat_map addrs (snd l)) outer.

(** The open branches are different objects, none of them is inside a
    finished part, and the allocator is above all of them. *)
Fixpoint wf_levels (nx : addr) (levels : list (addr * list BranchBase)) : Prop :=
  match levels with
  | [] => True
  | l :: outer =>
      fst l < nx /\ Forall (fun a => a < nx) (flat_map addrs (snd l)) /\
      ~ In (fst l) (outer_addrs outer) /\ wf_levels nx outer
  end.

(** The contents of the output root once the frames [fs] are worked off,
    when [t] is the finished contents of the open branch below them. *)
Fixpoint finish_outer (idx : Z) (k : nat) (t : tree)
         (fs : list (BranchBase * nat)) (outer : list (addr * list BranchBase))
  : tree :=
  match fs, outer with
  | f :: fs', l :: outer' =>
      finish_outer idx (S k)
                   (Node (map value_of (snd l) ++ [t] ++ frame_groups idx k f))
                   fs' outer'
  | _, _ => t
  end.

(* ================================================================== *)
(** ** The outline [PrintData] writes *)

(** [n] copies of [s]. *)
Fixpoint replicate (n : nat) (s : string) : string :=
  match n with
  | O => ""
  | S n' => s ++ replicate n' s
  end.

(** The outline of a tree at indentation [d]: a leaf is one line with its
    text, a node is the line [./section] followed by the outlines of its
    children one level deeper. *)
Fixpoint outline (d : nat) (t : tree) : string :=
  match t with
  | Leaf s => replicate d tab ++ s ++ nl
  | Node cs =>
      replicate d tab ++ "./section" ++ nl
      ++ String.concat "" (map (outline (S d)) cs)
  end.

(** Induction on a tree with the hypothesis on all its children. *)
Fixpoint tree_rect' (P : tree -> Prop)
         (HL : forall s, P (Leaf s))
         (HN : forall cs, Forall P cs -> P (Node cs))
         (t : tree) : P t :=
  match t with
  | Leaf s => HL s
  | Node cs =>
      HN cs ((fix all (l : list tree) : Forall P l :=
                match l with
                | [] => Forall_nil P
                | c :: l' => Forall_cons c (tree_rect' P HL HN c) (all l')
                end) cs)
  end.

(** A text that fills one line of the outline and cannot be taken for
    indentation: it holds no line feed and does not start with a tab. *)
Definition one_line (s : string) : Prop :=
  ~ In (ascii_of_nat 10) (list_ascii_of_string s) /\
  (forall r, s <> String (ascii_of_nat 9) r).

(** A tree whose leaf texts fill one line each and differ from the section
    marker. *)
Fixpoint plain (t : tree) : Prop :=
  match t with
  | Leaf s => one_line s /\ s <> "./section"
  | Node cs => (fix all (l : list tree) : Prop :=
                  match l with
                  | [] => True
                  | c :: l' => plain c /\ all l'
                  end) cs
  end.

(** The lines of the outline of a tree: indentation and text. *)
Fixpoint lines (d : nat) (t : tree) : list (nat * string) :=
  match t with
  | Leaf s => [(d, s)]
  | Node cs => (d, "./section") :: flat_map (lines (S d)) cs
  end.

(** The text of a list of lines. *)
Fixpoint render (l : list (nat * string)) : string :=
  match l with
  | [] => ""
  | (n, s) :: l' => replicate n tab ++ s ++ nl ++ render l'
  end.

(** The lines that may follow the outline of a node at indentation [d]. *)
Definition shallow (d : nat) (r : list (nat * string)) : Prop :=
  match r with
  | [] => True
  | l :: _ => fst l <= d
  end.

(* ================================================================== *)
(** * Properties *)

(** ** Basic facts about nodes and outcomes *)

(** Runs the straight-line part of an operation on an explicit state. *)
Ltac step :=
  cbn -[Z.ltb Z.eqb Z.leb to_size to_int Z.of_nat Z.to_nat Z.add Z.sub
        Branch_fill ReadAs_int Copy_at Copy_all Unpack_push update
        String.length String.substring String.index SplitRow_loop next_match
        ConcatRow_loop RequireTop Column_loop Grouped_loop work column].

Lemma is_branch_Branch a bs : is_branch (Branch a bs) = true.
Proof. reflexivity. Qed.

Lemma is_branch_Value a s : is_branch (Value a s) = false.
Proof. reflexivity. Qed.

Lemma is_value_Value a s : is_value (Value a s) = true.
Proof. reflexivity. Qed.

Lemma is_value_Branch a bs : is_value (Branch a bs) = false.
Proof. reflexivity. Qed.

Lemma ErrorLevel_Wraped msg level : ErrorLevel (Wraped msg level) = Fatal.
Proof. reflexivity. Qed.

Lemma BaseLevel_Wraped msg level :
  option_map ErrorLevel (BaseException (Wraped msg level)) = Some level.
Proof. reflexivity. Qed.

Lemma append_empty_r (s : string) : (s ++ "")%string = s.
Proof. induction s as [|c s IH]; simpl; [reflexivity | now rewrite IH]. Qed.


Lemma Copy_at_Branch a bs nx :
  Copy_at (Branch a bs) nx
  = let (bs', nx') := Copy_all bs (S nx) in (Branch nx bs', nx').
Proof.
  simpl. generalize (S nx) as m. intros m.
  match goal with |- (let (_, _) := ?f bs m in _) = _ =>
    assert (E : forall l k, f l k = Copy_all l k) end.
  { induction l as [|b l IH]; intros k; simpl; [reflexivity|].
    destruct (Copy_at b k) as [b' k1]. now rewrite IH. }
  now rewrite E.
Qed.

(** A clone has the contents of the original. *)
Lemma value_of_Copy_at n : forall nx, value_of (fst (Copy_at n nx)) = value_of n.
Proof.
  induction n as [a s | a bs IH] using BranchBase_rect'; intros nx.
  - reflexivity.
  - rewrite Copy_at_Branch.
    assert (E : forall k, map value_of (fst (Copy_all bs k)) = map value_of bs).
    { induction IH as [|b l Hb _ IHl]; intros k; simpl; [reflexivity|].
      specialize (Hb k). destruct (Copy_at b k) as [b' k1]. simpl in Hb.
      specialize (IHl k1). destruct (Copy_all l k1) as [l' k2]. simpl in *.
      now rewrite Hb, IHl. }
    specialize (E (S nx)). destruct (Copy_all bs (S nx)) as [bs' k].
    simpl in *. now rewrite E.
Qed.

Lemma value_of_Copy_all l : forall nx,
    map value_of (fst (Copy_all l nx)) = map value_of l.
Proof.
  induction l as [|b l IH]; intros nx; simpl; [reflexivity|].
  pose proof (value_of_Copy_at b nx) as Hb.
  destruct (Copy_at b nx) as [b' k1]. specialize (IH k1).
  destruct (Copy_all l k1) as [l' k2]. simpl in *. now rewrite Hb, IH.
Qed.

(** The objects of a clone made at [nx] are exactly the addresses from [nx]
    up to the next free one. *)
Lemma addrs_Copy_at n : forall nx,
    nx <= snd (Copy_at n nx) /\
    addrs (fst (Copy_at n nx)) = seq nx (snd (Copy_at n nx) - nx).
Proof.
  induction n as [a s | a bs IH] using BranchBase_rect'; intros nx.
  - cbn [Copy_at fst snd addrs]. split; [lia|].
    replace (S nx - nx) with 1 by lia. reflexivity.
  - rewrite Copy_at_Branch.
    assert (E : forall k, k <= snd (Copy_all bs k) /\
                flat_map addrs (fst (Copy_all bs k))
                = seq k (snd (Copy_all bs k) - k)).
    { induction IH as [|b l Hb _ IHl]; intros k; simpl.
      - split; [lia|]. now rewrite Nat.sub_diag.
      - specialize (Hb k). destruct (Copy_at b k) as [b' k1]. simpl in Hb.
        specialize (IHl k1). destruct (Copy_all l k1) as [l' k2]. simpl in *.
        destruct Hb as [Hb1 Hb2], IHl as [Hl1 Hl2]. split; [lia|].
        rewrite Hb2, Hl2.
        replace (k2 - k) with ((k1 - k) + (k2 - k1)) by lia.
        rewrite seq_app. now replace (k + (k1 - k)) with k1 by lia. }
    specialize (E (S nx)). destruct (Copy_all bs (S nx)) as [bs' k].
    simpl in *. destruct E as [E1 E2]. split; [lia|].
    rewrite E2. replace (k - nx) with (S (k - S nx)) by lia. reflexivity.
Qed.

Lemma addrs_Copy_all l : forall nx,
    nx <= snd (Copy_all l nx) /\
    flat_map addrs (fst (Copy_all l nx)) = seq nx (snd (Copy_all l nx) - nx).
Proof.
  induction l as [|b l IH]; intros nx; simpl.
  - split; [lia|]. now rewrite Nat.sub_diag.
  - pose proof (addrs_Copy_at b nx) as Hb.
    destruct (Copy_at b nx) as [b' k1]. specialize (IH k1).
    destruct (Copy_all l k1) as [l' k2]. simpl in *.
    destruct Hb as [Hb1 Hb2], IH as [Hl1 Hl2]. split; [lia|].
    rewrite Hb2, Hl2.
    replace (k2 - nx) with ((k1 - nx) + (k2 - k1)) by lia.
    rewrite seq_app. now replace (nx + (k1 - nx)) with k1 by lia.
Qed.

(** A write through a pointer that does not reach into a node leaves the
    node as it is. *)
Lemma update_absent a f n : ~ In a (addrs n) -> update a f n = n.
Proof.
  induction n as [b s | b bs IH] using BranchBase_rect'; intros H; simpl in *.
  - destruct (Nat.eqb_spec b a); [exfalso; auto | reflexivity].
  - destruct (Nat.eqb_spec b a); [exfalso; auto |].
    f_equal. rewrite <- (map_id bs) at 2. apply map_ext_in.
    intros x Hx. rewrite Forall_forall in IH. apply IH; [exact Hx|].
    intros Hin. apply H. right. apply in_flat_map. eauto.
Qed.

Lemma map_update_absent a f l :
  ~ In a (flat_map addrs l) -> map (update a f) l = l.
Proof.
  intros H. rewrite <- (map_id l) at 2. apply map_ext_in. intros x Hx.
  apply update_absent. intros Hin. apply H. apply in_flat_map. eauto.
Qed.

(** ** Dispatch of a registered token *)

Lemma EvalCom_try_registered com f :
  lookup com Functions = Some f -> EvalCom_try Functions com = f.
Proof.
  intros H. unfold EvalCom_try. destruct com as [|c com].
  - discriminate H.
  - cbn [String.length Nat.ltb Nat.leb]. now rewrite H.
Qed.

Lemma EvalCom_Ok F com log catch_localy ev ev' :
  EvalCom_try F com ev = Ok tt ev' -> EvalCom F com log catch_localy ev = Ok tt ev'.
Proof. intros H. unfold EvalCom. now rewrite H. Qed.

Lemma EvalCom_Undefined F com log catch_localy ev :
  EvalCom_try F com ev = Undefined -> EvalCom F com log catch_localy ev = Undefined.
Proof. intros H. unfold EvalCom. now rewrite H. Qed.

Lemma Functions_eq :
  Functions =
  [ mkFuncDef PackTop "^t";
    mkFuncDef PackTopSameLevel "^";
    mkFuncDef UnpackTop "^_t";
    mkFuncDef PackTopX "^tc";
    mkFuncDef EmptyBranch "|Eb";
    mkFuncDef EmptyElement "|Ev";
    mkFuncDef CopyFromIndex "|i";
    mkFuncDef ExtractColumnPack "|id";
    mkFuncDef CopyFromIndex "|[";
    mkFuncDef ExtractColumnPack "|]";
    mkFuncDef ExtractGroupedColumnPack "|]g";
    mkFuncDef Copy "|";
    mkFuncDef Duplicate "|c";
    mkFuncDef Pop "#";
    mkFuncDef DeepRemove "#d";
    mkFuncDef Undot "$";
    mkFuncDef ConcatRow "$^";
    mkFuncDef SplitRow "$_";
    mkFuncDef Reverse "_" ].
Proof. reflexivity. Qed.

Lemma lookup_In com F f :
  lookup com F = Some f -> exists e, In e F /\ Func e = f.
Proof.
  unfold lookup. destruct (List.find _ F) as [e|] eqn:E; [|discriminate].
  intros [= <-]. apply find_some in E. exists e. tauto.
Qed.

(** ** The loops that move or clone a run of nodes *)

Lemma Branch_fill_ok : forall k acc d lg level nx,
    k <= List.length d ->
    Branch_fill k acc (mkEvaluator d lg level nx)
    = Ok (rev (firstn k d) ++ acc) (mkEvaluator (skipn k d) lg level nx).
Proof.
  induction k as [|k IH]; intros acc d lg level nx Hk.
  - reflexivity.
  - destruct d as [|t d]; [simpl in Hk; lia|].
    cbn [Branch_fill]. unfold bind at 1 2. cbn.
    unfold set_Data. cbn. rewrite IH by (simpl in Hk; lia).
    now rewrite <- app_assoc.
Qed.

Lemma Unpack_push_ok : forall bs d lg level nx,
    Unpack_push bs (mkEvaluator d lg level nx)
    = Ok tt (mkEvaluator (rev (fst (Copy_all bs nx)) ++ d) lg level
                         (snd (Copy_all bs nx))).
Proof.
  induction bs as [|i r IH]; intros d lg level nx.
  - reflexivity.
  - cbn [Unpack_push Copy_all]. unfold bind at 1 2, node_Copy, push.
    cbn [heap_next]. destruct (Copy_at i nx) as [i' nx1].
    unfold set_next, set_Data. cbn. rewrite IH.
    destruct (Copy_all r nx1) as [l' nx2]. cbn. now rewrite <- app_assoc.
Qed.

Lemma to_size_small (z : Z) : (0 <= z < SIZE_MOD)%Z -> to_size z = z.
Proof. intros H. unfold to_size. now apply Z.mod_small. Qed.

Lemma RequireTop_1_cons t d lg level nx :
  RequireTop 1 (mkEvaluator (t :: d) lg level nx)
  = Ok tt (mkEvaluator (t :: d) lg level nx).
Proof.
  unfold RequireTop, bind, size, throw_if. cbn [Data List.length].
  rewrite to_size_small by (unfold SIZE_MOD; lia).
  destruct (Z.ltb_spec (Z.of_nat (S (List.length d))) 1); [lia | reflexivity].
Qed.

Lemma RequireTop_1_nil lg level nx :
  RequireTop 1 (mkEvaluator [] lg level nx)
  = Throw (Wraped "Required argument, but not passed" Critical)
          (mkEvaluator [] lg level nx).
Proof. reflexivity. Qed.

(* ================================================================== *)
(** ** The token ["#"] *)

(** C2.  The lambda registered as ["#"] calls [Data.pop()] with no check of
    the stack size: on an empty stack no exception is raised at all, whatever
    [ApprovedLevel] holds, and the behaviour is undefined. *)
Theorem Pop_on_empty_stack_is_undefined :
  forall level lg nx log catch_localy,
    EvalCom Functions "#" log catch_localy (mkEvaluator [] lg level nx)
    = Undefined.
Proof. intros. reflexivity. Qed.

(* ================================================================== *)
(** ** [Require] *)

(** C8.  [Require] never pushes a first cursor: [c_p] is empty when the first
    character is interpreted, so a pattern that starts with [b] reads
    [c_p.top()] of an empty stack.  And the body handles [b] twice for one
    character, once in the [if]/[else if] chain and once in the [switch]:
    from a state with a cursor on the first child, one [b] descends two
    levels. *)
Theorem Require_b_no_cursor_and_runs_twice :
  (forall a bs rest ev, Require (String "b" rest) (Branch a bs) ev = Undefined) /\
  (forall a b c gs bs1 bs2 ev,
      let child := Branch b (Branch c gs :: bs2) in
      let root := Branch a (child :: bs1) in
      Require_body "b" ([root], [0]) ev
      = Ok ([Branch c gs; child; root], [0; 1; 1]) ev).
Proof.
  split.
  - intros a bs rest ev. destruct rest; reflexivity.
  - intros. reflexivity.
Qed.

(* ================================================================== *)
(** ** [EvalComs] *)

(** C9.  The trace loop of [EvalComs] indexes [coms] with [i], the index of
    the failing token, in every round: the logged trace repeats that token
    [i + 1] times and names none of the tokens executed before it.  On the
    batch [hello], [|c] the second token fails (the top is no integer); the
    one message logged does not contain [hello]. *)
Theorem EvalComs_trace_repeats_failing_token :
  forall level, level <> Fatal ->
    let e := Wraped "Not a number passed as an integer" Critical in
    let msg := (caused e "|c" ++ nl ++ "Com trace:"
                ++ tab ++ "|c" ++ nl ++ tab ++ "|c" ++ nl)%string in
    EvalComs Functions ["hello"; "|c"] (new_Evaluator level)
    = Throw e (mkEvaluator [Value 0 "hello"] [msg] level 1)
    /\ String.index 0 "hello" msg = None.
Proof.
  intros level Hl e msg. split.
  - destruct level; try congruence; reflexivity.
  - reflexivity.
Qed.

Lemma EvalComs_trace_repeats_failing_token_witness :
  EvalComs Functions ["hello"; "|c"] (new_Evaluator Critical)
  = Throw (Wraped "Not a number passed as an integer" Critical)
      (mkEvaluator [Value 0 "hello"]
         [(caused (Wraped "Not a number passed as an integer" Critical) "|c"
           ++ nl ++ "Com trace:" ++ tab ++ "|c" ++ nl ++ tab ++ "|c" ++ nl)%string]
         Critical 1).
Proof.
  apply (EvalComs_trace_repeats_failing_token Critical). discriminate.
Defined.

(* ================================================================== *)
(** ** [Duplicate] *)

(** C10.  With the count leaf ["0"] or ["1"] on top, [Duplicate] pops the
    count and its loop body never runs: the stack beneath is left as it was,
    no object is allocated and nothing is logged. *)
Theorem Duplicate_zero_or_one_keeps_one :
  (forall a x rest lg level nx log catch_localy,
      EvalCom Functions "|c" log catch_localy
              (mkEvaluator (Value a "0" :: x :: rest) lg level nx)
      = Ok tt (mkEvaluator (x :: rest) lg level nx)) /\
  (forall a x rest lg level nx log catch_localy,
      EvalCom Functions "|c" log catch_localy
              (mkEvaluator (Value a "1" :: x :: rest) lg level nx)
      = Ok tt (mkEvaluator (x :: rest) lg level nx)).
Proof.
  split; intros; unfold EvalCom, EvalCom_try; cbn [String.length Nat.ltb Nat.leb];
    cbv [Functions LoadDefault lookup]; cbn [fold_left insert existsb List.find
      Name Func String.eqb Ascii.eqb Bool.eqb orb app];
    unfold Duplicate, RequireIntegerTop, bind at 1 2;
    rewrite RequireTop_1_cons; reflexivity.
Qed.

(* ================================================================== *)
(** ** [PackTopX] followed by [UnpackTop] *)

Lemma clamp_int_range v : (INT_MIN <= clamp_int v <= INT_MAX)%Z.
Proof.
  unfold clamp_int, INT_MIN, INT_MAX.
  destruct (Z.ltb_spec v (-2147483648)); [lia|].
  destruct (Z.ltb_spec 2147483647 v); lia.
Qed.

Lemma ReadAs_int_range s c :
  ReadAs_int s = Some c -> (INT_MIN <= c <= INT_MAX)%Z.
Proof.
  unfold ReadAs_int. destruct (skipws s) as [|ch r]; [discriminate|].
  destruct (Ascii.eqb ch "-"); [|destruct (Ascii.eqb ch "+")];
    intros H; injection H as <-; apply clamp_int_range.
Qed.

Lemma PackTopX_ok a txt c data lg level nx :
  ReadAs_int txt = Some c ->
  (0 <= c <= Z.of_nat (List.length data))%Z ->
  PackTopX (mkEvaluator (Value a txt :: data) lg level nx)
  = Ok tt (mkEvaluator (Branch nx (rev (firstn (Z.to_nat c) data))
                          :: skipn (Z.to_nat c) data) lg level (S nx)).
Proof.
  intros Hr Hc. pose proof (ReadAs_int_range _ _ Hr) as Hrange.
  unfold PackTopX, RequireValueTop, ReadAs, new_Branch, bind.
  rewrite RequireTop_1_cons. step. rewrite Hr. step.
  rewrite to_size_small by (unfold SIZE_MOD, INT_MAX in *; lia).
  destruct (Z.ltb_spec (Z.of_nat (List.length data)) c) as [Hlt|_]; [lia|].
  step. destruct (Z.ltb_spec c 0) as [Hlt|_]; [lia|].
  unfold set_next, set_Data. step. rewrite Branch_fill_ok by lia.
  rewrite app_nil_r. reflexivity.
Qed.

Lemma UnpackTop_ok b bs d lg level nx :
  UnpackTop (mkEvaluator (Branch b bs :: d) lg level nx)
  = Ok tt (mkEvaluator
             (map (update b clear) (rev (fst (Copy_all bs nx)) ++ d))
             lg level (snd (Copy_all bs nx))).
Proof.
  unfold UnpackTop, RequireBranchTop, Unpack, bind.
  rewrite RequireTop_1_cons. step.
  unfold set_Data. step. rewrite Unpack_push_ok. reflexivity.
Qed.

(** The round trip for any leaf text that [ReadAs<int>] reads as [c]. *)
Lemma PackTopX_UnpackTop_any_text :
  forall a txt c data lg level nx log catch_localy,
    ReadAs_int txt = Some c ->
    (0 <= c <= Z.of_nat (List.length data))%Z ->
    Forall (fun x => x < nx) (flat_map addrs data) ->
    exists ev1 ev2,
      EvalCom Functions "^tc" log catch_localy
              (mkEvaluator (Value a txt :: data) lg level nx) = Ok tt ev1 /\
      EvalCom Functions "^_t" log catch_localy ev1 = Ok tt ev2 /\
      map value_of (Data ev2) = map value_of data /\
      Log ev2 = lg.
Proof.
  intros a txt c data lg level nx log cl Hr Hc Hfresh.
  eexists. eexists. split; [|split].
  - apply EvalCom_Ok. rewrite (EvalCom_try_registered "^tc" PackTopX eq_refl).
    apply PackTopX_ok; eassumption.
  - apply EvalCom_Ok. rewrite (EvalCom_try_registered "^_t" UnpackTop eq_refl).
    apply UnpackTop_ok.
  - cbn [Data Log]. split; [|reflexivity].
    set (k := Z.to_nat c).
    rewrite map_update_absent.
    + rewrite map_app, map_rev, value_of_Copy_all, map_rev, rev_involutive.
      rewrite <- map_app. now rewrite firstn_skipn.
    + rewrite flat_map_app. intros Hin. apply in_app_or in Hin as [Hin|Hin].
      * apply in_flat_map in Hin as (x & Hx & Hax). apply In_rev in Hx.
        assert (Hin : In nx (flat_map addrs
                       (fst (Copy_all (rev (firstn k data)) (S nx)))))
          by (apply in_flat_map; eauto).
        destruct (addrs_Copy_all (rev (firstn k data)) (S nx)) as [_ E].
        rewrite E in Hin. apply in_seq in Hin. lia.
      * rewrite Forall_forall in Hfresh.
        assert (Hin' : In nx (flat_map addrs data)).
        { rewrite <- (firstn_skipn k data), flat_map_app.
          apply in_or_app. now right. }
        apply Hfresh in Hin'. lia.
Qed.

Lemma read_digits_uint : forall d acc,
    (0 <= acc)%Z ->
    read_digits (DecimalString.NilEmpty.string_of_uint d) acc
    = Z.of_nat (Nat.of_uint_acc d (Z.to_nat acc)).
Proof.
  induction d as [|d IH|d IH|d IH|d IH|d IH|d IH|d IH|d IH|d IH|d IH];
    intros acc Hacc;
    [ cbn; lia
    | cbn [DecimalString.NilEmpty.string_of_uint read_digits Nat.of_uint_acc];
      match goal with |- context [isdigit ?c] => change (isdigit c) with true end;
      cbv iota; rewrite IH by (unfold digit_val; cbn; lia);
      rewrite Nat.tail_mul_spec; do 2 f_equal; unfold digit_val; cbn; lia .. ].
Qed.

Lemma to_uint_head n :
  exists c r, decimal n = String c r /\ isdigit c = true.
Proof.
  unfold decimal.
  assert (H : Nat.to_uint n <> Decimal.Nil).
  { rewrite <- (DecimalNat.Unsigned.of_to n) at 1. rewrite DecimalNat.Unsigned.to_of.
    apply DecimalFacts.unorm_nonnil. }
  destruct (Nat.to_uint n); try congruence; cbn [DecimalString.NilEmpty.string_of_uint];
    eexists; eexists; (split; [reflexivity | reflexivity]).
Qed.

Lemma ReadAs_int_decimal n :
  ReadAs_int (decimal n) = Some (clamp_int (Z.of_nat n)).
Proof.
  destruct (to_uint_head n) as (c & r & E & Hc).
  unfold ReadAs_int. rewrite E. cbn [skipws].
  assert (Hs : isspace c = false /\ Ascii.eqb c "-" = false /\ Ascii.eqb c "+" = false).
  { unfold isdigit, isspace in *. apply andb_prop in Hc as [H1 H2].
    apply Nat.leb_le in H1, H2.
    repeat split.
    - destruct (Nat.eqb_spec (nat_of_ascii c) 32); [lia|].
      destruct (Nat.leb_spec 9 (nat_of_ascii c)), (Nat.leb_spec (nat_of_ascii c) 13);
        cbn; try reflexivity; lia.
    - apply Ascii.eqb_neq. intros ->. cbn in H1. lia.
    - apply Ascii.eqb_neq. intros ->. cbn in H1. lia. }
  destruct Hs as (-> & -> & ->). rewrite <- E. unfold decimal.
  rewrite read_digits_uint by lia. cbn [Z.to_nat].
  f_equal. f_equal. f_equal. apply DecimalNat.Unsigned.of_to.
Qed.

Lemma lookup_digit c r : isdigit c = true -> lookup (String c r) Functions = None.
Proof.
  intros H. rewrite Functions_eq.
  destruct c as [b0 b1 b2 b3 b4 b5 b6 b7].
  destruct b0, b1, b2, b3, b4, b5, b6, b7; try discriminate H; reflexivity.
Qed.

(** C3.  In a state whose allocator has not handed out [nx] or anything above
    it, with at least [c] nodes on the stack: the token that is the decimal
    numeral of [c] (pushed as a leaf), then ["^tc"], then ["^_t"] all return,
    nothing is logged, and the stack that results has the nodes of the stack
    before the numeral was pushed, in the same number and order and with the
    same contents.  (The [c] nodes from the top come back as clones, the
    rest are the objects they were.) *)
Theorem PackTopX_UnpackTop_roundtrip :
  forall c data lg level nx,
    c <= List.length data ->
    Forall (fun x => x < nx) (flat_map addrs data) ->
    exists ev',
      feed Functions [decimal c; "^tc"; "^_t"] (mkEvaluator data lg level nx)
      = Ok tt ev' /\
      map value_of (Data ev') = map value_of data /\
      Log ev' = lg.
Proof.
  intros c data lg level nx Hc Hfresh.
  destruct (to_uint_head c) as (ch & r & E & Hd).
  assert (Hrange : (0 <= clamp_int (Z.of_nat c) <= Z.of_nat (List.length data))%Z).
  { unfold clamp_int, INT_MIN, INT_MAX.
    destruct (Z.ltb_spec (Z.of_nat c) (-2147483648)); [lia|].
    destruct (Z.ltb_spec 2147483647 (Z.of_nat c)); lia. }
  destruct (PackTopX_UnpackTop_any_text nx (decimal c) _ data lg level (S nx)
              true true (ReadAs_int_decimal c) Hrange)
    as (ev1 & ev2 & H1 & H2 & Hv & Hl).
  { eapply Forall_impl; [|exact Hfresh]. cbv beta. lia. }
  exists ev2. split; [|split; assumption].
  cbn [feed]. unfold bind at 1.
  assert (Hpush : EvalCom Functions (decimal c) true true
                          (mkEvaluator data lg level nx)
                  = Ok tt (mkEvaluator (Value nx (decimal c) :: data) lg level
                                       (S nx))).
  { apply EvalCom_Ok. unfold EvalCom_try. rewrite E.
    cbn [String.length Nat.ltb Nat.leb]. now rewrite (lookup_digit ch r Hd). }
  rewrite Hpush. unfold bind at 1. rewrite H1. unfold bind at 1. rewrite H2.
  reflexivity.
Qed.

Lemma PackTopX_UnpackTop_roundtrip_witness :
  exists ev',
    feed Functions [decimal 2; "^tc"; "^_t"]
         (mkEvaluator [Value 2 "z"; Value 1 "y"; Value 0 "x"] [] Warning 3)
    = Ok tt ev' /\
    map value_of (Data ev')
    = map value_of [Value 2 "z"; Value 1 "y"; Value 0 "x"] /\
    Log ev' = [].
Proof.
  apply (PackTopX_UnpackTop_roundtrip 2
           [Value 2 "z"; Value 1 "y"; Value 0 "x"] [] Warning 3).
  - simpl. lia.
  - simpl. repeat constructor.
Defined.

(* ================================================================== *)
(** ** [PackTopSameLevel] *)

Lemma SameLevel_loop_spec d : forall data br,
    exists taken rest,
      SameLevel_loop d data br = (br ++ taken, rest) /\
      data = taken ++ rest /\
      Forall (fun x => Depth x = d) taken /\
      match rest with [] => True | r :: _ => Depth r <> d end.
Proof.
  induction data as [|t data IH]; intros br.
  - exists [], []. simpl. rewrite app_nil_r. auto.
  - simpl. destruct (Nat.eqb_spec (Depth t) d) as [E|E].
    + destruct (IH (br ++ [t])) as (taken & rest & H1 & H2 & H3 & H4).
      exists (t :: taken), rest. rewrite H1, <- app_assoc. simpl.
      repeat split; auto. now rewrite H2.
    + exists [], (t :: data). rewrite app_nil_r. auto.
Qed.

(** C6.  On a stack with top [t], ["^"] allocates one new [Branch], takes
    from the top of the stack the longest run of nodes whose depth is the
    depth of [t] (the run ends at the first node of another depth or at the
    bottom), makes that run, top first, the children of the new branch, and
    pushes the branch on what is left.  After the leaves [x], [y], [z] the
    stack holds one branch with the children [z], [y], [x]. *)
Theorem PackTopSameLevel_collects_top_first :
  (forall t data lg level nx log catch_localy,
      exists taken rest,
        t :: data = taken ++ rest /\
        Forall (fun x => Depth x = Depth t) taken /\
        match rest with [] => True | r :: _ => Depth r <> Depth t end /\
        EvalCom Functions "^" log catch_localy
                (mkEvaluator (t :: data) lg level nx)
        = Ok tt (mkEvaluator (Branch nx taken :: rest) lg level (S nx))) /\
  (forall level,
      feed Functions ["x"; "y"; "z"; "^"] (new_Evaluator level)
      = Ok tt (mkEvaluator [Branch 3 [Value 2 "z"; Value 1 "y"; Value 0 "x"]]
                           [] level 4)).
Proof.
  split.
  - intros t data lg level nx log cl.
    destruct (SameLevel_loop_spec (Depth t) (t :: data) [])
      as (taken & rest & H1 & H2 & H3 & H4).
    exists taken, rest. repeat split; auto.
    apply EvalCom_Ok.
    rewrite (EvalCom_try_registered "^" PackTopSameLevel eq_refl).
    unfold PackTopSameLevel, bind. cbn [alloc top Data set_next heap_next].
    cbn [Data set_Data Log ApprovedLevel heap_next]. rewrite H1. reflexivity.
  - intros level. reflexivity.
Qed.

(* ================================================================== *)
(** ** [SplitRow] followed by [ConcatRow] *)

Lemma append_assoc' (a b c : string) : ((a ++ b) ++ c = a ++ (b ++ c))%string.
Proof. induction a as [|x a IH]; simpl; [reflexivity | now rewrite IH]. Qed.

Lemma length_substring : forall s n m,
    String.length (substring n m s) = Nat.min m (String.length s - n).
Proof.
  induction s as [|c s IH]; intros n m.
  - destruct n, m; simpl; lia.
  - destruct n as [|n].
    + destruct m as [|m]; simpl; [reflexivity|]. rewrite IH. simpl. lia.
    + simpl. apply IH.
Qed.

Lemma substring_split : forall s n a b,
    substring n (a + b) s = (substring n a s ++ substring (n + a) b s)%string.
Proof.
  induction s as [|c s IH]; intros n a b.
  - destruct n, a, b; reflexivity.
  - destruct n as [|n].
    + destruct a as [|a].
      * reflexivity.
      * cbn [Nat.add substring append]. f_equal. apply (IH 0 a b).
    + cbn [Nat.add substring]. apply IH.
Qed.

Lemma substring_all : forall s, substring 0 (String.length s) s = s.
Proof. induction s as [|c s IH]; simpl; [reflexivity | now rewrite IH]. Qed.

Lemma index_ge : forall s2 n s1 m, String.index n s1 s2 = Some m -> n <= m.
Proof.
  induction s2 as [|b s2 IH]; intros n s1 m H.
  - destruct n; simpl in H; [|discriminate]. lia.
  - destruct n as [|n]; [lia|]. simpl in H.
    destruct (String.index n s1 s2) as [k|] eqn:E; [|discriminate].
    injection H as <-. apply IH in E. lia.
Qed.

Lemma index_fits n s1 s2 m :
  String.index n s1 s2 = Some m -> s1 <> EmptyString ->
  m + String.length s1 <= String.length s2.
Proof.
  intros H Hne. apply index_correct1 in H.
  pose proof (length_substring s2 m (String.length s1)) as L. rewrite H in L.
  destruct s1 as [|c s1]; [congruence|]. cbn [String.length] in *. lia.
Qed.

Lemma to_int_small z : (- 2 ^ 31 <= z < 2 ^ 31)%Z -> to_int z = z.
Proof. intros H. unfold to_int. rewrite Z.mod_small; lia. Qed.

Section Split.
Variables value split : string.
Hypothesis split_nonempty : split <> EmptyString.
Hypothesis value_fits : (Z.of_nat (String.length value) <= INT_MAX)%Z.

Local Abbreviation L := (String.length value).
Local Abbreviation k := (String.length split).

Local Ltac fits := let Hfit := fresh in pose proof value_fits as Hfit; unfold SIZE_MOD, npos, SIZE_MOD, INT_MAX in *; lia.

Lemma next_match_spec p :
  p <= L ->
  next_match value split (Z.of_nat p)
  = match String.index p split value with
    | Some m => Z.of_nat m
    | None => Z.of_nat L
    end.
Proof.
  intros Hp. unfold next_match, find.
  rewrite (to_size_small (Z.of_nat p)) by fits.
  rewrite Nat2Z.id.
  destruct (String.index p split value) as [m|] eqn:E.
  - pose proof (index_fits _ _ _ _ E split_nonempty) as Hm.
    rewrite (to_int_small (Z.of_nat m)) by fits.
    rewrite (to_size_small (Z.of_nat m)) by fits.
    destruct (Z.eqb_spec (Z.of_nat m) npos) as [H|_]; [|reflexivity].
    unfold npos in H. fits.
  - change (to_size (to_int npos) =? npos)%Z with true. cbv iota.
    apply to_int_small. fits.
Qed.

Lemma SplitRow_loop_fuel : forall fuel p r d lg level nx,
    p <= L -> L - p < fuel ->
    exists segs,
      segs <> [] /\
      String.concat split segs = substring p (L - p) value /\
      SplitRow_loop fuel value split (Z.of_nat p)
                    (next_match value split (Z.of_nat p)) r
                    (mkEvaluator d lg level nx)
      = Ok (r ++ Values_at nx segs)
           (mkEvaluator d lg level (nx + List.length segs)).
Proof.
  induction fuel as [|fuel IH]; intros p r d lg level nx Hp Hf; [lia|].
  rewrite next_match_spec by exact Hp. cbn [SplitRow_loop].
  destruct (String.index p split value) as [m|] eqn:E.
  - pose proof (index_fits _ _ _ _ E split_nonempty) as Hm.
    pose proof (index_ge _ _ _ _ E) as Hpm.
    assert (Hk : 1 <= k).
    { destruct split; [congruence | simpl; lia]. }
    rewrite (to_size_small (Z.of_nat m)) by fits.
    destruct (Z.eqb_spec (Z.of_nat m) (Z.of_nat L)) as [H|_]; [lia|].
    rewrite (to_size_small (Z.of_nat p)) by fits.
    rewrite (to_size_small (Z.of_nat m - Z.of_nat p)) by fits.
    rewrite (to_size_small (Z.of_nat m + Z.of_nat k)) by fits.
    rewrite to_int_small by fits.
    replace (Z.of_nat m + Z.of_nat k)%Z with (Z.of_nat (m + k)) by lia.
    destruct (IH (m + k) (r ++ [Value nx (substring p (m - p) value)])
                 d lg level (S nx)) as (segs & Hne & Hc & Hrun); [lia | lia |].
    exists (substring p (m - p) value :: segs). split; [discriminate|]. split.
    + cbn [String.concat]. destruct segs as [|s segs]; [congruence|].
      rewrite Hc.
      replace (L - p) with ((m - p) + (k + (L - (m + k)))) by lia.
      rewrite substring_split. f_equal.
      replace (p + (m - p)) with m by lia.
      rewrite substring_split. f_equal.
      symmetry. apply (index_correct1 _ _ _ _ E).
    + unfold bind, substr.
      destruct (Z.ltb_spec (Z.of_nat L) (Z.of_nat p)); [lia|].
      cbn [ret alloc heap_next set_next Data Log ApprovedLevel].
      replace (Z.to_nat (Z.of_nat m - Z.of_nat p)) with (m - p) by lia.
      rewrite Nat2Z.id. unfold set_next. cbn [Data Log ApprovedLevel].
      rewrite Hrun. rewrite <- app_assoc.
      cbn [app Values_at List.length].
      now rewrite Nat.add_succ_r.
  - exists [substring p (L - p) value]. split; [discriminate|].
    split; [reflexivity|].
    rewrite (to_size_small (Z.of_nat L)) by fits.
    rewrite Z.eqb_refl.
    rewrite (to_size_small (Z.of_nat p)) by fits.
    rewrite (to_size_small (Z.of_nat L - Z.of_nat p)) by fits.
    unfold bind, substr.
    destruct (Z.ltb_spec (Z.of_nat L) (Z.of_nat p)); [lia|].
    cbn [ret alloc heap_next set_next Data Log ApprovedLevel].
    replace (Z.to_nat (Z.of_nat L - Z.of_nat p)) with (L - p) by lia.
    rewrite Nat2Z.id. unfold set_next. cbn [Data Log ApprovedLevel].
    cbn [Values_at List.length]. now rewrite Nat.add_1_r.
Qed.
End Split.

Lemma SplitRow_ok a1 a2 split value data lg level nx :
  split <> EmptyString ->
  (Z.of_nat (String.length value) <= INT_MAX)%Z ->
  exists segs,
    String.concat split segs = value /\
    SplitRow (mkEvaluator (Value a1 split :: Value a2 value :: data) lg level nx)
    = Ok tt (mkEvaluator (Branch nx (Values_at (S nx) segs) :: data) lg level
                         (S nx + List.length segs)).
Proof.
  intros Hne Hfit.
  destruct (SplitRow_loop_fuel value split Hne Hfit (S (String.length value)) 0 []
              data lg level (S nx)) as (segs & _ & Hc & Hrun); [lia | lia |].
  exists segs. split.
  - rewrite Hc, Nat.sub_0_r. apply substring_all.
  - unfold SplitRow, RequireValueTop, bind.
    rewrite RequireTop_1_cons. step.
    destruct split as [|c split]; [congruence|]. step.
    cbn [String.length Nat.eqb throw_if ret]. step.
    unfold set_Data. step. rewrite RequireTop_1_cons. step.
    change 0%Z with (Z.of_nat 0). unfold set_next. step.
    rewrite Hrun. reflexivity.
Qed.

Lemma concat_fold space : forall texts s pre,
    (pre ++ String.concat space (s :: texts))%string
    = fold_left (fun acc t => ((acc ++ space) ++ t)%string) texts (pre ++ s)%string.
Proof.
  induction texts as [|t ts IH]; intros s pre.
  - reflexivity.
  - change (String.concat space (s :: t :: ts))
      with (s ++ space ++ String.concat space (t :: ts))%string.
    cbn [fold_left]. rewrite <- IH. now rewrite !append_assoc'.
Qed.

Lemma ConcatRow_loop_Values space : forall texts n str ev,
    ConcatRow_loop space (Values_at n texts) true str ev
    = Ok (fold_left (fun acc t => ((acc ++ space) ++ t)%string) texts str) ev.
Proof.
  induction texts as [|t ts IH]; intros n str ev.
  - reflexivity.
  - cbn [Values_at ConcatRow_loop Depth Nat.eqb]. unfold bind.
    cbn [Stored_of ret]. now rewrite IH.
Qed.

Lemma ConcatRow_ok a b space texts n data lg level nx :
  ConcatRow (mkEvaluator (Value a space :: Branch b (Values_at n texts) :: data)
                         lg level nx)
  = Ok tt (mkEvaluator (Value nx (String.concat space texts) :: data) lg level
                       (S nx)).
Proof.
  unfold ConcatRow, RequireValueTop, RequireBranchTop, bind.
  rewrite RequireTop_1_cons. step. unfold set_Data. step.
  rewrite RequireTop_1_cons. step.
  destruct texts as [|t ts].
  - reflexivity.
  - cbn [Values_at ConcatRow_loop Depth Nat.eqb]. unfold bind.
    cbn [Stored_of ret]. rewrite ConcatRow_loop_Values.
    rewrite <- (concat_fold space ts t ""). reflexivity.
Qed.

(** C4.  For a separator that is not empty and a source text of at most
    [INT_MAX] characters (its length fits the [int] positions of
    [SplitRow]), ["$_"] on the two leaves returns
    and leaves a branch in their place; with a leaf holding the same
    separator pushed on it, ["$^"] returns and leaves in place of the two a
    leaf whose text is the source text.  Nothing is logged.  No condition is
    put on where the separator occurs in the source. *)
Theorem SplitRow_ConcatRow_roundtrip :
  forall a1 a2 a3 split value data lg level nx log catch_localy,
    split <> EmptyString ->
    (Z.of_nat (String.length value) <= INT_MAX)%Z ->
    exists ev1 ev2 a,
      EvalCom Functions "$_" log catch_localy
              (mkEvaluator (Value a1 split :: Value a2 value :: data)
                           lg level nx) = Ok tt ev1 /\
      EvalCom Functions "$^" log catch_localy
              (set_Data (Value a3 split :: Data ev1) ev1) = Ok tt ev2 /\
      Data ev2 = Value a value :: data /\
      Log ev2 = lg.
Proof.
  intros a1 a2 a3 split value data lg level nx log cl Hne Hfit.
  destruct (SplitRow_ok a1 a2 split value data lg level nx Hne Hfit)
    as (segs & Hc & Hrun).
  eexists. eexists. eexists. split; [|split].
  - apply EvalCom_Ok. rewrite (EvalCom_try_registered "$_" SplitRow eq_refl).
    exact Hrun.
  - apply EvalCom_Ok. rewrite (EvalCom_try_registered "$^" ConcatRow eq_refl).
    unfold set_Data. cbn [Data Log ApprovedLevel heap_next].
    apply ConcatRow_ok.
  - cbn [Data Log]. rewrite Hc. split; reflexivity.
Qed.

Lemma SplitRow_ConcatRow_roundtrip_witness :
  exists ev1 ev2 a,
    EvalCom Functions "$_" true true
            (mkEvaluator [Value 1 ","; Value 0 ",a,,b,"] [] Warning 2)
    = Ok tt ev1 /\
    EvalCom Functions "$^" true true
            (set_Data (Value 9 "," :: Data ev1) ev1) = Ok tt ev2 /\
    Data ev2 = [Value a ",a,,b,"] /\
    Log ev2 = [].
Proof.
  apply (SplitRow_ConcatRow_roundtrip 1 0 9 "," ",a,,b," [] [] Warning 2 true true).
  - discriminate.
  - unfold INT_MAX. simpl. lia.
Defined.

(** [find] from a position past the end finds nothing. *)
Lemma index_past_end s1 : forall s2 n,
    String.length s2 < n -> String.index n s1 s2 = None.
Proof.
  induction s2 as [|c s2 IH]; intros [|n] H; cbn in *; try lia.
  - reflexivity.
  - rewrite IH by lia. reflexivity.
Qed.

Lemma to_int_npos : to_int npos = (-1)%Z.
Proof. reflexivity. Qed.

Lemma to_size_m1 : to_size (-1) = npos.
Proof. reflexivity. Qed.

(** A text of [2 ^ 31] characters without the separator: [value.size()]
    stored in the [int] [np] is [- 2 ^ 31], which is not [value.size()], so
    the loop is entered; the next position [p] is negative, and
    [value.substr(p, ...)] of the second round is past the end. *)
Lemma SplitRow_positions_wrap a1 a2 split value data lg level nx :
  split <> EmptyString ->
  (Z.of_nat (String.length split) < 2 ^ 31)%Z ->
  (Z.of_nat (String.length value) = 2 ^ 31)%Z ->
  String.index 0 split value = None ->
  SplitRow (mkEvaluator (Value a1 split :: Value a2 value :: data) lg level nx)
  = Undefined.
Proof.
  intros Hne Hk HL Hno.
  assert (N0 : next_match value split 0 = (- 2 ^ 31)%Z).
  { unfold next_match, find. change (Z.to_nat (to_size 0)) with 0.
    rewrite Hno, to_int_npos, to_size_m1, Z.eqb_refl, HL. reflexivity. }
  assert (S1 : (to_size (- 2 ^ 31) =? Z.of_nat (String.length value))%Z = false).
  { rewrite HL. reflexivity. }
  set (p' := to_int (to_size (to_size (- 2 ^ 31) + Z.of_nat (String.length split)))).
  assert (P' : to_size p' = (2 ^ 64 - 2 ^ 31 + Z.of_nat (String.length split))%Z).
  { unfold p', to_int, to_size, SIZE_MOD.
    change ((- 2 ^ 31) mod 2 ^ 64)%Z with (2 ^ 64 - 2 ^ 31)%Z.
    rewrite (Z.mod_small (2 ^ 64 - 2 ^ 31 + _) (2 ^ 64)) by lia.
    rewrite <- (Z.mod_unique_pos
                  (2 ^ 64 - 2 ^ 31 + Z.of_nat (String.length split) + 2 ^ 31)
                  (2 ^ 32) (2 ^ 32) (Z.of_nat (String.length split))) by lia.
    symmetry.
    apply (Z.mod_unique_pos _ _ (-1)); lia. }
  assert (N1 : next_match value split p' = (- 2 ^ 31)%Z).
  { unfold next_match, find. rewrite P'.
    rewrite index_past_end by lia.
    rewrite to_int_npos, to_size_m1, Z.eqb_refl, HL. reflexivity. }
  assert (LOOP : forall fuel r ev, 2 <= fuel ->
             SplitRow_loop fuel value split 0 (- 2 ^ 31) r ev = Undefined).
  { intros [|[|fuel]] r ev Hf; try lia.
    cbn [SplitRow_loop]. rewrite S1.
    unfold substr at 1. unfold bind.
    change (to_size 0) with 0%Z.
    replace (Z.of_nat (String.length value) <? 0)%Z with false
      by (symmetry; apply Z.ltb_ge; lia).
    unfold ret, alloc. fold p'. rewrite N1, S1.
    unfold substr. rewrite P'.
    replace (Z.of_nat (String.length value) <? _)%Z with true
      by (symmetry; apply Z.ltb_lt; lia).
    reflexivity. }
  unfold SplitRow, RequireValueTop, bind.
  rewrite RequireTop_1_cons. step.
  destruct split as [|c split]; [congruence|]. step.
  cbn [String.length Nat.eqb throw_if ret]. step.
  unfold set_Data. step. rewrite RequireTop_1_cons. step.
  rewrite N0, LOOP by lia. reflexivity.
Qed.

Lemma length_replicate_char c : forall n,
    String.length (replicate n (String c "")) = n.
Proof.
  induction n as [|n IH]; [reflexivity|].
  cbn [replicate append String.length]. now rewrite IH.
Qed.

Lemma index_no_comma : forall m n, String.index n "," (replicate m "a") = None.
Proof.
  induction m as [|m IH]; intros [|n]; try reflexivity.
  - cbn [replicate append String.index prefix]. 
    destruct (ascii_dec "," "a") as [E|_]; [discriminate E|].
    now rewrite IH.
  - cbn [replicate append String.index]. now rewrite IH.
Qed.

Lemma text_of_2_31_length : (Z.of_nat (String.length (replicate (2 ^ 31) "a")) = 2 ^ 31)%Z.
Proof. rewrite length_replicate_char, Nat2Z.inj_pow. reflexivity. Qed.

(** The claim reads "for every source text".  On the text of [2 ^ 31]
    characters ["a"], one more than [INT_MAX], with the separator [","],
    ["$_"] does not return: [substr] throws [std::out_of_range], which no
    handler of the engine catches.  So no round trip is made on it. *)
Lemma SplitRow_ConcatRow_roundtrip_counterexample :
  let value := replicate (2 ^ 31) "a" in
  (Z.of_nat (String.length value) = INT_MAX + 1)%Z /\
  EvalCom Functions "$_" true true
          (mkEvaluator [Value 1 ","; Value 0 value] [] Warning 2) = Undefined /\
  ~ exists ev1 ev2 a,
      EvalCom Functions "$_" true true
              (mkEvaluator [Value 1 ","; Value 0 value] [] Warning 2)
      = Ok tt ev1 /\
      EvalCom Functions "$^" true true
              (set_Data (Value 9 "," :: Data ev1) ev1) = Ok tt ev2 /\
      Data ev2 = [Value a value] /\
      Log ev2 = [].
Proof.
  intros value.
  assert (U : EvalCom Functions "$_" true true
                (mkEvaluator [Value 1 ","; Value 0 value] [] Warning 2)
              = Undefined).
  { apply EvalCom_Undefined.
    rewrite (EvalCom_try_registered "$_" SplitRow eq_refl).
    apply SplitRow_positions_wrap.
    - discriminate.
    - reflexivity.
    - apply text_of_2_31_length.
    - apply index_no_comma. }
  split; [apply text_of_2_31_length|]. split; [exact U|].
  intros (ev1 & ev2 & a & H & _). rewrite U in H. discriminate H.
Qed.

(* ================================================================== *)
(** ** [ExtractColumnPack] *)

Lemma Copy_all_app l1 : forall l2 nx,
    Copy_all (l1 ++ l2) nx
    = (fst (Copy_all l1 nx) ++ fst (Copy_all l2 (snd (Copy_all l1 nx))),
       snd (Copy_all l2 (snd (Copy_all l1 nx)))).
Proof.
  induction l1 as [|b l1 IH]; intros l2 nx.
  - simpl. now destruct (Copy_all l2 nx).
  - simpl. destruct (Copy_at b nx) as [b' n1]. rewrite IH.
    destruct (Copy_all l1 n1) as [c1 n2]. simpl.
    now destruct (Copy_all l2 n2).
Qed.

Lemma flat_map_flat_map {A B C} (f : B -> list C) (g : A -> list B) l :
  flat_map f (flat_map g l) = flat_map (fun x => flat_map f (g x)) l.
Proof.
  induction l as [|x l IH]; simpl; [reflexivity|].
  now rewrite flat_map_app, IH.
Qed.

Section Column.
Variable index : Z.
Hypothesis index_int : (INT_MIN <= index <= INT_MAX)%Z.

Lemma frame_picks_enter k child :
  frame_picks index k (child, 0) = column index k child.
Proof.
  unfold frame_picks, column. destruct child as [a s | a bs]; cbn [fst snd].
  - reflexivity.
  - destruct k as [|k].
    + cbn [rows_at flat_map]. rewrite app_nil_r.
      destruct bs as [|b bs]; [|reflexivity].
      cbn. destruct (0 <=? index)%Z; [|reflexivity].
      now destruct (Z.to_nat index).
    + cbn [rows_at skipn]. rewrite flat_map_flat_map. reflexivity.
Qed.

Lemma column_Value k a s : column index k (Value a s) = [].
Proof. reflexivity. Qed.

Lemma frame_picks_done k a bs c :
  List.length bs <= c -> frame_picks index k (Branch a bs, c) = [].
Proof.
  intros H. unfold frame_picks. cbn [fst snd]. destruct k.
  - destruct (Nat.ltb_spec c (List.length bs)); [lia | reflexivity].
  - now rewrite skipn_all2.
Qed.

(** The test [index < Branches.size()] and the access [Branches[index]]
    pick the child at position [index] when the vector has one. *)
Lemma pick_at_index a bs :
  small (Branch a bs) = true ->
  if (to_size index <? Z.of_nat (List.length bs))%Z
  then exists x, nth_error bs (Z.to_nat (to_size index)) = Some x /\
                 child_at index (Branch a bs) = [x]
  else child_at index (Branch a bs) = [].
Proof.
  intros Hs. cbn [small] in Hs. apply andb_prop in Hs as [Hs _].
  apply Z.leb_le in Hs. unfold INT_MIN, INT_MAX in *.
  unfold child_at. destruct (Z.leb_spec 0 index) as [Hi|Hi].
  - rewrite to_size_small by (unfold SIZE_MOD; lia).
    destruct (Z.ltb_spec index (Z.of_nat (List.length bs))) as [Hlt|Hge].
    + destruct (nth_error bs (Z.to_nat index)) as [x|] eqn:E.
      * exists x. auto.
      * apply nth_error_None in E. lia.
    + destruct (nth_error bs (Z.to_nat index)) as [x|] eqn:E; [|reflexivity].
      assert (Z.to_nat index < List.length bs)
        by (apply nth_error_Some; congruence). lia.
  - assert (E : to_size index = (index + SIZE_MOD)%Z).
    { unfold to_size. symmetry. apply Z.mod_unique_pos with (q := (-1)%Z);
        unfold SIZE_MOD; lia. }
    rewrite E.
    destruct (Z.ltb_spec (index + SIZE_MOD) (Z.of_nat (List.length bs)));
      [unfold SIZE_MOD in *; lia | reflexivity].
Qed.

Variable Dn : nat.
Hypothesis Dn_pos : 1 <= Dn.
Hypothesis Dn_int : (Z.of_nat Dn <= INT_MAX)%Z.

Lemma Column_loop_fuel : forall fuel fs k nb d lg level nx,
    Forall good_frame fs ->
    List.length fs + k = Dn ->
    list_sum (map frame_work fs) < fuel ->
    Column_loop fuel index (Z.of_nat Dn) (map fst fs) (map snd fs) nb
                (mkEvaluator d lg level nx)
    = Ok (nb ++ fst (Copy_all (stack_picks index k fs) nx))
         (mkEvaluator d lg level (snd (Copy_all (stack_picks index k fs) nx))).
Proof.
  induction fuel as [|fuel IH]; intros fs k nb d lg level nx Hfs Hlen Hfuel;
    [lia|].
  destruct fs as [|[b c] fs].
  - cbn. now rewrite app_nil_r.
  - apply Forall_cons_iff in Hfs as [[Hb Hsm] Hfs']. cbn [fst] in Hb, Hsm.
    destruct b as [a s | a bs]; [discriminate Hb|].
    change (frame_work (Branch a bs, c) + list_sum (map frame_work fs) < S fuel)
      in Hfuel.
    unfold frame_work at 1 in Hfuel. cbn [fst snd] in Hfuel.
    cbn [List.length] in Hlen.
    cbn [map fst snd Column_loop]. unfold bind at 1. cbn [Branches_of ret].
    destruct (Nat.leb_spec (List.length bs) c) as [Hc|Hc].
    + rewrite (IH fs (S k)). 2: assumption. 2: lia. 2: lia.
      cbn [stack_picks]. now rewrite frame_picks_done by exact Hc.
    + assert (Hw : list_sum (map work (skipn c bs)) =
                   match nth_error bs c with
                   | Some x => work x + list_sum (map work (skipn (S c) bs))
                   | None => 0
                   end).
      { clear - Hc. revert c Hc. induction bs as [|x bs IHbs]; intros c Hc.
        - simpl in Hc. lia.
        - destruct c as [|c]; [reflexivity|]. cbn [skipn nth_error].
          apply IHbs. simpl in Hc. lia. }
      rewrite to_size_small by (unfold SIZE_MOD, INT_MAX in *; lia).
      cbn [List.length]. rewrite length_map.
      destruct (Z.eqb_spec (Z.of_nat (S (List.length fs))) (Z.of_nat Dn)) as [Hd|Hd].
      * assert (k = 0) by lia. subst k.
        cbn [stack_picks].
        assert (Hfp : frame_picks index 0 (Branch a bs, c)
                      = child_at index (Branch a bs)).
        { unfold frame_picks. cbn [fst snd].
          destruct (Nat.ltb_spec c (List.length bs)); [reflexivity | lia]. }
        rewrite Hfp.
        pose proof (pick_at_index a bs Hsm) as Hp.
        destruct (to_size index <? Z.of_nat (List.length bs))%Z.
        -- destruct Hp as (x & Hx & Hpick). rewrite Hpick.
           unfold bind at 1. unfold at_index. rewrite Hx. cbn [ret].
           unfold bind at 1. unfold node_Copy. cbn [heap_next].
           cbn [app Copy_all].
           destruct (Copy_at x nx) as [x' n1].
           unfold set_next. cbn [Data Log ApprovedLevel].
           rewrite (IH fs 1); [|assumption|lia|lia].
           destruct (Copy_all (stack_picks index 1 fs) n1) as [l' n2].
           cbn [fst snd]. now rewrite <- app_assoc.
        -- rewrite Hp. cbn [app]. apply (IH fs 1); [assumption|lia|lia].
      * destruct k as [|k]; [lia|].
        destruct (nth_error bs c) as [child|] eqn:Ec;
          [|apply nth_error_None in Ec; lia].
        assert (Hchild : small child = true).
        { cbn [small] in Hsm. apply andb_prop in Hsm as [_ Hall].
          rewrite forallb_forall in Hall. apply Hall.
          eapply nth_error_In; eauto. }
        assert (Hskip : skipn c bs = child :: skipn (S c) bs).
        { clear - Ec. revert c Ec. induction bs as [|x bs IHbs]; intros c Ec.
          - destruct c; discriminate.
          - destruct c as [|c]; [now injection Ec as ->|].
            cbn [skipn]. apply IHbs. exact Ec. }
        destruct (is_branch child) eqn:Hbr.
        -- change (child :: Branch a bs :: map fst fs)
             with (map fst ((child, 0) :: (Branch a bs, S c) :: fs)).
           change (0 :: S c :: map snd fs)
             with (map snd ((child, 0) :: (Branch a bs, S c) :: fs)).
           rewrite (IH _ k).
           ++ cbn [stack_picks]. rewrite frame_picks_enter.
              assert (Hfp : frame_picks index (S k) (Branch a bs, c)
                            = column index k child
                                ++ frame_picks index (S k) (Branch a bs, S c)).
              { unfold frame_picks. cbn [fst snd]. now rewrite Hskip. }
              rewrite Hfp. now rewrite <- !app_assoc.
           ++ constructor; [split; assumption|].
              constructor; [split; [reflexivity | assumption]|assumption].
           ++ cbn [List.length]. lia.
           ++ change (frame_work (child, 0) + (frame_work (Branch a bs, S c)
                        + list_sum (map frame_work fs)) < fuel).
              unfold frame_work at 1 2. cbn [fst snd].
              destruct child as [? ? | ca cbs]; [discriminate Hbr|].
              change (skipn 0 cbs) with cbs. cbn [work] in Hw. lia.
        -- change (Branch a bs :: map fst fs)
             with (map fst ((Branch a bs, S c) :: fs)).
           change (S c :: map snd fs)
             with (map snd ((Branch a bs, S c) :: fs)).
           rewrite (IH _ (S k)).
           ++ cbn [stack_picks].
              assert (Hfp : frame_picks index (S k) (Branch a bs, c)
                            = frame_picks index (S k) (Branch a bs, S c)).
              { unfold frame_picks. cbn [fst snd]. rewrite Hskip.
                destruct child as [ca cs | ? ?]; [|discriminate Hbr].
                reflexivity. }
              now rewrite Hfp.
           ++ constructor; [split; [reflexivity | assumption]|assumption].
           ++ cbn [List.length]. lia.
           ++ change (frame_work (Branch a bs, S c)
                      + list_sum (map frame_work fs) < fuel).
              unfold frame_work at 1. cbn [fst snd].
              destruct child as [ca cs | ? ?]; [|discriminate Hbr].
              cbn [work] in Hw. lia.
Qed.
End Column.

Lemma ExtractColumnPack_zero_depth a1 itxt a2 dtxt data lg level nx index depth :
  ReadAs_int itxt = Some index ->
  ReadAs_int dtxt = Some depth ->
  (depth < 1)%Z ->
  ExtractColumnPack (mkEvaluator (Value a1 itxt :: Value a2 dtxt :: data) lg level nx)
  = Throw (Wraped "Cannot extract from zero depth" Critical)
          (mkEvaluator data lg level nx).
Proof.
  intros Hi Hd Hlt.
  unfold ExtractColumnPack, RequireValueTop, ReadAs, bind.
  rewrite RequireTop_1_cons. step. rewrite Hi. step.
  unfold set_Data. step. rewrite RequireTop_1_cons. step. rewrite Hd. step.
  destruct (Z.ltb_spec depth 1) as [_|?]; [reflexivity | lia].
Qed.

Lemma ExtractColumnPack_ok a1 itxt a2 dtxt r bs data lg level nx index depth :
  ReadAs_int itxt = Some index ->
  ReadAs_int dtxt = Some depth ->
  (1 <= depth)%Z ->
  small (Branch r bs) = true ->
  let picks := column index (Z.to_nat depth - 1) (Branch r bs) in
  ExtractColumnPack
    (mkEvaluator (Value a1 itxt :: Value a2 dtxt :: Branch r bs :: data)
                 lg level nx)
  = Ok tt (mkEvaluator
             (Branch nx (fst (Copy_all picks (S nx))) :: Branch r bs :: data)
             lg level (snd (Copy_all picks (S nx)))).
Proof.
  intros Hi Hd Hge Hsm picks.
  pose proof (ReadAs_int_range _ _ Hi) as Hir.
  pose proof (ReadAs_int_range _ _ Hd) as Hdr.
  unfold ExtractColumnPack, RequireValueTop, RequireBranchTop, ReadAs, bind.
  rewrite RequireTop_1_cons. step. rewrite Hi. step.
  unfold set_Data. step. rewrite RequireTop_1_cons. step. rewrite Hd. step.
  destruct (Z.ltb_spec depth 1) as [?|_]; [lia|]. step.
  unfold set_Data. step.
  rewrite RequireTop_1_cons. step. unfold set_next. step.
  replace depth with (Z.of_nat (Z.to_nat depth)) at 1 by lia.
  change [Branch r bs] with (map fst [(Branch r bs, 0)]).
  change [0] with (map snd [(Branch r bs, 0)]).
  assert (Hdn : (Z.of_nat (Z.to_nat depth) <= INT_MAX)%Z) by lia.
  assert (Hgood : Forall good_frame [(Branch r bs, 0)]).
  { constructor; [split; [reflexivity | exact Hsm] | constructor]. }
  assert (Hpos : 1 <= Z.to_nat depth) by lia.
  rewrite (Column_loop_fuel index Hir (Z.to_nat depth) Hpos Hdn (work (Branch r bs))
             [(Branch r bs, 0)] (Z.to_nat depth - 1) [] _ lg level (S nx) Hgood).
  - cbn [stack_picks]. rewrite app_nil_r, frame_picks_enter. reflexivity.
  - cbn [List.length]. lia.
  - change (frame_work (Branch r bs, 0) + 0 < work (Branch r bs)).
    unfold frame_work. cbn [fst snd skipn work]. lia.
Qed.

(** C7, as the code has it.  The stack holds, from the top, a leaf read as
    [index], a leaf read as [depth] and a node [root].  With [depth < 1] the
    operation raises its error after popping the two leaves.  With
    [1 <= depth] and [root] a branch (whose vectors an [int] counter can
    walk), the operation returns; [root] stays on the stack and a new branch
    is pushed on it whose children are clones, made one after the other at
    fresh addresses, of the children at position [index] of the branches at
    nesting distance [depth - 1] from [root], in depth-first order: the
    levels count from 1 at [root] itself.  A branch of that level without a
    child at [index] contributes nothing. *)
Theorem ExtractColumnPack_rows_at_level :
  forall a1 itxt a2 dtxt root data lg level nx index depth log catch_localy,
    ReadAs_int itxt = Some index ->
    ReadAs_int dtxt = Some depth ->
    let ev := mkEvaluator (Value a1 itxt :: Value a2 dtxt :: root :: data)
                          lg level nx in
    ((depth < 1)%Z ->
     EvalCom_try Functions "|]" ev
     = Throw (Wraped "Cannot extract from zero depth" Critical)
             (mkEvaluator (root :: data) lg level nx)) /\
    ((1 <= depth)%Z -> is_branch root = true -> small root = true ->
     exists kids nx',
       EvalCom Functions "|]" log catch_localy ev
       = Ok tt (mkEvaluator (Branch nx kids :: root :: data) lg level nx') /\
       map value_of kids
       = map value_of (column index (Z.to_nat depth - 1) root) /\
       flat_map addrs kids = seq (S nx) (nx' - S nx)).
Proof.
  intros a1 itxt a2 dtxt root data lg level nx index depth log cl Hi Hd ev.
  split.
  - intros Hlt. rewrite (EvalCom_try_registered "|]" ExtractColumnPack eq_refl).
    now apply (ExtractColumnPack_zero_depth a1 itxt a2 dtxt (root :: data)
                 lg level nx index depth).
  - intros Hge Hbr Hsm. destruct root as [r s | r bs]; [discriminate Hbr|].
    eexists. eexists. split; [|split].
    + apply EvalCom_Ok.
      rewrite (EvalCom_try_registered "|]" ExtractColumnPack eq_refl).
      now apply (ExtractColumnPack_ok a1 itxt a2 dtxt r bs data lg level nx
                   index depth).
    + apply value_of_Copy_all.
    + apply addrs_Copy_all.
Qed.

Lemma ExtractColumnPack_rows_at_level_witness :
  let root := Branch 6 [Branch 2 [Value 0 "a"; Value 1 "b"];
                        Branch 5 [Value 3 "c"; Value 4 "d"]] in
  exists kids nx',
    EvalCom Functions "|]" true true
            (mkEvaluator [Value 8 "0"; Value 7 "2"; root] [] Warning 9)
    = Ok tt (mkEvaluator [Branch 9 kids; root] [] Warning nx') /\
    map value_of kids = map value_of (column 0 (Z.to_nat 2 - 1) root) /\
    flat_map addrs kids = seq 10 (nx' - 10).
Proof.
  intros root.
  apply (proj2 (ExtractColumnPack_rows_at_level 8 "0" 7 "2" root [] [] Warning 9
                  0%Z 2%Z true true eq_refl eq_refl));
    [lia | reflexivity | reflexivity].
Defined.

(** The claim reads the target depth as a nesting distance from the root.
    On a root with the two rows [a b] and [c d], column 0 at depth 1 is, on
    that reading, [a c] (the rows are at distance 1).  The operation returns
    one clone of the first row instead: depth 1 is the root itself. *)
Lemma ExtractColumnPack_distance_counterexample :
  let root := Branch 6 [Branch 2 [Value 0 "a"; Value 1 "b"];
                        Branch 5 [Value 3 "c"; Value 4 "d"]] in
  map value_of (column 0 1 root) = [Leaf "a"; Leaf "c"] /\
  exists kids nx',
    EvalCom Functions "|]" true true
            (mkEvaluator [Value 8 "0"; Value 7 "1"; root] [] Warning 9)
    = Ok tt (mkEvaluator [Branch 9 kids; root] [] Warning nx') /\
    map value_of kids = [Node [Leaf "a"; Leaf "b"]] /\
    map value_of kids <> map value_of (column 0 1 root).
Proof.
  intros root. split; [reflexivity|].
  eexists. eexists. split; [reflexivity|]. split; [reflexivity|].
  discriminate.
Qed.

(* ================================================================== *)
(** ** No two stack slots share an object *)

Lemma occ_app l1 l2 x : occ (l1 ++ l2) x = occ l1 x + occ l2 x.
Proof. apply count_occ_app. Qed.

Lemma occ_cons a l x : occ (a :: l) x = (if Nat.eq_dec a x then 1 else 0) + occ l x.
Proof. unfold occ. simpl. destruct (Nat.eq_dec a x); reflexivity. Qed.

Lemma occ_nil x : occ [] x = 0.
Proof. reflexivity. Qed.

Lemma footprint_app l1 l2 : footprint (l1 ++ l2) = footprint l1 ++ footprint l2.
Proof. apply flat_map_app. Qed.

Lemma footprint_cons t l : footprint (t :: l) = addrs t ++ footprint l.
Proof. reflexivity. Qed.

Lemma occ_footprint_rev l x : occ (footprint (rev l)) x = occ (footprint l) x.
Proof.
  induction l as [|t l IH]; [reflexivity|].
  cbn [rev]. rewrite footprint_app, !footprint_cons, !occ_app, IH.
  change (footprint []) with (@nil addr). rewrite occ_nil. lia.
Qed.

Lemma occ_seq s n x : occ (seq s n) x = if (s <=? x) && (x <? s + n) then 1 else 0.
Proof.
  revert s. induction n as [|n IH]; intros s.
  - cbn [seq]. rewrite occ_nil.
    destruct (Nat.leb_spec s x), (Nat.ltb_spec x (s + 0)); simpl; lia.
  - cbn [seq]. rewrite occ_cons, IH.
    destruct (Nat.eq_dec s x), (Nat.leb_spec s x), (Nat.ltb_spec x (s + S n)),
      (Nat.leb_spec (S s) x), (Nat.ltb_spec x (S s + n)); simpl; lia.
Qed.

Lemma occ_Branch a bs x :
  occ (addrs (Branch a bs)) x = (if Nat.eq_dec a x then 1 else 0) + occ (footprint bs) x.
Proof. cbn [addrs]. apply occ_cons. Qed.

(** *** Rules for triples *)
Lemma hoare_bind {A B} P (m : M A) Q (k : A -> M B) R E :
  hoare P m Q E -> (forall a, hoare (Q a) (k a) R E) -> hoare P (bind m k) R E.
Proof.
  intros Hm Hk ev HP. unfold bind. specialize (Hm ev HP).
  destruct (m ev) as [a ev'|e ev'|]; [|exact Hm|exact I].
  apply (Hk a ev' Hm).
Qed.

Lemma hoare_weaken {A} (P P' : Evaluator -> Prop) (m : M A) (Q Q' : A -> Evaluator -> Prop) (E E' : Evaluator -> Prop) :
  hoare P m Q E ->
  (forall ev, P' ev -> P ev) -> (forall a ev, Q a ev -> Q' a ev) ->
  (forall ev, E ev -> E' ev) -> hoare P' m Q' E'.
Proof.
  intros H HP HQ HE ev Hev. specialize (H ev (HP ev Hev)).
  destruct (m ev); auto.
Qed.

Lemma hoare_pre {A} (P P' : Evaluator -> Prop) (m : M A) Q E :
  hoare P m Q E -> (forall ev, P' ev -> P ev) -> hoare P' m Q E.
Proof. intros H HP. eapply hoare_weaken; eauto. Qed.

Lemma hoare_post {A} (P : Evaluator -> Prop) (m : M A) (Q Q' : A -> Evaluator -> Prop) E :
  hoare P m Q E -> (forall a ev, Q a ev -> Q' a ev) -> hoare P m Q' E.
Proof. intros H HQ. eapply hoare_weaken; eauto. Qed.

Lemma hoare_ret {A} (P : Evaluator -> Prop) (a : A) E :
  hoare P (ret a) (fun a' ev => a' = a /\ P ev) E.
Proof. intros ev HP. cbn. auto. Qed.

Lemma hoare_pure {A} (P : Evaluator -> Prop) (m : M A) E :
  pure m -> (forall ev, P ev -> E ev) -> hoare P m (fun _ ev => P ev) E.
Proof.
  intros Hm HE ev HP. specialize (Hm ev).
  destruct (m ev); subst; auto.
Qed.

Lemma pure_ret {A} (a : A) : pure (ret a).
Proof. intros ev. reflexivity. Qed.

Lemma pure_undefined {A} : pure (@undefined A).
Proof. intros ev. exact I. Qed.

Lemma pure_ThrowWraped {A} msg level : pure (@ThrowWraped A msg level).
Proof. intros ev. reflexivity. Qed.

Lemma pure_bind {A B} (m : M A) (k : A -> M B) :
  pure m -> (forall a, pure (k a)) -> pure (bind m k).
Proof.
  intros Hm Hk ev. unfold bind. specialize (Hm ev).
  destruct (m ev) as [a ev'|e ev'|]; subst; auto. apply Hk.
Qed.

Lemma pure_throw_if c msg level : pure (throw_if c msg level).
Proof. destruct c; [apply pure_ThrowWraped | apply pure_ret]. Qed.

Lemma pure_size : pure size.
Proof. intros ev. reflexivity. Qed.

Lemma pure_top : pure top.
Proof. intros ev. unfold top. now destruct (Data ev). Qed.

Lemma pure_Stored_of x : pure (Stored_of x).
Proof. destruct x; [apply pure_ret | apply pure_undefined]. Qed.

Lemma pure_Branches_of x : pure (Branches_of x).
Proof. destruct x; [apply pure_undefined | apply pure_ret]. Qed.

Lemma pure_ReadAs x : pure (ReadAs x).
Proof.
  apply pure_bind; [apply pure_Stored_of|]. intros s.
  destruct (ReadAs_int s); [apply pure_ret | apply pure_undefined].
Qed.

Lemma pure_at_index v i : pure (at_index v i).
Proof.
  unfold at_index. destruct (nth_error _ _); [apply pure_ret | apply pure_undefined].
Qed.

Create HintDb pure discriminated.
#[local] Hint Resolve pure_ret pure_undefined pure_ThrowWraped pure_throw_if
  pure_size pure_top pure_Stored_of pure_Branches_of pure_ReadAs pure_at_index
  : pure.

(** Splits a straight-line computation into its steps and closes the steps
    that do not change the state. *)
Ltac pure_steps :=
  repeat first [ solve [auto with pure]
               | apply pure_bind; [|intros ?] ].

Lemma pure_RequireValue br : pure (RequireValue br).
Proof. apply pure_throw_if. Qed.

Lemma pure_RequireBranch br : pure (RequireBranch br).
Proof. apply pure_throw_if. Qed.

Lemma pure_RequireDigits s : pure (RequireDigits s).
Proof.
  induction s as [|c s IH]; [apply pure_ret|].
  cbn [RequireDigits]. apply pure_bind; [apply pure_throw_if | intros _; exact IH].
Qed.

#[local] Hint Resolve pure_RequireValue pure_RequireBranch pure_RequireDigits : pure.

Lemma pure_RequireInteger br : pure (RequireInteger br).
Proof. unfold RequireInteger. pure_steps. Qed.

Lemma pure_RequireTop sz : pure (RequireTop sz).
Proof. unfold RequireTop. pure_steps. Qed.

#[local] Hint Resolve pure_RequireInteger pure_RequireTop : pure.

Lemma pure_RequireValueTop : pure RequireValueTop.
Proof. unfold RequireValueTop. pure_steps. Qed.

Lemma pure_RequireIntegerTop : pure RequireIntegerTop.
Proof. unfold RequireIntegerTop. pure_steps. Qed.

Lemma pure_RequireBranchTop : pure RequireBranchTop.
Proof. unfold RequireBranchTop. pure_steps. Qed.

Lemma pure_substr v p c : pure (substr v p c).
Proof. unfold substr. destruct (_ <? _)%Z; auto with pure. Qed.

Lemma pure_ConcatRow_loop space : forall bs f str, pure (ConcatRow_loop space bs f str).
Proof.
  induction bs as [|i r IH]; intros f str; [apply pure_ret|].
  cbn [ConcatRow_loop]. destruct (Depth i =? 0); [|apply IH].
  apply pure_bind; [apply pure_Stored_of | intros s; apply IH].
Qed.

#[local] Hint Resolve pure_RequireValueTop pure_RequireIntegerTop
  pure_RequireBranchTop pure_substr pure_ConcatRow_loop : pure.

(** *** Ownership through the primitive steps *)
Lemma owns_step la ev la' ev' :
  owns la ev ->
  heap_next ev <= heap_next ev' ->
  (forall x, occ la' x + occ (footprint (Data ev')) x
             <= occ la x + occ (footprint (Data ev)) x
                + (if (heap_next ev <=? x) && (x <? heap_next ev') then 1 else 0)) ->
  owns la' ev'.
Proof.
  intros H Hn Hocc x. specialize (H x). specialize (Hocc x).
  destruct H as [H1 H2].
  destruct (Nat.leb_spec (heap_next ev) x), (Nat.ltb_spec x (heap_next ev'));
    cbn [andb] in Hocc; split; lia.
Qed.

Lemma owns_sub la la' ev :
  owns la ev -> (forall x, occ la' x <= occ la x) -> owns la' ev.
Proof.
  intros H Hs. apply (owns_step la ev); [exact H | lia |].
  intros x. specialize (Hs x). lia.
Qed.

Lemma owns_inv la ev : owns la ev -> inv ev.
Proof. intros H. apply (owns_sub la); [exact H|]. intros x. rewrite occ_nil. lia. Qed.

Lemma hoare_pop_drop la E : hoare (owns la) pop (fun _ => owns la) E.
Proof.
  intros ev H. unfold pop. destruct (Data ev) as [|t d] eqn:Ed; [exact I|].
  apply (owns_step la ev); [exact H | cbn; lia |].
  intros x. cbn [set_Data Data]. rewrite Ed, footprint_cons, occ_app. lia.
Qed.

Lemma hoare_take {A} la (k : BranchBase -> M A) Q E :
  (forall t, hoare (owns (addrs t ++ la)) (k t) Q E) ->
  hoare (owns la) (t <- top ;; pop ;; k t) Q E.
Proof.
  intros Hk ev H. unfold bind, top, pop.
  destruct (Data ev) as [|t d] eqn:Ed; [exact I|]. rewrite Ed.
  apply Hk. apply (owns_step la ev); [exact H | cbn; lia |].
  intros x. cbn [set_Data Data]. rewrite Ed, footprint_cons, !occ_app. lia.
Qed.

Lemma hoare_push x la E :
  hoare (owns (addrs x ++ la)) (push x) (fun _ => owns la) E.
Proof.
  intros ev H. unfold push.
  apply (owns_step _ ev _ _ H); [cbn; lia|].
  intros y. cbn [set_Data Data]. rewrite footprint_cons, !occ_app. lia.
Qed.

Lemma hoare_alloc la E : hoare (owns la) alloc (fun a => owns (a :: la)) E.
Proof.
  intros ev H. unfold alloc.
  apply (owns_step _ ev _ _ H); [cbn; lia|].
  intros x. cbn [set_next Data heap_next]. rewrite occ_cons.
  destruct (Nat.eq_dec (heap_next ev) x),
    (Nat.leb_spec (heap_next ev) x), (Nat.ltb_spec x (S (heap_next ev)));
    cbn [andb]; lia.
Qed.

Lemma hoare_copy x la E :
  hoare (owns la) (node_Copy x) (fun x' => owns (addrs x' ++ la)) E.
Proof.
  intros ev H. unfold node_Copy.
  pose proof (addrs_Copy_at x (heap_next ev)) as [Hle Ha].
  destruct (Copy_at x (heap_next ev)) as [x' nx]. cbn [fst snd] in *.
  apply (owns_step _ ev _ _ H); [cbn; lia|].
  intros y. cbn [set_next Data heap_next]. rewrite occ_app, Ha, occ_seq.
  replace (heap_next ev + (nx - heap_next ev)) with nx by lia. lia.
Qed.

Lemma occ_footprint_le (g : BranchBase -> BranchBase) l x :
  Forall (fun n => occ (addrs (g n)) x <= occ (addrs n) x) l ->
  occ (footprint (map g l)) x <= occ (footprint l) x.
Proof.
  induction 1 as [|n l Hn _ IH]; [reflexivity|].
  cbn [map]. rewrite !footprint_cons, !occ_app. lia.
Qed.

Lemma update_shrinks a f :
  shrinking f -> forall n x, occ (addrs (update a f n)) x <= occ (addrs n) x.
Proof.
  intros Hf n x. induction n as [b s | b bs IH] using BranchBase_rect'.
  - cbn [update addr_of]. destruct (b =? a); [apply Hf | lia].
  - cbn [update addr_of]. destruct (b =? a); [apply Hf|].
    rewrite !occ_Branch. pose proof (occ_footprint_le (update a f) bs x IH).
    unfold footprint in *. lia.
Qed.

Lemma hoare_write a f la E :
  shrinking f -> hoare (owns la) (write a f) (fun _ => owns la) E.
Proof.
  intros Hf ev H. unfold write.
  apply (owns_step _ ev _ _ H); [cbn; lia|].
  intros x. cbn [set_Data Data].
  assert (occ (footprint (map (update a f) (Data ev))) x
          <= occ (footprint (Data ev)) x).
  { apply occ_footprint_le. apply Forall_forall. intros n _.
    now apply update_shrinks. }
  lia.
Qed.

Lemma shrinking_clear : shrinking clear.
Proof.
  intros [a s | a bs] x; cbn [clear]; [lia|].
  rewrite !occ_Branch. change (footprint []) with (@nil addr). rewrite occ_nil. lia.
Qed.

Lemma shrinking_undot : shrinking undot.
Proof.
  intros [a [|c r] | a bs] x; cbn [undot]; try lia.
  destruct (Ascii.eqb c "."); cbn [addrs]; lia.
Qed.

Lemma shrinking_reverse : shrinking reverse.
Proof.
  intros [a s | a bs] x; cbn [reverse]; [cbn [addrs]; lia|].
  rewrite !occ_Branch, occ_footprint_rev. lia.
Qed.

Lemma hoare_ret' {A} (P : Evaluator -> Prop) (a : A) (Q : A -> Evaluator -> Prop) E :
  (forall ev, P ev -> Q a ev) -> hoare P (ret a) Q E.
Proof. intros H ev HP. cbn. auto. Qed.

Lemma hoare_undefined {A} (P : Evaluator -> Prop) (Q : A -> Evaluator -> Prop) E :
  hoare P undefined Q E.
Proof. intros ev _. exact I. Qed.

(** Counting goals between two groupings of the same objects. *)
Ltac occ_solve :=
  intros;
  repeat first [ rewrite footprint_app | rewrite footprint_cons
               | rewrite occ_app | rewrite occ_Branch | rewrite occ_cons
               | rewrite occ_footprint_rev ];
  change (footprint []) with (@nil addr); rewrite ?occ_nil;
  cbn [addrs]; rewrite ?occ_cons, ?occ_nil;
  repeat match goal with |- context [Nat.eq_dec ?a ?b] => destruct (Nat.eq_dec a b) end;
  lia.

(** A step that does not change the state, inside a triple on [owns]. *)
Ltac hpure :=
  eapply hoare_bind;
  [ apply hoare_pure; [solve [pure_steps] | intros ? ?; eapply owns_inv; eassumption]
  | cbv beta; intros ? ].

(** One step with a rule of its own. *)
Tactic Notation "hstep" uconstr(rule) :=
  eapply hoare_bind; [cbv beta; apply rule | cbv beta; intros ?].

Tactic Notation "hstep" uconstr(rule) "as" ident(x) :=
  eapply hoare_bind; [cbv beta; apply rule | cbv beta; intros x].

Lemma hoare_regroup {A} la la' (m : M A) Q E :
  hoare (owns la) m Q E -> (forall x, occ la x <= occ la' x) ->
  hoare (owns la') m Q E.
Proof. intros H Hs. eapply hoare_pre; [exact H|]. intros ev Ho. eapply owns_sub; eauto. Qed.

Lemma hoare_Branch_fill : forall k acc la,
    hoare (owns (footprint acc ++ la)) (Branch_fill k acc)
          (fun bs => owns (footprint bs ++ la)) inv.
Proof.
  induction k as [|k IH]; intros acc la.
  - apply hoare_ret'. auto.
  - cbn [Branch_fill]. apply hoare_take. intros t.
    eapply hoare_regroup; [apply (IH (t :: acc) la)|]. occ_solve.
Qed.

Lemma hoare_new_Branch taken la :
  hoare (owns la) (new_Branch taken) (fun br => owns (addrs br ++ la)) inv.
Proof.
  unfold new_Branch. hstep hoare_alloc as a.
  destruct (taken <? 0)%Z; [apply hoare_undefined|].
  eapply hoare_bind.
  - eapply hoare_regroup; [apply (hoare_Branch_fill _ [] (a :: la))|]. occ_solve.
  - intros bs. apply hoare_ret'. intros ev H. eapply owns_sub; [exact H|]. occ_solve.
Qed.

Lemma hoare_Unpack_push : forall bs la,
    hoare (owns la) (Unpack_push bs) (fun _ => owns la) inv.
Proof.
  induction bs as [|i r IH]; intros la.
  - apply hoare_ret'. auto.
  - cbn [Unpack_push]. hstep hoare_copy.
    hstep hoare_push. apply IH.
Qed.

Lemma hoare_Duplicate_loop : forall n la,
    hoare (owns la) (Duplicate_loop n) (fun _ => owns la) inv.
Proof.
  induction n as [|n IH]; intros la.
  - apply hoare_ret'. auto.
  - cbn [Duplicate_loop]. hpure.
    hstep hoare_copy.
    hstep hoare_push. apply IH.
Qed.

Lemma hoare_DeepRemove_save : forall n tmp la,
    hoare (owns (footprint tmp ++ la)) (DeepRemove_save n tmp)
          (fun tmp' => owns (footprint tmp' ++ la)) inv.
Proof.
  induction n as [|n IH]; intros tmp la.
  - apply hoare_ret'. auto.
  - cbn [DeepRemove_save]. apply hoare_take. intros t.
    eapply hoare_regroup; [apply (IH (t :: tmp) la)|]. occ_solve.
Qed.

Lemma hoare_DeepRemove_restore : forall n tmp la,
    hoare (owns (footprint tmp ++ la)) (DeepRemove_restore n tmp)
          (fun _ => owns la) inv.
Proof.
  induction n as [|n IH]; intros tmp la.
  - apply hoare_ret'. intros ev H. eapply owns_sub; [exact H|]. occ_solve.
  - cbn [DeepRemove_restore]. destruct tmp as [|t tmp]; [apply hoare_undefined|].
    eapply hoare_bind.
    + eapply hoare_regroup; [apply (hoare_push t (footprint tmp ++ la))|]. occ_solve.
    + cbv beta. intros ?. apply IH.
Qed.

Lemma hoare_SplitRow_loop value split : forall fuel p np r la,
    hoare (owns (footprint r ++ la)) (SplitRow_loop fuel value split p np r)
          (fun bs => owns (footprint bs ++ la)) inv.
Proof.
  induction fuel as [|fuel IH]; intros p np r la; [apply hoare_undefined|].
  cbn [SplitRow_loop]. destruct (_ =? _)%Z.
  - hpure. hstep hoare_alloc.
    apply hoare_ret'. intros ev H. eapply owns_sub; [exact H|]. occ_solve.
  - hpure. hstep hoare_alloc.
    eapply hoare_regroup; [apply IH|]. occ_solve.
Qed.

Lemma hoare_Column_loop index depth : forall fuel br cp nb la,
    hoare (owns (footprint nb ++ la)) (Column_loop fuel index depth br cp nb)
          (fun nb' => owns (footprint nb' ++ la)) inv.
Proof.
  induction fuel as [|fuel IH]; intros br cp nb la; [apply hoare_undefined|].
  cbn [Column_loop]. destruct br as [|b br]; [apply hoare_ret'; auto|].
  destruct cp as [|c cp]; [apply hoare_undefined|].
  hpure. destruct (_ <=? _); [apply IH|].
  destruct (_ =? _)%Z.
  - destruct (_ <? _)%Z; [|apply IH].
    hpure. eapply hoare_bind; [apply hoare_copy|]. intros x'.
    eapply hoare_regroup; [apply IH|]. occ_solve.
  - destruct (nth_error _ _) as [child|]; [|apply hoare_undefined].
    destruct (is_branch child); apply IH.
Qed.

Lemma occ_update_push_back o x : forall n y,
    occ (addrs (update o (push_back x) n)) y
    <= occ (addrs n) y + occ (addrs n) o * occ (addrs x) y.
Proof.
  intros n y. induction n as [b s | b bs IH] using BranchBase_rect'.
  - cbn [update addr_of]. destruct (b =? o); cbn [push_back]; lia.
  - cbn [update addr_of]. destruct (Nat.eqb_spec b o) as [->|Hne].
    + cbn [push_back]. rewrite !occ_Branch.
      change (flat_map addrs) with footprint.
      rewrite footprint_app, footprint_cons, !occ_app.
      change (footprint []) with (@nil addr). rewrite occ_nil.
      destruct (Nat.eq_dec o o); [|congruence]. nia.
    + rewrite !occ_Branch.
      assert (H : occ (footprint (map (update o (push_back x)) bs)) y
                  <= occ (footprint bs) y + occ (footprint bs) o * occ (addrs x) y).
      { induction IH as [|n l Hn _ IHl]; [cbn; lia|].
        cbn [map]. rewrite !footprint_cons, !occ_app. nia. }
      nia.
Qed.

Lemma owns_push_back o x n la ev :
  owns (addrs x ++ addrs n ++ la) ev ->
  owns (addrs (update o (push_back x) n) ++ la) ev.
Proof.
  intros H. pose proof (proj1 (H o)) as Ho. rewrite !occ_app in Ho.
  eapply owns_sub; [exact H|]. intros y. rewrite !occ_app.
  pose proof (occ_update_push_back o x n y). nia.
Qed.

Lemma hoare_Grouped_loop index depth : forall fuel br cp nbr nbranch la,
    hoare (owns (addrs nbranch ++ la))
          (Grouped_loop fuel index depth br cp nbr nbranch)
          (fun n => owns (addrs n ++ la)) inv.
Proof.
  induction fuel as [|fuel IH]; intros br cp nbr nbranch la;
    [apply hoare_undefined|].
  cbn [Grouped_loop]. destruct br as [|b br]; [apply hoare_ret'; auto|].
  destruct cp as [|c cp]; [apply hoare_undefined|].
  destruct nbr as [|o nbr]; [apply hoare_undefined|].
  hpure. destruct (_ <=? _); [apply IH|].
  destruct (_ =? _)%Z.
  - destruct (_ <? _)%Z; [|apply IH].
    hpure. hstep hoare_copy.
    eapply hoare_pre; [apply IH|]. intros ev H. now apply owns_push_back.
  - destruct (nth_error _ _) as [child|]; [|apply hoare_undefined].
    destruct (is_branch child); [|apply IH].
    hstep hoare_alloc.
    eapply hoare_pre; [apply IH|]. intros ev H.
    apply owns_push_back. eapply owns_sub; [exact H|]. occ_solve.
Qed.

(** *** Every operation keeps the invariant *)
Lemma hoare_PackTop : hoare inv PackTop (fun _ => inv) inv.
Proof.
  unfold PackTop, inv. hpure. hpure.
  hstep hoare_new_Branch.
  eapply hoare_regroup; [apply (hoare_push _ [])|]. occ_solve.
Qed.

Lemma hoare_UnpackTop : hoare inv UnpackTop (fun _ => inv) inv.
Proof.
  unfold UnpackTop, inv. hpure. hpure. hstep hoare_pop_drop.
  unfold Unpack. hpure. hstep hoare_Unpack_push.
  apply hoare_write, shrinking_clear.
Qed.

Lemma hoare_PackTopSameLevel : hoare inv PackTopSameLevel (fun _ => inv) inv.
Proof.
  unfold PackTopSameLevel, inv. hstep hoare_alloc.
  eapply hoare_bind;
    [apply hoare_pure; [pure_steps | intros ? ?; eapply owns_inv; eassumption]|].
  cbv beta. intros t ev H. cbv zeta.
  destruct (SameLevel_loop_spec (Depth t) (Data ev) [])
    as (taken & rest & E1 & E2 & _). rewrite E1. cbn [app].
  unfold push, set_Data. cbn [Data Log ApprovedLevel heap_next].
  apply (owns_step _ ev _ _ H); [cbn; lia|].
  intros x. cbn [Data]. rewrite E2. occ_solve.
Qed.

Lemma hoare_PackTopX : hoare inv PackTopX (fun _ => inv) inv.
Proof.
  unfold PackTopX, inv. hpure. hpure. hpure. hstep hoare_pop_drop.
  hpure. hpure. hstep hoare_new_Branch.
  eapply hoare_regroup; [apply (hoare_push _ [])|]. occ_solve.
Qed.

Lemma hoare_EmptyBranch : hoare inv EmptyBranch (fun _ => inv) inv.
Proof.
  unfold EmptyBranch, inv. hstep hoare_alloc.
  eapply hoare_regroup; [apply (hoare_push _ [])|]. occ_solve.
Qed.

Lemma hoare_EmptyElement : hoare inv EmptyElement (fun _ => inv) inv.
Proof.
  unfold EmptyElement, inv. hstep hoare_alloc.
  eapply hoare_regroup; [apply (hoare_push _ [])|]. occ_solve.
Qed.

Lemma hoare_CopyFromIndex : hoare inv CopyFromIndex (fun _ => inv) inv.
Proof.
  unfold CopyFromIndex, inv. hpure. hpure. hpure. hstep hoare_pop_drop.
  hpure. hpure. hpure. hpure. hstep hoare_copy.
  eapply hoare_regroup; [apply (hoare_push _ [])|]. occ_solve.
Qed.

Lemma hoare_Undot : hoare inv Undot (fun _ => inv) inv.
Proof.
  unfold Undot, inv. hpure. hpure. apply hoare_write, shrinking_undot.
Qed.

Lemma hoare_ExtractColumnPack : hoare inv ExtractColumnPack (fun _ => inv) inv.
Proof.
  unfold ExtractColumnPack, inv. hpure. hpure. hpure. hstep hoare_pop_drop.
  hpure. hpure. hpure. hstep hoare_pop_drop. hpure. hpure.
  hstep hoare_alloc as na. hpure.
  eapply hoare_bind.
  - eapply hoare_regroup; [apply (hoare_Column_loop _ _ _ _ _ [] [na])|]. occ_solve.
  - cbv beta. intros nb.
    eapply hoare_regroup; [apply (hoare_push _ [])|]. occ_solve.
Qed.

Lemma hoare_ExtractGroupedColumnPack :
  hoare inv ExtractGroupedColumnPack (fun _ => inv) inv.
Proof.
  unfold ExtractGroupedColumnPack, inv. hpure. hpure. hpure. hstep hoare_pop_drop.
  hpure. hpure. hpure. hstep hoare_pop_drop. hpure. hpure.
  hstep hoare_alloc as na. hpure.
  eapply hoare_bind.
  - eapply hoare_regroup;
      [apply (hoare_Grouped_loop _ _ _ _ _ _ (Branch na []) [])|]. occ_solve.
  - cbv beta. intros nbranch. apply hoare_push.
Qed.

Lemma hoare_Reverse : hoare inv Reverse (fun _ => inv) inv.
Proof.
  unfold Reverse, inv. hpure. hpure. apply hoare_write, shrinking_reverse.
Qed.

Lemma hoare_Copy : hoare inv Copy (fun _ => inv) inv.
Proof.
  unfold Copy, inv. hpure. hpure. hstep hoare_copy.
  eapply hoare_regroup; [apply (hoare_push _ [])|]. occ_solve.
Qed.

Lemma hoare_Duplicate : hoare inv Duplicate (fun _ => inv) inv.
Proof.
  unfold Duplicate, inv. hpure. hpure. hpure. hstep hoare_pop_drop.
  apply hoare_Duplicate_loop.
Qed.

Lemma hoare_DeepRemove : hoare inv DeepRemove (fun _ => inv) inv.
Proof.
  unfold DeepRemove, inv. hpure. hpure. hpure. hstep hoare_pop_drop. hpure.
  eapply hoare_bind.
  - eapply hoare_regroup; [apply (hoare_DeepRemove_save _ [] [])|]. occ_solve.
  - cbv beta. intros tmp. hstep hoare_pop_drop. apply hoare_DeepRemove_restore.
Qed.

Lemma hoare_SplitRow : hoare inv SplitRow (fun _ => inv) inv.
Proof.
  unfold SplitRow, inv. hpure. hpure. hpure. hpure. hstep hoare_pop_drop.
  hpure. hpure. hpure. hstep hoare_pop_drop. hstep hoare_alloc as r.
  eapply hoare_bind.
  - eapply hoare_regroup; [apply (hoare_SplitRow_loop _ _ _ _ _ [] [r])|]. occ_solve.
  - cbv beta. intros bs.
    eapply hoare_regroup; [apply (hoare_push _ [])|]. occ_solve.
Qed.

Lemma hoare_ConcatRow : hoare inv ConcatRow (fun _ => inv) inv.
Proof.
  unfold ConcatRow, inv. hpure. hpure. hpure. hstep hoare_pop_drop.
  hpure. hpure. hpure. hstep hoare_pop_drop. hpure. hstep hoare_alloc.
  eapply hoare_regroup; [apply (hoare_push _ [])|]. occ_solve.
Qed.

Lemma hoare_Pop : hoare inv Pop (fun _ => inv) inv.
Proof. apply hoare_pop_drop. Qed.

Lemma preserves_hoare m : hoare inv m (fun _ => inv) inv -> preserves m.
Proof. intros H ev Hev. specialize (H ev Hev). now destruct (m ev). Qed.

Lemma Functions_preserve : Forall (fun e => preserves (Func e)) Functions.
Proof.
  rewrite Functions_eq.
  repeat (apply Forall_cons;
          [ cbn [Func]; apply preserves_hoare;
            solve [auto using hoare_PackTop, hoare_PackTopSameLevel,
                     hoare_UnpackTop, hoare_PackTopX, hoare_EmptyBranch,
                     hoare_EmptyElement, hoare_CopyFromIndex,
                     hoare_ExtractColumnPack, hoare_ExtractGroupedColumnPack,
                     hoare_Copy, hoare_Duplicate, hoare_Pop, hoare_DeepRemove,
                     hoare_Undot, hoare_ConcatRow, hoare_SplitRow,
                     hoare_Reverse] |]).
  apply Forall_nil.
Qed.

Lemma builtin_preserves name f :
  lookup name Functions = Some f -> preserves f.
Proof.
  intros H. apply lookup_In in H as (e & Hin & <-).
  pose proof Functions_preserve as HF. rewrite Forall_forall in HF. now apply HF.
Qed.

Lemma EvalCom_try_preserves com : preserves (EvalCom_try Functions com).
Proof.
  unfold EvalCom_try.
  destruct (_ <? 1); [apply preserves_hoare, hoare_ret'; auto|].
  destruct (lookup com Functions) as [f|] eqn:E.
  - now apply (builtin_preserves com).
  - apply preserves_hoare. unfold inv. hstep hoare_alloc.
    eapply hoare_regroup; [apply (hoare_push _ [])|]. occ_solve.
Qed.

Lemma inv_set_Log l ev : inv ev -> inv (set_Log l ev).
Proof. intros H x. exact (H x). Qed.

Lemma EvalCom_preserves com log catch_localy :
  preserves (EvalCom Functions com log catch_localy).
Proof.
  intros ev H. unfold EvalCom. pose proof (EvalCom_try_preserves com ev H) as Ht.
  destruct (EvalCom_try Functions com ev) as [a ev'|e ev'|]; [exact Ht| |exact I].
  destruct (negb catch_localy); [exact Ht|].
  destruct log; destruct (Level_gt _ _); cbn [ApprovedLevel set_Log];
    auto using inv_set_Log.
Qed.

Lemma EvalComs_from_preserves : forall rest i, preserves (EvalComs_from Functions i rest).
Proof.
  induction rest as [|com rest IH]; intros i ev H; [exact H|].
  cbn [EvalComs_from]. pose proof (EvalCom_preserves com false false ev H) as Hc.
  destruct (EvalCom Functions com false false ev) as [a ev'|e ev'|]; [|
    |exact I].
  - now apply IH.
  - destruct (Level_gt _ _); [now apply inv_set_Log|].
    apply IH. now apply inv_set_Log.
Qed.

Lemma feed_preserves : forall coms, preserves (feed Functions coms).
Proof.
  induction coms as [|com coms IH]; intros ev H; [exact H|].
  cbn [feed]. unfold bind.
  pose proof (EvalCom_preserves com true true ev H) as Hc.
  destruct (EvalCom Functions com true true ev) as [a ev'|e ev'|]; auto.
  now apply IH.
Qed.

Lemma inv_new_Evaluator level : inv (new_Evaluator level).
Proof. intros x. cbn. split; lia. Qed.

Lemma inv_NoDup ev :
  inv ev <->
  NoDup (footprint (Data ev)) /\
  Forall (fun a => a < heap_next ev) (footprint (Data ev)).
Proof.
  unfold inv, owns. split.
  - intros H. split.
    + apply (NoDup_count_occ Nat.eq_dec). intros x. specialize (H x).
      rewrite occ_nil in H. apply H.
    + apply Forall_forall. intros x Hx. apply (count_occ_In Nat.eq_dec) in Hx.
      specialize (H x). rewrite occ_nil in H. apply H. unfold occ. lia.
  - intros [Hn Hf] x. rewrite occ_nil. cbn [Nat.add].
    rewrite (NoDup_count_occ Nat.eq_dec) in Hn. split; [apply Hn|].
    intros Hx. rewrite Forall_forall in Hf. apply Hf.
    apply (count_occ_In Nat.eq_dec). unfold occ in Hx. lia.
Qed.

Lemma occ_nth st : forall i x a,
    nth_error st i = Some x -> occ (addrs x) a <= occ (footprint st) a.
Proof.
  induction st as [|t st IH]; intros [|i] x a H; try discriminate.
  - injection H as ->. rewrite footprint_cons, occ_app. lia.
  - cbn [nth_error] in H. rewrite footprint_cons, occ_app.
    specialize (IH i x a H). lia.
Qed.

Lemma occ_nth_two st : forall i j x y a,
    i <> j -> nth_error st i = Some x -> nth_error st j = Some y ->
    occ (addrs x) a + occ (addrs y) a <= occ (footprint st) a.
Proof.
  induction st as [|t st IH]; intros [|i] [|j] x y a Hij Hx Hy;
    try discriminate; try congruence; cbn [nth_error] in *;
    rewrite footprint_cons, occ_app.
  - injection Hx as ->. pose proof (occ_nth st j y a Hy). lia.
  - injection Hy as ->. pose proof (occ_nth st i x a Hx). lia.
  - assert (i <> j) by congruence. specialize (IH i j x y a H Hx Hy). lia.
Qed.

Lemma NoDup_topologically_disjoint st :
  NoDup (footprint st) -> topologically_disjoint st.
Proof.
  intros Hn i j x y Hij Hx Hy a Hax Hay.
  rewrite (NoDup_count_occ Nat.eq_dec) in Hn. specialize (Hn a).
  pose proof (occ_nth_two st i j x y a Hij Hx Hy) as H.
  apply (count_occ_In Nat.eq_dec) in Hax, Hay. unfold occ in H. lia.
Qed.

(** C5.  A fresh evaluator satisfies the invariant [inv]: no object is
    reachable twice from the stack.  Every operation registered by
    [LoadDefault] keeps it, whether it returns or throws; so do [EvalCom]
    (a literal token included), [EvalComs] and any sequence of tokens fed to
    [EvalCom].  The invariant says that the objects reachable from the stack
    are pairwise different and below the allocator counter; in a state with
    it every two stack slots hold nodes that share no object.  The
    operations that produce a node from one they keep ([Unpack], [Copy],
    [CopyFromIndex], [Duplicate], the two column extractions) push the
    result of [Copy()], whose objects are all new. *)
Theorem stack_nodes_never_shared :
  (forall level, inv (new_Evaluator level)) /\
  (forall name f, lookup name Functions = Some f -> preserves f) /\
  (forall com log catch_localy, preserves (EvalCom Functions com log catch_localy)) /\
  (forall coms, preserves (EvalComs Functions coms)) /\
  (forall coms, preserves (feed Functions coms)) /\
  (forall ev, inv ev <->
              NoDup (footprint (Data ev)) /\
              Forall (fun a => a < heap_next ev) (footprint (Data ev))) /\
  (forall ev, inv ev -> topologically_disjoint (Data ev)).
Proof.
  split; [exact inv_new_Evaluator|].
  split; [exact builtin_preserves|].
  split; [exact EvalCom_preserves|].
  split; [intros coms; apply EvalComs_from_preserves|].
  split; [exact feed_preserves|].
  split; [exact inv_NoDup|].
  intros ev H. apply inv_NoDup in H as [Hn _].
  now apply NoDup_topologically_disjoint.
Qed.

Lemma stack_nodes_never_shared_witness :
  topologically_disjoint
    [Branch 9 [Value 10 "z"; Value 11 "y"; Value 12 "x"];
     Branch 5 [Value 6 "z"; Value 7 "y"; Value 8 "x"];
     Branch 3 [Value 2 "z"; Value 1 "y"; Value 0 "x"]].
Proof.
  destruct stack_nodes_never_shared as (Hinit & _ & _ & _ & Hfeed & _ & Hdis).
  pose proof (Hfeed ["x"; "y"; "z"; "^"; "3"; "|c"] (new_Evaluator Warning)
                    (Hinit Warning)) as H.
  assert (E : feed Functions ["x"; "y"; "z"; "^"; "3"; "|c"] (new_Evaluator Warning)
              = Ok tt (mkEvaluator
                         [Branch 9 [Value 10 "z"; Value 11 "y"; Value 12 "x"];
                          Branch 5 [Value 6 "z"; Value 7 "y"; Value 8 "x"];
                          Branch 3 [Value 2 "z"; Value 1 "y"; Value 0 "x"]]
                         [] Warning 13)) by reflexivity.
  rewrite E in H. exact (Hdis _ H).
Defined.

(* ================================================================== *)
(** ** Severity of the errors the operations raise *)

Lemma raises_bind {A B} (m : M A) (k : A -> M B) :
  raises_Fatal m -> (forall a, raises_Fatal (k a)) -> raises_Fatal (bind m k).
Proof.
  intros Hm Hk ev. unfold bind. specialize (Hm ev).
  destruct (m ev) as [a ev'|e ev'|]; [|exact Hm|exact I].
  specialize (Hk a ev'). destruct (k a ev') as [b ev''|e ev''|];
    [congruence | split; [destruct Hk; congruence | apply Hk] | exact I].
Qed.

Lemma raises_ret {A} (a : A) : raises_Fatal (ret a).
Proof. intros ev. reflexivity. Qed.

Lemma raises_undefined {A} : raises_Fatal (@undefined A).
Proof. intros ev. exact I. Qed.

Lemma raises_ThrowWraped {A} msg level : raises_Fatal (@ThrowWraped A msg level).
Proof. intros ev. split; reflexivity. Qed.

Lemma raises_throw_if c msg level : raises_Fatal (throw_if c msg level).
Proof. destruct c; [apply raises_ThrowWraped | apply raises_ret]. Qed.

Lemma raises_size : raises_Fatal size.
Proof. intros ev. reflexivity. Qed.

Lemma raises_top : raises_Fatal top.
Proof. intros ev. unfold top. now destruct (Data ev). Qed.

Lemma raises_pop : raises_Fatal pop.
Proof. intros ev. unfold pop. now destruct (Data ev). Qed.

Lemma raises_push x : raises_Fatal (push x).
Proof. intros ev. reflexivity. Qed.

Lemma raises_alloc : raises_Fatal alloc.
Proof. intros ev. reflexivity. Qed.

Lemma raises_node_Copy x : raises_Fatal (node_Copy x).
Proof. intros ev. unfold node_Copy. now destruct (Copy_at x (heap_next ev)). Qed.

Lemma raises_write a f : raises_Fatal (write a f).
Proof. intros ev. reflexivity. Qed.

Lemma raises_Stored_of x : raises_Fatal (Stored_of x).
Proof. destruct x; [apply raises_ret | apply raises_undefined]. Qed.

Lemma raises_Branches_of x : raises_Fatal (Branches_of x).
Proof. destruct x; [apply raises_undefined | apply raises_ret]. Qed.

Lemma raises_at_index v i : raises_Fatal (at_index v i).
Proof.
  unfold at_index. destruct (nth_error _ _); [apply raises_ret | apply raises_undefined].
Qed.

Lemma raises_substr v p c : raises_Fatal (substr v p c).
Proof.
  unfold substr. destruct (_ <? _)%Z; [apply raises_undefined | apply raises_ret].
Qed.

Create HintDb raises discriminated.
#[local] Hint Resolve raises_ret raises_undefined raises_ThrowWraped
  raises_throw_if raises_size raises_top raises_pop raises_push raises_alloc
  raises_node_Copy raises_write raises_Stored_of raises_Branches_of
  raises_at_index raises_substr : raises.

(** Splits a computation along its steps and branches. *)
Ltac raises_steps :=
  repeat first
    [ solve [auto with raises]
    | apply raises_bind; [|intros ?]
    | match goal with
      | |- raises_Fatal (if ?c then _ else _) => destruct c
      | |- raises_Fatal (match ?x with Some _ => _ | None => _ end) => destruct x
      | |- raises_Fatal (match ?x with [] => _ | _ :: _ => _ end) => destruct x
      end ].

Lemma raises_ReadAs x : raises_Fatal (ReadAs x).
Proof. unfold ReadAs. raises_steps. Qed.

Lemma raises_RequireValue br : raises_Fatal (RequireValue br).
Proof. apply raises_throw_if. Qed.

Lemma raises_RequireBranch br : raises_Fatal (RequireBranch br).
Proof. apply raises_throw_if. Qed.

Lemma raises_RequireDigits s : raises_Fatal (RequireDigits s).
Proof.
  induction s as [|c s IH]; [apply raises_ret|].
  cbn [RequireDigits]. apply raises_bind; [apply raises_throw_if | intros _; exact IH].
Qed.

#[local] Hint Resolve raises_ReadAs raises_RequireValue raises_RequireBranch
  raises_RequireDigits : raises.

Lemma raises_RequireInteger br : raises_Fatal (RequireInteger br).
Proof. unfold RequireInteger. raises_steps. Qed.

Lemma raises_RequireTop sz : raises_Fatal (RequireTop sz).
Proof. unfold RequireTop. raises_steps. Qed.

#[local] Hint Resolve raises_RequireInteger raises_RequireTop : raises.

Lemma raises_RequireValueTop : raises_Fatal RequireValueTop.
Proof. unfold RequireValueTop. raises_steps. Qed.

Lemma raises_RequireIntegerTop : raises_Fatal RequireIntegerTop.
Proof. unfold RequireIntegerTop. raises_steps. Qed.

Lemma raises_RequireBranchTop : raises_Fatal RequireBranchTop.
Proof. unfold RequireBranchTop. raises_steps. Qed.

#[local] Hint Resolve raises_RequireValueTop raises_RequireIntegerTop
  raises_RequireBranchTop : raises.

Lemma raises_Branch_fill : forall k acc, raises_Fatal (Branch_fill k acc).
Proof. induction k; intros acc; cbn [Branch_fill]; raises_steps. Qed.

Lemma raises_Unpack_push : forall bs, raises_Fatal (Unpack_push bs).
Proof. induction bs; cbn [Unpack_push]; raises_steps. Qed.

Lemma raises_Duplicate_loop : forall n, raises_Fatal (Duplicate_loop n).
Proof. induction n; cbn [Duplicate_loop]; raises_steps. Qed.

Lemma raises_DeepRemove_save : forall n tmp, raises_Fatal (DeepRemove_save n tmp).
Proof. induction n; intros tmp; cbn [DeepRemove_save]; raises_steps. Qed.

Lemma raises_DeepRemove_restore : forall n tmp, raises_Fatal (DeepRemove_restore n tmp).
Proof. induction n; intros tmp; cbn [DeepRemove_restore]; raises_steps. Qed.

Lemma raises_SplitRow_loop v s : forall fuel p np r,
    raises_Fatal (SplitRow_loop fuel v s p np r).
Proof. induction fuel; intros p np r; cbn [SplitRow_loop]; raises_steps. Qed.

Lemma raises_ConcatRow_loop space : forall bs f str,
    raises_Fatal (ConcatRow_loop space bs f str).
Proof. induction bs; intros f str; cbn [ConcatRow_loop]; raises_steps. Qed.

Lemma raises_Column_loop index depth : forall fuel br cp nb,
    raises_Fatal (Column_loop fuel index depth br cp nb).
Proof. induction fuel; intros br cp nb; cbn [Column_loop]; raises_steps. Qed.

Lemma raises_Grouped_loop index depth : forall fuel br cp nbr nbranch,
    raises_Fatal (Grouped_loop fuel index depth br cp nbr nbranch).
Proof.
  induction fuel; intros br cp nbr nbranch; cbn [Grouped_loop]; raises_steps.
Qed.

#[local] Hint Resolve raises_Branch_fill raises_Unpack_push
  raises_Duplicate_loop raises_DeepRemove_save raises_DeepRemove_restore
  raises_SplitRow_loop raises_ConcatRow_loop raises_Column_loop
  raises_Grouped_loop : raises.

Lemma raises_PackTopSameLevel : raises_Fatal PackTopSameLevel.
Proof.
  unfold PackTopSameLevel. apply raises_bind; [auto with raises|]. intros a.
  apply raises_bind; [auto with raises|]. intros t ev.
  cbv zeta. now destruct (SameLevel_loop _ _ _).
Qed.

Lemma Functions_raise_Fatal : Forall (fun e => raises_Fatal (Func e)) Functions.
Proof.
  rewrite Functions_eq.
  repeat (apply Forall_cons;
          [ cbn [Func];
            first [ exact raises_PackTopSameLevel
                  | unfold PackTop, UnpackTop, Unpack, PackTopX, new_Branch,
                      EmptyBranch, EmptyElement, CopyFromIndex,
                      ExtractColumnPack, ExtractGroupedColumnPack, Copy,
                      Duplicate, Pop, DeepRemove, Undot, ConcatRow, SplitRow,
                      Reverse; solve [raises_steps] ] |]).
  apply Forall_nil.
Qed.

Lemma EvalCom_try_raises_Fatal com : raises_Fatal (EvalCom_try Functions com).
Proof.
  unfold EvalCom_try. destruct (_ <? 1); [apply raises_ret|].
  destruct (lookup com Functions) as [f|] eqn:E; [|raises_steps].
  apply lookup_In in E as (e & Hin & <-).
  pose proof Functions_raise_Fatal as HF. rewrite Forall_forall in HF. now apply HF.
Qed.

(** With a threshold below [Fatal], [EvalCom] absorbs nothing. *)
Lemma EvalCom_never_absorbs com log ev e ev' :
  ApprovedLevel ev <> Fatal ->
  EvalCom_try Functions com ev = Throw e ev' ->
  ErrorLevel e = Fatal /\
  EvalCom Functions com log true ev
  = Throw e (if log then set_Log (caused e com :: Log ev') ev' else ev').
Proof.
  intros Hl Ht. pose proof (EvalCom_try_raises_Fatal com ev) as H.
  rewrite Ht in H. destruct H as [Ha He]. split; [exact He|].
  unfold EvalCom. rewrite Ht. cbn [negb]. rewrite He.
  assert (Hgt : forall l, l <> Fatal -> Level_gt Fatal l = true)
    by (intros []; congruence || reflexivity).
  destruct log; cbn [ApprovedLevel set_Log]; rewrite Ha, Hgt by exact Hl;
    reflexivity.
Qed.

(** C1.  The object [ThrowWraped] throws is the outer exception, whose level
    is the default [Fatal] whatever level the call names; the level named at
    the call only reaches the wrapped base exception.  So every error that
    the [try] block of [EvalCom] can raise has [ErrorLevel() = Fatal], and
    with [ApprovedLevel = Critical] none of them is absorbed: the message is
    logged with the token appended and the error is thrown again.  For
    [PackTop] on an empty stack the outcome is given in full. *)
Theorem ThrowWraped_Critical_is_rethrown :
  (forall msg level,
      ErrorLevel (Wraped msg level) = Fatal /\
      option_map ErrorLevel (BaseException (Wraped msg level)) = Some level) /\
  (forall com ev e ev',
      EvalCom_try Functions com ev = Throw e ev' -> ErrorLevel e = Fatal) /\
  (forall com ev e ev',
      ApprovedLevel ev = Critical ->
      EvalCom_try Functions com ev = Throw e ev' ->
      EvalCom Functions com true true ev
      = Throw e (set_Log (caused e com :: Log ev') ev')) /\
  (forall lg nx,
      let e := Wraped "Required argument, but not passed" Critical in
      EvalCom Functions "^t" true true (mkEvaluator [] lg Critical nx)
      = Throw e (mkEvaluator [] (caused e "^t" :: lg) Critical nx)).
Proof.
  split; [|split; [|split]].
  - intros. split; [apply ErrorLevel_Wraped | apply BaseLevel_Wraped].
  - intros com ev e ev' H.
    pose proof (EvalCom_try_raises_Fatal com ev) as Hr. rewrite H in Hr. apply Hr.
  - intros com ev e ev' Hl H.
    apply (EvalCom_never_absorbs com true ev e ev'); [congruence | exact H].
  - intros lg nx e. reflexivity.
Qed.

(* ================================================================== *)
(** * Further properties of the engine *)

(* ================================================================== *)
(** ** The built-in operations on an empty stack *)

Lemma lookup_Name com F f :
  lookup com F = Some f -> exists e, In e F /\ Func e = f /\ Name e = com.
Proof.
  unfold lookup. destruct (List.find _ F) as [e|] eqn:E; [|discriminate].
  intros [= <-]. apply find_some in E as [Hin Hn]. exists e.
  apply String.eqb_eq in Hn. auto.
Qed.

(** X1.  On an empty stack each of the nineteen registered operations does
    one thing: ["^"] and ["#"] read or pop the top without a check, which is
    undefined; the generators ["|Eb"] and ["|Ev"] push their new node; each
    of the fifteen others raises the error
    ["Required argument, but not passed"] and leaves the evaluator as it
    was. *)
Theorem builtins_on_empty_stack :
  forall name f lg level nx,
    lookup name Functions = Some f ->
    let ev := mkEvaluator [] lg level nx in
    (In name ["^"; "#"] /\ f ev = Undefined) \/
    (name = "|Eb" /\ f ev = Ok tt (mkEvaluator [Branch nx []] lg level (S nx))) \/
    (name = "|Ev" /\ f ev = Ok tt (mkEvaluator [Value nx ""] lg level (S nx))) \/
    (In name ["^t"; "^_t"; "^tc"; "|i"; "|id"; "|["; "|]"; "|]g"; "|"; "|c";
              "#d"; "$"; "$^"; "$_"; "_"] /\
     f ev = Throw (Wraped "Required argument, but not passed" Critical) ev).
Proof.
  intros name f lg level nx H ev.
  apply lookup_Name in H as (e & Hin & <- & <-).
  rewrite Functions_eq in Hin. cbn [In] in Hin.
  repeat (destruct Hin as [<-|Hin];
          [cbn [Name Func]; first
             [ right; right; right; split; [cbn; tauto|reflexivity]
             | left; split; [cbn; tauto|reflexivity]
             | right; left; split; reflexivity
             | right; right; left; split; reflexivity ] |]).
  destruct Hin.
Qed.

Lemma builtins_on_empty_stack_witness :
  PackTop (mkEvaluator [] [] Warning 0)
  = Throw (Wraped "Required argument, but not passed" Critical)
          (mkEvaluator [] [] Warning 0).
Proof.
  destruct (builtins_on_empty_stack "^t" PackTop [] Warning 0 eq_refl)
    as [[H _]|[[H _]|[[H _]|[_ H]]]]; [| discriminate H | discriminate H | exact H].
  cbn in H. repeat (destruct H as [H|H]; [discriminate H|]). destruct H.
Defined.

(* ================================================================== *)
(** ** The built-in operations on a branch *)

Lemma RequireValueTop_Branch a bs rest lg level nx :
  RequireValueTop (mkEvaluator (Branch a bs :: rest) lg level nx)
  = Throw (Wraped "Branch as value argument" Critical)
          (mkEvaluator (Branch a bs :: rest) lg level nx).
Proof. unfold RequireValueTop, bind. rewrite RequireTop_1_cons. reflexivity. Qed.

Lemma RequireIntegerTop_Branch a bs rest lg level nx :
  RequireIntegerTop (mkEvaluator (Branch a bs :: rest) lg level nx)
  = Throw (Wraped "Branch as value argument" Critical)
          (mkEvaluator (Branch a bs :: rest) lg level nx).
Proof. unfold RequireIntegerTop, bind. rewrite RequireTop_1_cons. reflexivity. Qed.

(** X2.  With a [Branch] on top of the stack, the eleven operations that start by
    reading a leaf (a count, an index, a separator, a text) raise
    ["Branch as value argument"] and leave the evaluator as it was; the
    eight others return. *)
Theorem builtins_on_a_branch_on_top :
  forall name f a bs rest lg level nx,
    lookup name Functions = Some f ->
    let ev := mkEvaluator (Branch a bs :: rest) lg level nx in
    (In name ["^tc"; "|i"; "|["; "|id"; "|]"; "|]g"; "|c"; "#d"; "$"; "$^"; "$_"] /\
     f ev = Throw (Wraped "Branch as value argument" Critical) ev) \/
    (In name ["^t"; "^"; "^_t"; "|Eb"; "|Ev"; "|"; "#"; "_"] /\
     exists ev', f ev = Ok tt ev').
Proof.
  intros name f a bs rest lg level nx H ev. subst ev.
  apply lookup_Name in H as (e & Hin & <- & <-).
  rewrite Functions_eq in Hin. cbn [In] in Hin.
  repeat (destruct Hin as [<-|Hin];
          [cbn [Name Func]; first
             [ left; split; [cbn; tauto|];
               unfold PackTopX, CopyFromIndex, ExtractColumnPack,
                 ExtractGroupedColumnPack, Duplicate, DeepRemove, Undot,
                 ConcatRow, SplitRow, bind;
               first [rewrite RequireValueTop_Branch | rewrite RequireIntegerTop_Branch];
               reflexivity
             | right; split; [cbn; tauto|];
               first
                 [ eexists; reflexivity
                 | rewrite UnpackTop_ok; eexists; reflexivity
                 | unfold Copy, Reverse, bind; rewrite RequireTop_1_cons;
                   cbn [top Data]; unfold node_Copy;
                   try destruct (Copy_at _ _); eexists; reflexivity
                 | unfold PackTopSameLevel, bind;
                   cbn [alloc top Data set_next heap_next];
                   destruct (SameLevel_loop _ _ _); eexists; reflexivity ] ] |]).
  destruct Hin.
Qed.

Lemma builtins_on_a_branch_on_top_witness :
  Duplicate (mkEvaluator [Branch 0 []] [] Warning 1)
  = Throw (Wraped "Branch as value argument" Critical)
          (mkEvaluator [Branch 0 []] [] Warning 1).
Proof.
  destruct (builtins_on_a_branch_on_top "|c" Duplicate 0 [] [] [] Warning 1 eq_refl)
    as [[_ H]|[H _]]; [exact H|].
  cbn in H. repeat (destruct H as [H|H]; [discriminate H|]). destruct H.
Defined.

(* ================================================================== *)
(** ** Integer arguments *)

Lemma RequireDigits_spec s ev :
  RequireDigits s ev
  = if all_digits s then Ok tt ev
    else Throw (Wraped "Not a number passed as an integer" Critical) ev.
Proof.
  induction s as [|c r IH]; [reflexivity|].
  cbn [RequireDigits all_digits]. unfold bind.
  destruct (isdigit c); cbn [negb throw_if andb]; [exact IH | reflexivity].
Qed.

Lemma digit_val_range c : isdigit c = true -> (0 <= digit_val c <= 9)%Z.
Proof.
  unfold isdigit, digit_val. intros H. apply andb_prop in H as [H1 H2].
  apply Nat.leb_le in H1, H2. lia.
Qed.

Lemma read_digits_bounds : forall s acc,
    all_digits s = true -> (0 <= acc)%Z ->
    (acc * 10 ^ Z.of_nat (String.length s) <= read_digits s acc
     < (acc + 1) * 10 ^ Z.of_nat (String.length s))%Z.
Proof.
  induction s as [|c r IH]; intros acc Hd Hacc.
  - cbn. lia.
  - cbn [all_digits] in Hd. apply andb_prop in Hd as [Hc Hr].
    cbn [read_digits String.length]. rewrite Hc.
    pose proof (digit_val_range c Hc) as Hv.
    specialize (IH (acc * 10 + digit_val c)%Z Hr ltac:(lia)).
    rewrite Nat2Z.inj_succ, Z.pow_succ_r by lia.
    assert (0 < 10 ^ Z.of_nat (String.length r))%Z by (apply Z.pow_pos_nonneg; lia).
    nia.
Qed.

Lemma ReadAs_int_integer_text s :
  integer_text s = true ->
  ReadAs_int s = Some (read_digits s 0) /\ (0 <= read_digits s 0 < 10 ^ 8)%Z.
Proof.
  unfold integer_text. intros H.
  apply andb_prop in H as [H Hd]. apply andb_prop in H as [H1 H8].
  apply Nat.leb_le in H1, H8.
  pose proof (read_digits_bounds s 0 Hd ltac:(lia)) as Hb.
  assert (Hr : (0 <= read_digits s 0 < 10 ^ 8)%Z).
  { split; [lia|]. destruct Hb as [_ Hb]. eapply Z.lt_le_trans; [exact Hb|].
    rewrite Z.mul_1_l. apply Z.pow_le_mono_r; lia. }
  split; [|exact Hr].
  destruct s as [|c r]; [simpl in H1; lia|].
  cbn [all_digits] in Hd. apply andb_prop in Hd as [Hc _].
  unfold ReadAs_int. cbn [skipws].
  assert (Hs : isspace c = false /\ Ascii.eqb c "-" = false /\ Ascii.eqb c "+" = false).
  { unfold isdigit, isspace in *. apply andb_prop in Hc as [Ha Hb'].
    apply Nat.leb_le in Ha, Hb'.
    repeat split.
    - destruct (Nat.eqb_spec (nat_of_ascii c) 32); [lia|].
      destruct (Nat.leb_spec 9 (nat_of_ascii c)), (Nat.leb_spec (nat_of_ascii c) 13);
        cbn; try reflexivity; lia.
    - apply Ascii.eqb_neq. intros ->. cbn in Ha. lia.
    - apply Ascii.eqb_neq. intros ->. cbn in Ha. lia. }
  destruct Hs as (-> & -> & ->). f_equal.
  unfold clamp_int, INT_MIN, INT_MAX.
  destruct (Z.ltb_spec (read_digits (String c r) 0) (-2147483648)); [lia|].
  destruct (Z.ltb_spec 2147483647 (read_digits (String c r) 0)); [lia|reflexivity].
Qed.

Lemma RequireInteger_Value a s ev :
  RequireInteger (Value a s) ev
  = if 8 <? String.length s
    then Throw (Wraped "Number larger than integer" Critical) ev
    else if String.length s =? 0
    then Throw (Wraped "Passing empty as number" Critical) ev
    else if all_digits s then Ok tt ev
    else Throw (Wraped "Not a number passed as an integer" Critical) ev.
Proof.
  unfold RequireInteger, bind.
  change (RequireValue (Value a s) ev) with (Ok tt ev). cbv iota.
  change (Stored_of (Value a s) ev) with (Ok s ev). cbv iota beta.
  destruct (8 <? String.length s); [reflexivity|]. cbn [throw_if ret].
  destruct (String.length s =? 0); [reflexivity|]. cbn [throw_if ret].
  apply RequireDigits_spec.
Qed.

Lemma RequireInteger_accepts a s ev :
  RequireInteger (Value a s) ev = Ok tt ev <-> integer_text s = true.
Proof.
  rewrite RequireInteger_Value. unfold integer_text.
  destruct (Nat.ltb_spec 8 (String.length s)) as [H8|H8].
  - split; [discriminate|]. intros H. apply andb_prop in H as [H _].
    apply andb_prop in H as [_ H]. apply Nat.leb_le in H. lia.
  - destruct (Nat.eqb_spec (String.length s) 0) as [H0|H0].
    + split; [discriminate|]. intros H. apply andb_prop in H as [H _].
      apply andb_prop in H as [H _]. apply Nat.leb_le in H. lia.
    + destruct (all_digits s).
      * split; [intros _|reflexivity].
        rewrite andb_true_r. apply andb_true_intro. split; apply Nat.leb_le; lia.
      * split; [discriminate|]. rewrite andb_false_r. discriminate.
Qed.

Lemma ReadAs_integer_text a s ev c :
  integer_text s = true -> ReadAs_int s = Some c ->
  ReadAs (Value a s) ev = Ok c ev /\ (0 <= c < 10 ^ 8)%Z.
Proof.
  intros H Hr. apply ReadAs_int_integer_text in H as [Hr' Hb].
  rewrite Hr in Hr'. injection Hr' as ->. split; [|exact Hb].
  unfold ReadAs, bind. cbn [Stored_of ret]. now rewrite Hr.
Qed.

(** X3.  [RequireInteger] lets a leaf pass exactly when its text is one to eight
    decimal digits; the three refusals are tested in the order: longer than
    eight, empty, a character that is no digit.  For a text that passes,
    [ReadAs<int>] is defined and reads a number from 0 to 99999999, so the
    operations behind [RequireIntegerTop] never use an uninitialised or a
    clamped count.  A [Branch] fails the value check first. *)
Theorem RequireInteger_accepts_short_digit_strings :
  (forall a s ev,
      RequireInteger (Value a s) ev
      = if 8 <? String.length s
        then Throw (Wraped "Number larger than integer" Critical) ev
        else if String.length s =? 0
        then Throw (Wraped "Passing empty as number" Critical) ev
        else if all_digits s then Ok tt ev
        else Throw (Wraped "Not a number passed as an integer" Critical) ev) /\
  (forall a s ev,
      RequireInteger (Value a s) ev = Ok tt ev <-> integer_text s = true) /\
  (forall a s ev,
      integer_text s = true ->
      exists c, ReadAs (Value a s) ev = Ok (Z.of_nat c) ev /\ c < 10 ^ 8) /\
  (forall a bs ev,
      RequireInteger (Branch a bs) ev
      = Throw (Wraped "Branch as value argument" Critical) ev).
Proof.
  split; [exact RequireInteger_Value|]. split; [exact RequireInteger_accepts|].
  split.
  - intros a s ev H. pose proof (ReadAs_int_integer_text s H) as [Hr Hb].
    exists (Z.to_nat (read_digits s 0)). split.
    + unfold ReadAs, bind. cbn [Stored_of ret]. rewrite Hr.
      rewrite Z2Nat.id by lia. reflexivity.
    + apply Nat2Z.inj_lt. rewrite Z2Nat.id by lia.
      rewrite Nat2Z.inj_pow. exact (proj2 Hb).
  - intros. reflexivity.
Qed.

Lemma RequireIntegerTop_ok a s d lg level nx :
  integer_text s = true ->
  RequireIntegerTop (mkEvaluator (Value a s :: d) lg level nx)
  = Ok tt (mkEvaluator (Value a s :: d) lg level nx).
Proof.
  intros H. unfold RequireIntegerTop, bind. rewrite RequireTop_1_cons.
  cbn [top Data]. now apply RequireInteger_accepts.
Qed.

(* ================================================================== *)
(** ** The registry and the numerals [ReadAs<int>] reads *)

Lemma find_app_first {A} (p : A -> bool) l1 l2 :
  List.find p (l1 ++ l2)
  = match List.find p l1 with Some x => Some x | None => List.find p l2 end.
Proof.
  induction l1 as [|x l1 IH]; [reflexivity|].
  cbn [app List.find]. destruct (p x); [reflexivity | exact IH].
Qed.

Lemma lookup_insert d F com :
  lookup com (insert d F)
  = match lookup com F with
    | Some f => Some f
    | None => if String.eqb (Name d) com then Some (Func d) else None
    end.
Proof.
  unfold insert, lookup.
  destruct (existsb (fun e => String.eqb (Name e) (Name d)) F) eqn:E.
  - destruct (List.find (fun e => String.eqb (Name e) com) F) as [e|] eqn:Ef;
      [reflexivity|].
    apply existsb_exists in E as (e & Hin & He). apply String.eqb_eq in He.
    pose proof (find_none _ _ Ef e Hin) as Hne. cbv beta in Hne.
    now rewrite <- He, Hne.
  - rewrite find_app_first.
    destruct (List.find (fun e => String.eqb (Name e) com) F); [reflexivity|].
    cbn [List.find]. destruct (String.eqb (Name d) com); reflexivity.
Qed.

Lemma insert_NoDup d F :
  NoDup (map Name F) -> NoDup (map Name (insert d F)).
Proof.
  intros H. unfold insert.
  destruct (existsb (fun e => String.eqb (Name e) (Name d)) F) eqn:E; [exact H|].
  rewrite map_app. cbn [map].
  apply NoDup_app; [exact H | repeat constructor; intros [] |].
  intros x Hin [<-|[]]. apply in_map_iff in Hin as (e & He & Hin).
  assert (Ht : existsb (fun e => String.eqb (Name e) (Name d)) F = true).
  { apply existsb_exists. exists e. split; [exact Hin | now apply String.eqb_eq]. }
  congruence.
Qed.

Lemma lookup_NoDup : forall F e,
    NoDup (map Name F) -> In e F -> lookup (Name e) F = Some (Func e).
Proof.
  unfold lookup. induction F as [|x F IH]; intros e Hn Hin; [destruct Hin|].
  cbn [map] in Hn. inversion Hn as [|? ? Hx Hn']; subst.
  cbn [List.find]. destruct (String.eqb_spec (Name x) (Name e)) as [E|E].
  - destruct Hin as [->|Hin]; [reflexivity|].
    exfalso. apply Hx. rewrite E. now apply in_map.
  - destruct Hin as [->|Hin]; [congruence|]. now apply IH.
Qed.

(** X4.  [Functions] is a set ordered by name: inserting a definition under a
    name the set already holds changes nothing, and a lookup after an insert
    finds what it found before, or the new definition when the name was new.
    Names stay unique under [insert]; [LoadDefault] registers 19 different
    names and each of them is found with the function it was registered
    with. *)
Theorem registry_keeps_first_registration :
  (forall d F com,
      lookup com (insert d F)
      = match lookup com F with
        | Some f => Some f
        | None => if String.eqb (Name d) com then Some (Func d) else None
        end) /\
  (forall d F, NoDup (map Name F) -> NoDup (map Name (insert d F))) /\
  NoDup (map Name Functions) /\
  List.length Functions = 19 /\
  (forall e, In e Functions -> lookup (Name e) Functions = Some (Func e)).
Proof.
  split; [exact lookup_insert|]. split; [exact insert_NoDup|].
  assert (Hn : NoDup (map Name Functions)).
  { unfold Functions, LoadDefault. cbn [fold_left].
    repeat apply insert_NoDup. constructor. }
  split; [exact Hn|]. split; [reflexivity|].
  intros e. now apply lookup_NoDup.
Qed.

Lemma all_digits_uint d :
  all_digits (DecimalString.NilEmpty.string_of_uint d) = true.
Proof.
  induction d; cbn [DecimalString.NilEmpty.string_of_uint all_digits];
    [reflexivity | rewrite IHd; reflexivity ..].
Qed.

Lemma all_digits_decimal n : all_digits (decimal n) = true.
Proof. apply all_digits_uint. Qed.

Lemma read_digits_decimal n : read_digits (decimal n) 0 = Z.of_nat n.
Proof.
  unfold decimal. rewrite read_digits_uint by lia. cbn [Z.to_nat].
  f_equal. apply DecimalNat.Unsigned.of_to.
Qed.

Lemma read_digits_app : forall s c r acc,
    all_digits s = true -> isdigit c = false ->
    read_digits (s ++ String c r) acc = read_digits s acc.
Proof.
  induction s as [|x s IH]; intros c r acc Hs Hc.
  - cbn. now rewrite Hc.
  - cbn [all_digits] in Hs. apply andb_prop in Hs as [Hx Hs].
    cbn [append read_digits]. rewrite Hx. now apply IH.
Qed.

Lemma ReadAs_int_digit_head c r :
  isdigit c = true ->
  ReadAs_int (String c r) = Some (clamp_int (read_digits (String c r) 0)).
Proof.
  intros Hc. unfold ReadAs_int. cbn [skipws].
  assert (Hs : isspace c = false /\ Ascii.eqb c "-" = false /\ Ascii.eqb c "+" = false).
  { unfold isdigit, isspace in *. apply andb_prop in Hc as [H1 H2].
    apply Nat.leb_le in H1, H2.
    repeat split.
    - destruct (Nat.eqb_spec (nat_of_ascii c) 32); [lia|].
      destruct (Nat.leb_spec 9 (nat_of_ascii c)), (Nat.leb_spec (nat_of_ascii c) 13);
        cbn; try reflexivity; lia.
    - apply Ascii.eqb_neq. intros ->. cbn in H1. lia.
    - apply Ascii.eqb_neq. intros ->. cbn in H1. lia. }
  now destruct Hs as (-> & -> & ->).
Qed.

Lemma decimal_shape n :
  decimal n = "0" \/
  exists c r, decimal n = String c r /\ isdigit c = true /\ (1 <= digit_val c)%Z.
Proof.
  unfold decimal.
  assert (HU : Nat.to_uint n = Decimal.unorm (Nat.to_uint n)).
  { rewrite <- DecimalNat.Unsigned.to_of. now rewrite DecimalNat.Unsigned.of_to. }
  unfold Decimal.unorm in HU.
  pose proof (DecimalFacts.nzhead_nonzero (Nat.to_uint n)) as Hnz.
  destruct (Decimal.nzhead (Nat.to_uint n)) as [|u|u|u|u|u|u|u|u|u|u] eqn:E;
    rewrite HU;
    [ left; reflexivity
    | now destruct (Hnz u)
    | right; eexists; eexists; cbn [DecimalString.NilEmpty.string_of_uint];
      (split; [reflexivity | split; [reflexivity | unfold digit_val; cbn; lia]]) .. ].
Qed.

Lemma integer_text_decimal n : n < 10 ^ 8 -> integer_text (decimal n) = true.
Proof.
  intros Hn. unfold integer_text. rewrite all_digits_decimal, andb_true_r.
  destruct (decimal_shape n) as [E|(c & r & E & Hc & Hv)].
  - rewrite E. reflexivity.
  - pose proof (read_digits_decimal n) as Hr.
    pose proof (all_digits_decimal n) as Hd.
    rewrite E in Hr, Hd |- *. cbn [all_digits] in Hd.
    apply andb_prop in Hd as [_ Hd].
    cbn [read_digits] in Hr. rewrite Hc in Hr.
    pose proof (read_digits_bounds r (0 * 10 + digit_val c) Hd ltac:(lia)) as [Hlo _].
    rewrite Hr in Hlo.
    assert (Hlen : String.length r < 8).
    { destruct (Nat.lt_ge_cases (String.length r) 8) as [|Hge]; [assumption|exfalso].
      assert (10 ^ 8 <= 10 ^ Z.of_nat (String.length r))%Z
        by (apply Z.pow_le_mono_r; lia).
      assert (Z.of_nat n < 10 ^ 8)%Z.
      { apply Nat2Z.inj_lt in Hn. rewrite Nat2Z.inj_pow in Hn. exact Hn. }
      nia. }
    cbn [String.length]. apply andb_true_intro. split; apply Nat.leb_le; lia.
Qed.

(** X5.  [ReadAs<int>] reads the decimal numeral of [n] back as [n], clamped to
    [INT_MAX]; with a minus sign in front as [-n], clamped to [INT_MIN].
    What follows the digits is ignored, leading white space is skipped, a
    text that starts with anything else reads as 0, and for the empty text
    nothing is read at all (the result is the uninitialised variable).  The
    numeral of a number below 10^8 passes [RequireInteger]. *)
Theorem ReadAs_int_reads_numerals :
  (forall n, ReadAs_int (decimal n) = Some (clamp_int (Z.of_nat n))) /\
  (forall n, ReadAs_int (String "-" (decimal n)) = Some (clamp_int (- Z.of_nat n))) /\
  (forall n c r,
      isdigit c = false ->
      ReadAs_int (decimal n ++ String c r) = ReadAs_int (decimal n)) /\
  (forall w s, isspace w = true -> ReadAs_int (String w s) = ReadAs_int s) /\
  (forall c r,
      isspace c = false -> isdigit c = false ->
      Ascii.eqb c "-" = false -> Ascii.eqb c "+" = false ->
      ReadAs_int (String c r) = Some 0%Z) /\
  ReadAs_int "" = None /\
  (forall n, n < 10 ^ 8 -> integer_text (decimal n) = true).
Proof.
  split; [exact ReadAs_int_decimal|]. split; [|split; [|split; [|split; [|split]]]].
  - intros n. unfold ReadAs_int. cbn [skipws].
    change (isspace "-") with false. cbv iota.
    change (Ascii.eqb "-" "-") with true. cbv iota.
    now rewrite read_digits_decimal.
  - intros n c r Hc.
    destruct (to_uint_head n) as (c0 & r0 & E & Hc0).
    rewrite E. cbn [append]. rewrite !ReadAs_int_digit_head by exact Hc0.
    change (String c0 (r0 ++ String c r)) with (String c0 r0 ++ String c r)%string.
    rewrite read_digits_app; [reflexivity | | exact Hc].
    rewrite <- E. apply all_digits_decimal.
  - intros w s Hw. unfold ReadAs_int. cbn [skipws]. now rewrite Hw.
  - intros c r Hs Hd Hm Hp. unfold ReadAs_int. cbn [skipws]. rewrite Hs, Hm, Hp.
    cbn [read_digits]. rewrite Hd. reflexivity.
  - reflexivity.
  - exact integer_text_decimal.
Qed.

Lemma ReadAs_int_reads_numerals_witness :
  ReadAs_int (decimal 12 ++ String "a" "bc") = ReadAs_int (decimal 12).
Proof.
  apply (proj1 (proj2 (proj2 ReadAs_int_reads_numerals)) 12 "a"%char "bc").
  reflexivity.
Defined.

(* ================================================================== *)
(** ** [PackTopX] and [CopyFromIndex] by the number read *)

Lemma to_size_negative z :
  (INT_MIN <= z < 0)%Z -> to_size z = (z + SIZE_MOD)%Z.
Proof.
  intros H. unfold to_size, SIZE_MOD, INT_MIN in *.
  rewrite <- (Z.mod_add z 1 (2 ^ 64)) by lia.
  rewrite Z.mod_small; lia.
Qed.

(** X6.  [PackTopX] on a stack of fewer than 2^63 nodes under the count leaf,
    by what [ReadAs<int>] makes of the text of the leaf: nothing (an empty or
    blank text) is undefined behaviour; a count [c] from 0 to the number of
    nodes beneath packs the top [c] nodes, the deepest first, into one new
    branch; any other count, negative ones included, raises
    ["Too few arguments to unpack"], and the stack at the throw has lost the
    count leaf. *)
Theorem PackTopX_by_count :
  forall a txt data lg level nx,
    (Z.of_nat (List.length data) < 2 ^ 63)%Z ->
    PackTopX (mkEvaluator (Value a txt :: data) lg level nx)
    = match ReadAs_int txt with
      | None => Undefined
      | Some c =>
          if ((0 <=? c) && (c <=? Z.of_nat (List.length data)))%Z
          then Ok tt (mkEvaluator (Branch nx (rev (firstn (Z.to_nat c) data))
                                     :: skipn (Z.to_nat c) data)
                                  lg level (S nx))
          else Throw (Wraped "Too few arguments to unpack" Critical)
                     (mkEvaluator data lg level nx)
      end.
Proof.
  intros a txt data lg level nx Hlen.
  destruct (ReadAs_int txt) as [c|] eqn:Hr.
  - pose proof (ReadAs_int_range _ _ Hr) as Hrange.
    destruct (Z.leb_spec 0 c) as [H0|H0]; cbn [andb].
    + destruct (Z.leb_spec c (Z.of_nat (List.length data))) as [H1|H1].
      * apply PackTopX_ok; [exact Hr | lia].
      * unfold PackTopX, RequireValueTop, ReadAs, bind.
        rewrite RequireTop_1_cons. step. rewrite Hr. step.
        rewrite to_size_small by (unfold SIZE_MOD, INT_MAX in *; lia).
        destruct (Z.ltb_spec (Z.of_nat (List.length data)) c); [|lia].
        reflexivity.
    + unfold PackTopX, RequireValueTop, ReadAs, bind.
      rewrite RequireTop_1_cons. step. rewrite Hr. step.
      rewrite to_size_negative by (unfold INT_MIN, INT_MAX in *; lia).
      destruct (Z.ltb_spec (Z.of_nat (List.length data)) (c + SIZE_MOD)) as [_|H];
        [reflexivity|].
      unfold SIZE_MOD, INT_MIN in *. lia.
  - unfold PackTopX, RequireValueTop, ReadAs, bind.
    rewrite RequireTop_1_cons. step. rewrite Hr. reflexivity.
Qed.

Lemma PackTopX_by_count_witness :
  PackTopX (mkEvaluator [Value 1 "-1"; Value 0 "x"] [] Warning 2)
  = Throw (Wraped "Too few arguments to unpack" Critical)
          (mkEvaluator [Value 0 "x"] [] Warning 2).
Proof.
  apply (PackTopX_by_count 1 "-1" [Value 0 "x"] [] Warning 2). simpl. lia.
Defined.

(** X7.  [CopyFromIndex] on an index leaf above a branch with fewer than 2^63
    children: for an index inside the vector a clone of that child is pushed
    on the branch, which stays; an index outside it, a negative one included,
    is used unchecked, which is undefined behaviour, and so is an empty or
    blank index text. *)
Theorem CopyFromIndex_clones_child_or_is_undefined :
  forall a txt b bs data lg level nx,
    (Z.of_nat (List.length bs) < 2 ^ 63)%Z ->
    CopyFromIndex (mkEvaluator (Value a txt :: Branch b bs :: data) lg level nx)
    = match ReadAs_int txt with
      | None => Undefined
      | Some c =>
          match (if (0 <=? c)%Z then nth_error bs (Z.to_nat c) else None) with
          | Some x =>
              Ok tt (mkEvaluator (fst (Copy_at x nx) :: Branch b bs :: data)
                                 lg level (snd (Copy_at x nx)))
          | None => Undefined
          end
      end.
Proof.
  intros a txt b bs data lg level nx Hlen.
  unfold CopyFromIndex, RequireValueTop, RequireBranchTop, ReadAs, bind.
  rewrite RequireTop_1_cons. step.
  destruct (ReadAs_int txt) as [c|] eqn:Hr; [|reflexivity].
  pose proof (ReadAs_int_range _ _ Hr) as Hrange.
  step. unfold set_Data. step. rewrite RequireTop_1_cons. step.
  unfold at_index.
  destruct (Z.leb_spec 0 c) as [H0|H0].
  - rewrite to_size_small by (unfold SIZE_MOD, INT_MAX in *; lia).
    destruct (nth_error bs (Z.to_nat c)) as [x|]; [|reflexivity].
    step. unfold node_Copy. step. destruct (Copy_at x nx). reflexivity.
  - rewrite to_size_negative by (unfold INT_MIN, INT_MAX in *; lia).
    destruct (nth_error bs (Z.to_nat (c + SIZE_MOD))) as [x|] eqn:E; [|reflexivity].
    assert (Hn : Z.to_nat (c + SIZE_MOD) < List.length bs)
      by (apply nth_error_Some; congruence).
    unfold SIZE_MOD, INT_MIN in *. lia.
Qed.

Lemma CopyFromIndex_clones_child_or_is_undefined_witness :
  CopyFromIndex (mkEvaluator [Value 3 "1"; Branch 2 [Value 0 "a"; Value 1 "b"]]
                             [] Warning 4)
  = Ok tt (mkEvaluator [Value 4 "b"; Branch 2 [Value 0 "a"; Value 1 "b"]]
                       [] Warning 5).
Proof.
  apply (CopyFromIndex_clones_child_or_is_undefined
           3 "1" 2 [Value 0 "a"; Value 1 "b"] [] [] Warning 4).
  simpl. lia.
Defined.

(* ================================================================== *)
(** ** [Duplicate] and [DeepRemove] *)

Lemma Duplicate_loop_ok : forall n x rest lg level nx,
    exists clones nx',
      Duplicate_loop n (mkEvaluator (x :: rest) lg level nx)
      = Ok tt (mkEvaluator (clones ++ x :: rest) lg level nx') /\
      List.length clones = n /\
      Forall (fun y => value_of y = value_of x) clones /\
      nx <= nx' /\
      flat_map addrs (rev clones) = seq nx (nx' - nx).
Proof.
  induction n as [|n IH]; intros x rest lg level nx.
  - exists [], nx. repeat split; [constructor | lia |].
    now rewrite Nat.sub_diag.
  - cbn [Duplicate_loop]. unfold bind, node_Copy, push. cbn [top Data heap_next].
    pose proof (value_of_Copy_at x nx) as Hv.
    pose proof (addrs_Copy_at x nx) as [Hle Ha].
    destruct (Copy_at x nx) as [c nx1]. cbn [fst snd] in Hv, Hle, Ha.
    unfold set_next, set_Data. cbn [Data Log ApprovedLevel heap_next].
    destruct (IH c (x :: rest) lg level nx1)
      as (clones & nx' & Hrun & Hlen & Hall & Hle' & Ha').
    exists (clones ++ [c]), nx'. rewrite <- app_assoc. split; [exact Hrun|].
    split; [|split; [|split]].
    + rewrite length_app. simpl. lia.
    + apply Forall_app. split.
      * eapply Forall_impl; [|exact Hall]. intros y Hy. cbv beta in Hy. congruence.
      * constructor; [exact Hv | constructor].
    + lia.
    + rewrite rev_app_distr. cbn [rev app flat_map]. rewrite Ha, Ha'.
      replace (nx' - nx) with ((nx1 - nx) + (nx' - nx1)) by lia.
      rewrite seq_app. now replace (nx + (nx1 - nx)) with nx1 by lia.
Qed.

(** X8.  For a count leaf that [RequireInteger] accepts and that reads as [c],
    over a node [x]: [Duplicate] removes the leaf and pushes [c - 1] clones
    of [x] on [x], so [max c 1] nodes with the contents of [x] end up on the
    rest of the stack.  Every clone is made of new objects: read from the
    lowest clone up, the objects of the clones are the ones allocated during
    the call, in the order of allocation.  With nothing beneath the count, 0
    and 1 leave an empty stack and every larger count reads the top of an
    empty stack. *)
Theorem Duplicate_pushes_clones_of_top :
  forall a s c x rest lg level nx,
    integer_text s = true ->
    ReadAs_int s = Some (Z.of_nat c) ->
    (exists clones nx',
        Duplicate (mkEvaluator (Value a s :: x :: rest) lg level nx)
        = Ok tt (mkEvaluator (clones ++ x :: rest) lg level nx') /\
        List.length clones = c - 1 /\
        Forall (fun y => value_of y = value_of x) clones /\
        nx <= nx' /\
        flat_map addrs (rev clones) = seq nx (nx' - nx)) /\
    Duplicate (mkEvaluator [Value a s] lg level nx)
    = (if c <=? 1 then Ok tt (mkEvaluator [] lg level nx) else Undefined).
Proof.
  intros a s c x rest lg level nx Hs Hr.
  assert (Hhead : forall d,
             Duplicate (mkEvaluator (Value a s :: d) lg level nx)
             = Duplicate_loop (c - 1) (mkEvaluator d lg level nx)).
  { intros d. unfold Duplicate, bind. rewrite RequireIntegerTop_ok by exact Hs.
    cbn [top Data].
    destruct (ReadAs_integer_text a s (mkEvaluator (Value a s :: d) lg level nx)
                                  _ Hs Hr) as [-> _].
    cbn [pop Data]. unfold set_Data. cbn [Data Log ApprovedLevel heap_next].
    f_equal. lia. }
  split.
  - rewrite Hhead. apply Duplicate_loop_ok.
  - rewrite Hhead. destruct (Nat.leb_spec c 1) as [H|H].
    + replace (c - 1) with 0 by lia. reflexivity.
    + replace (c - 1) with (S (c - 2)) by lia. reflexivity.
Qed.

Lemma Duplicate_pushes_clones_of_top_witness :
  (exists clones nx',
      Duplicate (mkEvaluator [Value 1 "3"; Value 0 "x"] [] Warning 2)
      = Ok tt (mkEvaluator (clones ++ [Value 0 "x"]) [] Warning nx') /\
      List.length clones = 3 - 1 /\
      Forall (fun y => value_of y = value_of (Value 0 "x")) clones /\
      2 <= nx' /\
      flat_map addrs (rev clones) = seq 2 (nx' - 2)) /\
  Duplicate (mkEvaluator [Value 1 "3"] [] Warning 2)
  = (if 3 <=? 1 then Ok tt (mkEvaluator [] [] Warning 2) else Undefined).
Proof.
  apply (Duplicate_pushes_clones_of_top 1 "3" 3 (Value 0 "x") [] [] Warning 2);
    reflexivity.
Defined.

Lemma DeepRemove_save_ok : forall k acc d lg level nx,
    k <= List.length d ->
    DeepRemove_save k acc (mkEvaluator d lg level nx)
    = Ok (rev (firstn k d) ++ acc) (mkEvaluator (skipn k d) lg level nx).
Proof.
  induction k as [|k IH]; intros acc d lg level nx Hk.
  - reflexivity.
  - destruct d as [|t d]; [simpl in Hk; lia|].
    cbn [DeepRemove_save]. unfold bind. cbn [top pop Data].
    unfold set_Data. cbn [Data Log ApprovedLevel heap_next].
    rewrite IH by (simpl in Hk; lia).
    cbn [firstn rev skipn]. now rewrite <- app_assoc.
Qed.

Lemma DeepRemove_restore_ok : forall tmp d lg level nx,
    DeepRemove_restore (List.length tmp) tmp (mkEvaluator d lg level nx)
    = Ok tt (mkEvaluator (rev tmp ++ d) lg level nx).
Proof.
  induction tmp as [|t tmp IH]; intros d lg level nx.
  - reflexivity.
  - cbn [List.length DeepRemove_restore]. unfold bind, push.
    unfold set_Data. cbn [Data Log ApprovedLevel heap_next].
    rewrite IH. cbn [rev]. now rewrite <- app_assoc.
Qed.

(** X9.  For a count leaf that [RequireInteger] accepts and that reads as [c]:
    [DeepRemove] removes the leaf and then the node [c] places below the new
    top, keeping the nodes above and below it as they were; when fewer than
    [c + 1] nodes are left it raises
    ["Required argument, but not passed"], and the stack at the throw has
    lost the count leaf. *)
Theorem DeepRemove_removes_node_below_count :
  forall a s c data lg level nx,
    integer_text s = true ->
    ReadAs_int s = Some (Z.of_nat c) ->
    DeepRemove (mkEvaluator (Value a s :: data) lg level nx)
    = if c <? List.length data
      then Ok tt (mkEvaluator (firstn c data ++ skipn (S c) data) lg level nx)
      else Throw (Wraped "Required argument, but not passed" Critical)
                 (mkEvaluator data lg level nx).
Proof.
  intros a s c data lg level nx Hs Hr.
  unfold DeepRemove, bind. rewrite RequireIntegerTop_ok by exact Hs.
  cbn [top Data].
  destruct (ReadAs_integer_text a s (mkEvaluator (Value a s :: data) lg level nx)
                                _ Hs Hr) as [-> Hc].
  cbn [pop Data]. unfold set_Data. cbn [Data Log ApprovedLevel heap_next].
  unfold RequireTop, bind, size. cbn [Data].
  rewrite to_size_small by (unfold SIZE_MOD; lia).
  destruct (Nat.ltb_spec c (List.length data)) as [H|H].
  - destruct (Z.ltb_spec (Z.of_nat (List.length data)) (Z.of_nat c + 1)); [lia|].
    cbn [throw_if ret]. rewrite Nat2Z.id.
    rewrite DeepRemove_save_ok by lia. rewrite app_nil_r.
    destruct (skipn c data) as [|t d'] eqn:E.
    { apply (f_equal (@List.length _)) in E. rewrite length_skipn in E.
      simpl in E. lia. }
    cbn [pop Data]. unfold set_Data. cbn [Data Log ApprovedLevel heap_next].
    assert (Hlen : List.length (rev (firstn c data)) = c)
      by (rewrite length_rev, length_firstn; lia).
    rewrite <- Hlen at 1. rewrite DeepRemove_restore_ok, rev_involutive.
    do 3 f_equal.
    change (S c) with (1 + c). rewrite <- skipn_skipn, E. reflexivity.
  - destruct (Z.ltb_spec (Z.of_nat (List.length data)) (Z.of_nat c + 1)); [|lia].
    reflexivity.
Qed.

Lemma DeepRemove_removes_node_below_count_witness :
  DeepRemove (mkEvaluator [Value 3 "1"; Value 2 "c"; Value 1 "b"; Value 0 "a"]
                          [] Warning 4)
  = Ok tt (mkEvaluator [Value 2 "c"; Value 0 "a"] [] Warning 4).
Proof.
  apply (DeepRemove_removes_node_below_count
           3 "1" 1 [Value 2 "c"; Value 1 "b"; Value 0 "a"] [] Warning 4);
    reflexivity.
Defined.

(* ================================================================== *)
(** ** [Undot] *)

Lemma lookup_dot s : lookup (String "." s) Functions = None.
Proof. rewrite Functions_eq. reflexivity. Qed.

Lemma inv_top_unique ev t rest :
  inv ev -> Data ev = t :: rest -> ~ In (addr_of t) (footprint rest).
Proof.
  intros H E. apply inv_NoDup in H as [Hn _]. rewrite E in Hn.
  unfold footprint in *. cbn [flat_map] in Hn.
  apply NoDup_app_remove_l in Hn as Hn'.
  intros Hin.
  assert (Ha : In (addr_of t) (addrs t)) by (destruct t; left; reflexivity).
  revert Hn Ha Hin. generalize (addrs t) (flat_map addrs rest) (addr_of t).
  intros l1 l2 x Hn H1 H2.
  induction l1 as [|y l1 IH]; [destruct H1|].
  inversion Hn as [|? ? Hy Hn1]; subst.
  destruct H1 as [->|H1].
  - apply Hy. apply in_or_app. now right.
  - now apply IH.
Qed.

Lemma Undot_top a s rest ev :
  inv ev -> Data ev = Value a s :: rest ->
  Undot ev = Ok tt (set_Data (undot (Value a s) :: rest) ev).
Proof.
  intros Hinv E. pose proof (inv_top_unique ev _ _ Hinv E) as Hfresh.
  destruct ev as [d lg level nx]. cbn [Data] in E. subst d.
  unfold Undot, RequireValueTop, bind. rewrite RequireTop_1_cons. step.
  unfold write, set_Data. cbn [Data Log ApprovedLevel heap_next map addr_of].
  rewrite map_update_absent by exact Hfresh.
  cbn [update addr_of]. now rewrite Nat.eqb_refl.
Qed.

(** X10.  In a state with the invariant, [Undot] removes one leading ['.'] from the
    text of the leaf on top, in place, and leaves a text that does not start
    with ['.'] as it is.  So a token made of ['.'] and any text [s], followed
    by ["$"], puts the leaf [s] on the stack, also when [s] is the name of an
    operation or empty. *)
Theorem Undot_strips_one_leading_dot :
  forall ev, inv ev ->
    (forall a r rest,
        Data ev = Value a (String "." r) :: rest ->
        Undot ev = Ok tt (set_Data (Value a r :: rest) ev)) /\
    (forall a s rest,
        Data ev = Value a s :: rest ->
        (forall r, s <> String "." r) ->
        Undot ev = Ok tt ev) /\
    (forall s,
        feed Functions [String "." s; "$"] ev
        = Ok tt (mkEvaluator (Value (heap_next ev) s :: Data ev) (Log ev)
                             (ApprovedLevel ev) (S (heap_next ev)))).
Proof.
  intros ev Hinv. split; [|split].
  - intros a r rest E. rewrite (Undot_top a _ rest ev Hinv E). reflexivity.
  - intros a s rest E Hs. rewrite (Undot_top a _ rest ev Hinv E).
    assert (Hu : undot (Value a s) = Value a s).
    { destruct s as [|c r]; [reflexivity|]. cbn [undot].
      destruct (Ascii.eqb_spec c "."); [subst; now destruct (Hs r) | reflexivity]. }
    rewrite Hu, <- E. now destruct ev.
  - intros s. cbn [feed]. unfold bind at 1.
    assert (E1 : EvalCom Functions (String "." s) true true ev
                 = Ok tt (mkEvaluator (Value (heap_next ev) (String "." s) :: Data ev)
                                      (Log ev) (ApprovedLevel ev) (S (heap_next ev)))).
    { apply EvalCom_Ok. unfold EvalCom_try.
      cbn [String.length Nat.ltb Nat.leb]. rewrite lookup_dot. reflexivity. }
    rewrite E1. unfold bind.
    assert (Hinv' : inv (mkEvaluator (Value (heap_next ev) (String "." s) :: Data ev)
                                     (Log ev) (ApprovedLevel ev) (S (heap_next ev)))).
    { pose proof (EvalCom_preserves (String "." s) true true ev Hinv) as Hp.
      now rewrite E1 in Hp. }
    assert (E2 : EvalCom Functions "$" true true
                   (mkEvaluator (Value (heap_next ev) (String "." s) :: Data ev)
                                (Log ev) (ApprovedLevel ev) (S (heap_next ev)))
                 = Ok tt (mkEvaluator (Value (heap_next ev) s :: Data ev)
                                      (Log ev) (ApprovedLevel ev) (S (heap_next ev)))).
    { apply EvalCom_Ok. rewrite (EvalCom_try_registered "$" Undot eq_refl).
      rewrite (Undot_top (heap_next ev) (String "." s) (Data ev) _ Hinv' eq_refl).
      reflexivity. }
    rewrite E2. reflexivity.
Qed.

Lemma Undot_strips_one_leading_dot_witness :
  feed Functions [".^t"; "$"] (new_Evaluator Warning)
  = Ok tt (mkEvaluator [Value 0 "^t"] [] Warning 1).
Proof.
  exact (proj2 (proj2 (Undot_strips_one_leading_dot
                         (new_Evaluator Warning) (inv_new_Evaluator Warning)))
               "^t").
Defined.

(* ================================================================== *)
(** ** [Depth], [Copy] and [Reverse] *)

Lemma fold_left_max (f : BranchBase -> nat) : forall bs acc,
    fold_left (fun mx i => if mx <? f i then f i else mx) bs acc
    = Nat.max acc (list_max (map f bs)).
Proof.
  induction bs as [|b bs IH]; intros acc.
  - cbn. lia.
  - cbn [fold_left map list_max fold_right]. rewrite IH.
    change (fold_right Nat.max 0 (map f bs)) with (list_max (map f bs)).
    destruct (Nat.ltb_spec acc (f b)); lia.
Qed.

Lemma Depth_height n : Depth n = height (value_of n).
Proof.
  induction n as [a s | a bs IH] using BranchBase_rect'.
  - reflexivity.
  - cbn [Depth value_of height]. rewrite (fold_left_max Depth). cbn [Nat.max].
    f_equal. f_equal. rewrite map_map. apply map_ext_in.
    intros x Hx. rewrite Forall_forall in IH. now apply IH.
Qed.

(** X11.  [Depth()] is the height of the tree a node holds: it depends on the
    contents only, it is 0 exactly for a [Value] and at least 1 for a
    [Branch], where it is one more than the largest depth among the
    children.  So the macros [is_value] and [is_branch] tell the two
    subclasses apart. *)
Theorem Depth_is_height_of_contents :
  forall n,
    Depth n = height (value_of n) /\
    (is_value n = true <-> exists a s, n = Value a s) /\
    (is_branch n = true <-> exists a bs, n = Branch a bs) /\
    (forall a bs, n = Branch a bs ->
                  Depth n = S (list_max (map Depth bs))).
Proof.
  intros n. split; [apply Depth_height|]. split; [|split].
  - destruct n; split; intros H; try discriminate; eauto.
    destruct H as (? & ? & H). discriminate.
  - destruct n; split; intros H; try discriminate; eauto.
    destruct H as (? & ? & H). discriminate.
  - intros a bs ->. cbn [Depth]. now rewrite (fold_left_max Depth).
Qed.

(** X12.  [Copy()] returns a node with the contents and the depth of the original
    that is made of new objects only: their addresses are the next free ones,
    one after the other, none occurs twice, and the clone shares no object
    with any node that existed before. *)
Theorem Copy_makes_deep_clone :
  forall n nx,
    let c := fst (Copy_at n nx) in
    let nx' := snd (Copy_at n nx) in
    value_of c = value_of n /\
    Depth c = Depth n /\
    nx < nx' /\
    addrs c = seq nx (nx' - nx) /\
    NoDup (addrs c) /\
    (forall x, Forall (fun a => a < nx) (addrs x) -> disjoint x c).
Proof.
  intros n nx c nx'. subst c nx'.
  pose proof (value_of_Copy_at n nx) as Hv.
  pose proof (addrs_Copy_at n nx) as [Hle Ha].
  split; [exact Hv|]. split; [now rewrite !Depth_height, Hv|].
  assert (Hlt : nx < snd (Copy_at n nx)).
  { destruct (Nat.eq_dec nx (snd (Copy_at n nx))) as [E|E]; [|lia].
    rewrite <- E, Nat.sub_diag in Ha.
    destruct (fst (Copy_at n nx)); discriminate Ha. }
  split; [exact Hlt|]. split; [exact Ha|]. split.
  - rewrite Ha. apply seq_NoDup.
  - intros x Hx a Hin Hin'. rewrite Ha in Hin'. apply in_seq in Hin'.
    rewrite Forall_forall in Hx. apply Hx in Hin. lia.
Qed.

Lemma nth_error_middle {A} (pre : list A) x post :
  nth_error (pre ++ x :: post) (List.length pre) = Some x.
Proof. induction pre; simpl; auto. Qed.

Lemma assign_middle {A} (pre : list A) x y post :
  assign (List.length pre) y (pre ++ x :: post) = pre ++ y :: post.
Proof. induction pre as [|p pre IH]; simpl; [reflexivity | now rewrite IH]. Qed.

Lemma list_two_ends {A} (l : list A) :
  2 <= List.length l -> exists x mid y, l = x :: mid ++ [y].
Proof.
  intros H. destruct l as [|x l]; [simpl in H; lia|].
  destruct (exists_last (l := l)) as (mid & y & ->).
  { intros ->. simpl in H. lia. }
  eauto.
Qed.

Lemma swap_loop_rev {A} : forall n (mid pre post : list A),
    n = List.length mid / 2 ->
    List.length pre = List.length post ->
    (Z.of_nat (List.length pre + n) <= INT_MAX)%Z ->
    swap_loop n (List.length pre) (pre ++ mid ++ post)
    = Some (pre ++ rev mid ++ post).
Proof.
  induction n as [|n IH]; intros mid pre post Hn Hlen Hfit.
  - cbn [swap_loop]. destruct mid as [|x [|y mid]].
    + reflexivity.
    + reflexivity.
    + exfalso. cbn [List.length] in Hn.
      assert (1 <= S (S (List.length mid)) / 2)
        by (apply Nat.div_le_lower_bound; lia). lia.
  - assert (H2 : 2 <= List.length mid).
    { destruct mid as [|x [|y mid]]; cbn in Hn; try discriminate.
      simpl. lia. }
    destruct (list_two_ends mid H2) as (x & m & y & ->).
    assert (EV : pre ++ (x :: m ++ [y]) ++ post = pre ++ x :: (m ++ y :: post)).
    { cbn [app]. now rewrite <- app_assoc. }
    rewrite EV. cbn [swap_loop]. unfold swap.
    rewrite nth_error_middle.
    replace (List.length (pre ++ x :: m ++ y :: post) - 1 - List.length pre)
      with (List.length (pre ++ x :: m)).
    2:{ rewrite !length_app. cbn [List.length]. rewrite !length_app.
        cbn [List.length]. lia. }
    replace (pre ++ x :: m ++ y :: post) with ((pre ++ x :: m) ++ y :: post)
      by (rewrite <- app_assoc; reflexivity).
    rewrite nth_error_middle.
    replace ((pre ++ x :: m) ++ y :: post) with (pre ++ x :: (m ++ y :: post))
      by (rewrite <- app_assoc; reflexivity).
    rewrite assign_middle.
    replace (pre ++ y :: m ++ y :: post) with ((pre ++ y :: m) ++ y :: post)
      by (rewrite <- app_assoc; reflexivity).
    replace (List.length (pre ++ x :: m)) with (List.length (pre ++ y :: m))
      by (rewrite !length_app; reflexivity).
    rewrite assign_middle.
    destruct (Z.ltb_spec (Z.of_nat (List.length pre)) INT_MAX) as [_|Hbad]; [|lia].
    replace ((pre ++ y :: m) ++ x :: post) with ((pre ++ [y]) ++ m ++ (x :: post))
      by (rewrite <- !app_assoc; reflexivity).
    replace (S (List.length pre)) with (List.length (pre ++ [y]))
      by (rewrite length_app; simpl; lia).
    rewrite IH.
    + f_equal. cbn [rev]. rewrite rev_app_distr. cbn [rev app].
      rewrite <- !app_assoc. reflexivity.
    + cbn [List.length] in Hn. rewrite length_app in Hn. cbn [List.length] in Hn.
      replace (S (List.length m + 1)) with (List.length m + 1 * 2) in Hn by lia.
      rewrite Nat.div_add in Hn by lia. lia.
    + rewrite length_app. simpl. lia.
    + rewrite length_app. simpl. lia.
Qed.

Lemma string_rev_list s :
  string_rev s = string_of_list_ascii (rev (list_ascii_of_string s)).
Proof.
  induction s as [|c s IH]; [reflexivity|].
  cbn [string_rev list_ascii_of_string rev]. rewrite IH.
  generalize (rev (list_ascii_of_string s)) as l.
  induction l as [|x l IHl]; [reflexivity|]. cbn. now rewrite IHl.
Qed.

Lemma Reverse_swaps_rev {A} (v : list A) :
  (Z.of_nat (List.length v / 2) <= INT_MAX)%Z -> Reverse_swaps v = Some (rev v).
Proof.
  intros Hfit. unfold Reverse_swaps.
  pose proof (swap_loop_rev (List.length v / 2) v [] [] eq_refl eq_refl) as E.
  cbn [List.length app Nat.add] in E. rewrite !app_nil_r in E. now apply E.
Qed.

Lemma length_string_of_list_ascii l :
  String.length (string_of_list_ascii l) = List.length l.
Proof. induction l; simpl; congruence. Qed.

(** X13.  The [for] loop of [Reverse], which swaps the elements [i] and
    [size - 1 - i] for [i] below [size / 2], leaves the vector of a branch
    and the characters of a text in reverse order (for a vector whose half
    size fits the [int] counter): the function [reverse] used for the
    operation is what the loops compute. *)
Theorem Reverse_swap_loops_reverse :
  (forall (v : list BranchBase),
      (Z.of_nat (List.length v / 2) <= INT_MAX)%Z ->
      Reverse_swaps v = Some (rev v)) /\
  (forall s,
      (Z.of_nat (String.length s / 2) <= INT_MAX)%Z ->
      Reverse_swaps_string s = Some (string_rev s)) /\
  (forall a bs s,
      reverse (Branch a bs) = Branch a (rev bs) /\
      reverse (Value a s) = Value a (string_rev s)).
Proof.
  split; [intros v; apply Reverse_swaps_rev|]. split; [|split; reflexivity].
  intros s Hfit. unfold Reverse_swaps_string. rewrite Reverse_swaps_rev.
  - cbn [option_map]. now rewrite string_rev_list.
  - rewrite <- (string_of_list_ascii_of_string s), length_string_of_list_ascii in Hfit.
    exact Hfit.
Qed.

Lemma Reverse_swap_loops_reverse_witness :
  Reverse_swaps [Value 0 "a"; Value 1 "b"; Value 2 "c"]
  = Some [Value 2 "c"; Value 1 "b"; Value 0 "a"].
Proof.
  apply (proj1 Reverse_swap_loops_reverse [Value 0 "a"; Value 1 "b"; Value 2 "c"]).
  unfold INT_MAX. simpl. lia.
Defined.








(* ================================================================== *)
(** ** Leaves from tokens, [PackTop] *)

Lemma feed_app F : forall a b ev,
    feed F (a ++ b) ev = (feed F a ;; feed F b) ev.
Proof.
  induction a as [|com a IH]; intros b ev.
  - cbn [app feed]. unfold bind, ret. reflexivity.
  - cbn [app feed]. unfold bind in *.
    destruct (EvalCom F com true true ev) as [[] ev'|e ev'|]; [apply IH | reflexivity ..].
Qed.

Lemma EvalCom_literal com log cl ev :
  literal com ->
  EvalCom Functions com log cl ev
  = Ok tt (mkEvaluator (Value (heap_next ev) com :: Data ev) (Log ev)
                       (ApprovedLevel ev) (S (heap_next ev))).
Proof.
  intros [Hne Hl]. apply EvalCom_Ok. unfold EvalCom_try.
  destruct com as [|c com]; [congruence|].
  cbn [String.length Nat.ltb Nat.leb]. rewrite Hl. reflexivity.
Qed.

Lemma feed_literals : forall ts d lg level nx,
    Forall literal ts ->
    feed Functions ts (mkEvaluator d lg level nx)
    = Ok tt (mkEvaluator (rev (Values_at nx ts) ++ d) lg level
                         (nx + List.length ts)).
Proof.
  induction ts as [|t ts IH]; intros d lg level nx Hall.
  - cbn. now rewrite Nat.add_0_r.
  - inversion Hall as [|? ? Ht Hts]; subst.
    cbn [feed]. unfold bind. rewrite (EvalCom_literal t true true _ Ht).
    cbn [Data Log ApprovedLevel heap_next]. rewrite IH by exact Hts.
    cbn [Values_at rev List.length]. rewrite <- app_assoc, Nat.add_succ_r.
    reflexivity.
Qed.

Lemma literal_decimal n : literal (decimal n).
Proof.
  destruct (to_uint_head n) as (c & r & E & Hc). rewrite E. split; [discriminate|].
  now apply lookup_digit.
Qed.

Lemma length_Values_at : forall ts nx, List.length (Values_at nx ts) = List.length ts.
Proof. induction ts; intros nx; simpl; auto. Qed.

Lemma firstn_length_app {A} (l d : list A) : firstn (List.length l) (l ++ d) = l.
Proof. induction l as [|x l IH]; simpl; [now destruct d | now rewrite IH]. Qed.

Lemma skipn_length_app {A} (l d : list A) : skipn (List.length l) (l ++ d) = d.
Proof. induction l as [|x l IH]; simpl; [reflexivity | exact IH]. Qed.

(** X15.  Tokens that are not empty and name no operation are pushed as leaves.
    After [n] such tokens, the numeral of [n] and ["^tc"] leave one branch
    whose children are the leaves of the tokens in the order they were
    given; a separator token and ["$^"] after that leave one leaf with the
    tokens joined by the separator. *)
Theorem literal_tokens_pack_into_a_row :
  forall ts d lg level nx,
    Forall literal ts ->
    (Z.of_nat (List.length ts) <= INT_MAX)%Z ->
    let n := List.length ts in
    feed Functions (ts ++ [decimal n; "^tc"]) (mkEvaluator d lg level nx)
    = Ok tt (mkEvaluator (Branch (S (nx + n)) (Values_at nx ts) :: d) lg level
                         (S (S (nx + n)))) /\
    forall sep,
      literal sep ->
      feed Functions (ts ++ [decimal n; "^tc"; sep; "$^"]) (mkEvaluator d lg level nx)
      = Ok tt (mkEvaluator (Value (S (S (S (nx + n)))) (String.concat sep ts) :: d)
                           lg level (S (S (S (S (nx + n)))))).
Proof.
  intros ts d lg level nx Hall Hfit n. subst n.
  assert (Hpack :
    feed Functions (ts ++ [decimal (List.length ts); "^tc"]) (mkEvaluator d lg level nx)
    = Ok tt (mkEvaluator (Branch (S (nx + List.length ts)) (Values_at nx ts) :: d)
                         lg level (S (S (nx + List.length ts))))).
  { rewrite feed_app. unfold bind at 1. rewrite feed_literals by exact Hall.
    cbn [feed]. unfold bind.
    rewrite (EvalCom_literal _ true true _ (literal_decimal _)).
    cbn [Data Log ApprovedLevel heap_next].
    assert (E : EvalCom Functions "^tc" true true
                  (mkEvaluator (Value (nx + List.length ts) (decimal (List.length ts))
                                  :: rev (Values_at nx ts) ++ d)
                               lg level (S (nx + List.length ts)))
                = Ok tt (mkEvaluator
                           (Branch (S (nx + List.length ts)) (Values_at nx ts) :: d)
                           lg level (S (S (nx + List.length ts))))).
    { apply EvalCom_Ok. rewrite (EvalCom_try_registered "^tc" PackTopX eq_refl).
      rewrite (PackTopX_ok _ _ (Z.of_nat (List.length ts))).
      - rewrite Nat2Z.id.
        assert (Hl : List.length ts = List.length (rev (Values_at nx ts)))
          by now rewrite length_rev, length_Values_at.
        rewrite Hl, firstn_length_app, skipn_length_app.
        now rewrite rev_involutive, <- Hl.
      - rewrite ReadAs_int_decimal. f_equal. unfold clamp_int, INT_MIN, INT_MAX in *.
        destruct (Z.ltb_spec (Z.of_nat (List.length ts)) (-2147483648)); [lia|].
        destruct (Z.ltb_spec 2147483647 (Z.of_nat (List.length ts))); [lia|reflexivity].
      - rewrite length_app, length_rev, length_Values_at. lia. }
    rewrite E. reflexivity. }
  split; [exact Hpack|].
  intros sep Hsep.
  change (ts ++ [decimal (List.length ts); "^tc"; sep; "$^"])
    with (ts ++ [decimal (List.length ts); "^tc"] ++ [sep; "$^"]).
  rewrite app_assoc, feed_app. unfold bind at 1. rewrite Hpack.
  cbn [feed]. unfold bind. rewrite (EvalCom_literal sep true true _ Hsep).
  cbn [Data Log ApprovedLevel heap_next].
  assert (E : EvalCom Functions "$^" true true
                (mkEvaluator (Value (S (S (nx + List.length ts))) sep
                                :: Branch (S (nx + List.length ts)) (Values_at nx ts) :: d)
                             lg level (S (S (S (nx + List.length ts)))))
              = Ok tt (mkEvaluator
                         (Value (S (S (S (nx + List.length ts)))) (String.concat sep ts) :: d)
                         lg level (S (S (S (S (nx + List.length ts))))))).
  { apply EvalCom_Ok. rewrite (EvalCom_try_registered "$^" ConcatRow eq_refl).
    apply ConcatRow_ok. }
  rewrite E. reflexivity.
Qed.

Lemma literal_tokens_pack_into_a_row_witness :
  feed Functions (["x"; "y"; "z"] ++ [decimal 3; "^tc"]) (mkEvaluator [] [] Warning 0)
  = Ok tt (mkEvaluator [Branch 4 (Values_at 0 ["x"; "y"; "z"])] [] Warning 5) /\
  forall sep,
    literal sep ->
    feed Functions (["x"; "y"; "z"] ++ [decimal 3; "^tc"; sep; "$^"])
         (mkEvaluator [] [] Warning 0)
    = Ok tt (mkEvaluator [Value 6 (String.concat sep ["x"; "y"; "z"])] [] Warning 7).
Proof.
  apply (literal_tokens_pack_into_a_row ["x"; "y"; "z"] [] [] Warning 0).
  - repeat constructor; discriminate.
  - unfold INT_MAX. simpl. lia.
Defined.

(** X16.  In a state with the invariant, [PackTop] puts the top node, the object
    itself, into a new branch, whose depth is one more than the depth of the
    node; [UnpackTop] on the result leaves a clone of the node on the rest of
    the stack, which is untouched. *)
Theorem PackTop_UnpackTop_roundtrip :
  forall x rest lg level nx,
    inv (mkEvaluator (x :: rest) lg level nx) ->
    PackTop (mkEvaluator (x :: rest) lg level nx)
    = Ok tt (mkEvaluator (Branch nx [x] :: rest) lg level (S nx)) /\
    Depth (Branch nx [x]) = S (Depth x) /\
    UnpackTop (mkEvaluator (Branch nx [x] :: rest) lg level (S nx))
    = Ok tt (mkEvaluator (fst (Copy_at x (S nx)) :: rest) lg level
                         (snd (Copy_at x (S nx)))) /\
    value_of (fst (Copy_at x (S nx))) = value_of x.
Proof.
  intros x rest lg level nx Hinv.
  split; [reflexivity|]. split.
  { cbn [Depth fold_left]. destruct (Nat.ltb_spec 0 (Depth x)); [reflexivity|].
    f_equal. lia. }
  split; [|apply value_of_Copy_at].
  rewrite UnpackTop_ok. cbn [Copy_all].
  pose proof (addrs_Copy_at x (S nx)) as [Hle Ha].
  destruct (Copy_at x (S nx)) as [x' nx'] eqn:Ex. cbn [fst snd rev app] in *.
  f_equal. f_equal. apply map_update_absent.
  apply inv_NoDup in Hinv as [_ Hf]. cbn [Data heap_next] in Hf.
  rewrite Forall_forall in Hf.
  change (flat_map addrs (x' :: rest)) with (addrs x' ++ flat_map addrs rest).
  intros Hin. apply in_app_or in Hin as [Hin|Hin].
  - rewrite Ha in Hin. apply in_seq in Hin. lia.
  - specialize (Hf nx). unfold footprint in Hf. cbn [flat_map] in Hf.
    assert (nx < nx); [|lia]. apply Hf. apply in_or_app. now right.
Qed.

Lemma PackTop_UnpackTop_roundtrip_witness :
  PackTop (mkEvaluator [Value 0 "x"] [] Warning 1)
  = Ok tt (mkEvaluator [Branch 1 [Value 0 "x"]] [] Warning 2) /\
  Depth (Branch 1 [Value 0 "x"]) = S (Depth (Value 0 "x")) /\
  UnpackTop (mkEvaluator [Branch 1 [Value 0 "x"]] [] Warning 2)
  = Ok tt (mkEvaluator [fst (Copy_at (Value 0 "x") 2)] [] Warning
                       (snd (Copy_at (Value 0 "x") 2))) /\
  value_of (fst (Copy_at (Value 0 "x") 2)) = value_of (Value 0 "x").
Proof.
  apply (PackTop_UnpackTop_roundtrip (Value 0 "x") [] [] Warning 1).
  apply inv_NoDup. cbn. split; [repeat constructor; intros []|repeat constructor].
Defined.

(* ================================================================== *)
(** ** [ConcatRow] and the pieces of [SplitRow] *)

Lemma ConcatRow_loop_spec space : forall bs f str ev,
    ConcatRow_loop space bs f str ev
    = Ok match leaf_texts bs with
         | [] => str
         | t :: ts =>
             fold_left (fun acc t => ((acc ++ space) ++ t)%string) ts
                       ((if f then str ++ space else str) ++ t)%string
         end ev.
Proof.
  induction bs as [|[a s|a cs] bs IH]; intros f str ev.
  - reflexivity.
  - cbn [ConcatRow_loop Depth Nat.eqb]. unfold bind. cbn [Stored_of ret].
    rewrite IH. cbn [leaf_texts flat_map app].
    change (flat_map _ bs) with (leaf_texts bs).
    destruct (leaf_texts bs); reflexivity.
  - cbn [ConcatRow_loop Depth Nat.eqb]. rewrite IH. reflexivity.
Qed.

Lemma ConcatRow_general a space b bs data lg level nx :
  ConcatRow (mkEvaluator (Value a space :: Branch b bs :: data) lg level nx)
  = Ok tt (mkEvaluator (Value nx (String.concat space (leaf_texts bs)) :: data)
                       lg level (S nx)).
Proof.
  unfold ConcatRow, RequireValueTop, RequireBranchTop, bind.
  rewrite RequireTop_1_cons. step. unfold set_Data. step.
  rewrite RequireTop_1_cons. step. rewrite ConcatRow_loop_spec.
  destruct (leaf_texts bs) as [|t ts]; [reflexivity|].
  rewrite <- (concat_fold space ts t ""). reflexivity.
Qed.

(** X17.  [ConcatRow] pops the separator leaf and the branch under it and pushes
    one new leaf: the texts of the children of the branch that are leaves,
    in order, with the separator between them.  Children that are branches
    are skipped.  A leaf in place of the branch raises
    ["Value as branch argument"] after the separator was popped; a missing
    branch raises ["Required argument, but not passed"] likewise; a branch in
    place of the separator raises ["Branch as value argument"] with the stack
    as it was. *)
Theorem ConcatRow_joins_leaf_children :
  (forall a space b bs data lg level nx,
      ConcatRow (mkEvaluator (Value a space :: Branch b bs :: data) lg level nx)
      = Ok tt (mkEvaluator
                 (Value nx (String.concat space (leaf_texts bs)) :: data)
                 lg level (S nx))) /\
  (forall a space a2 s2 data lg level nx,
      ConcatRow (mkEvaluator (Value a space :: Value a2 s2 :: data) lg level nx)
      = Throw (Wraped "Value as branch argument" Critical)
              (mkEvaluator (Value a2 s2 :: data) lg level nx)) /\
  (forall a space lg level nx,
      ConcatRow (mkEvaluator [Value a space] lg level nx)
      = Throw (Wraped "Required argument, but not passed" Critical)
              (mkEvaluator [] lg level nx)) /\
  (forall a bs data lg level nx,
      ConcatRow (mkEvaluator (Branch a bs :: data) lg level nx)
      = Throw (Wraped "Branch as value argument" Critical)
              (mkEvaluator (Branch a bs :: data) lg level nx)).
Proof.
  split; [exact ConcatRow_general|]. split; [|split].
  - intros. unfold ConcatRow, RequireValueTop, RequireBranchTop, bind.
    rewrite RequireTop_1_cons. step. unfold set_Data. step.
    rewrite RequireTop_1_cons. reflexivity.
  - intros. unfold ConcatRow, RequireValueTop, RequireBranchTop, bind.
    rewrite RequireTop_1_cons. reflexivity.
  - intros. unfold ConcatRow, RequireValueTop, bind.
    rewrite RequireTop_1_cons. reflexivity.
Qed.

Lemma substring_prefix_of : forall s n j k,
    j + k <= n -> substring j k (substring 0 n s) = substring j k s.
Proof.
  induction s as [|c s IH]; intros n j k H.
  - destruct n; reflexivity.
  - destruct n as [|n].
    + assert (j = 0) by lia. assert (k = 0) by lia. subst. reflexivity.
    + cbn [substring]. destruct j as [|j].
      * destruct k as [|k]; [reflexivity|]. cbn [substring]. f_equal.
        apply IH. lia.
      * cbn [substring]. apply IH. lia.
Qed.

Lemma substring_substring : forall s p n j k,
    j + k <= n -> substring j k (substring p n s) = substring (p + j) k s.
Proof.
  induction s as [|c s IH]; intros p n j k H.
  - assert (E : forall a b, substring a b "" = "") by (intros [|?] [|?]; reflexivity).
    now rewrite !E.
  - destruct p as [|p].
    + now apply substring_prefix_of.
    + cbn [substring Nat.add]. now apply IH.
Qed.

Section Pieces.
Variables value split : string.
Hypothesis split_nonempty : split <> EmptyString.
Hypothesis value_fits : (Z.of_nat (String.length value) <= INT_MAX)%Z.

Local Abbreviation L := (String.length value).
Local Abbreviation k := (String.length split).

Local Ltac fits := let Hfit := fresh in pose proof value_fits as Hfit; unfold SIZE_MOD, npos, SIZE_MOD, INT_MAX in *; lia.

Lemma split_length : 1 <= k.
Proof. destruct split; [now destruct split_nonempty | simpl; lia]. Qed.

Lemma piece_before_match p m :
  String.index p split value = Some m ->
  String.index 0 split (substring p (m - p) value) = None.
Proof.
  intros E. pose proof split_length as Hk.
  destruct (String.index 0 split (substring p (m - p) value)) as [j|] eqn:Ej;
    [exfalso | reflexivity].
  pose proof (index_fits _ _ _ _ Ej split_nonempty) as Hj.
  rewrite length_substring in Hj.
  apply index_correct1 in Ej. rewrite substring_substring in Ej by lia.
  apply (index_correct2 _ _ _ _ E (p + j)); [lia | lia | exact Ej].
Qed.

Lemma piece_after_last_match p :
  String.index p split value = None ->
  String.index 0 split (substring p (L - p) value) = None.
Proof.
  intros E. pose proof split_length as Hk.
  destruct (String.index 0 split (substring p (L - p) value)) as [j|] eqn:Ej;
    [exfalso | reflexivity].
  pose proof (index_fits _ _ _ _ Ej split_nonempty) as Hj.
  rewrite length_substring in Hj.
  apply index_correct1 in Ej. rewrite substring_substring in Ej by lia.
  apply (index_correct3 _ (p + j) _ _ E split_nonempty); [lia | exact Ej].
Qed.

Lemma SplitRow_loop_pieces : forall fuel p r d lg level nx,
    p <= L -> L - p < fuel ->
    exists segs,
      segs <> [] /\
      String.concat split segs = substring p (L - p) value /\
      Forall (fun s => String.index 0 split s = None) segs /\
      SplitRow_loop fuel value split (Z.of_nat p)
                    (next_match value split (Z.of_nat p)) r
                    (mkEvaluator d lg level nx)
      = Ok (r ++ Values_at nx segs)
           (mkEvaluator d lg level (nx + List.length segs)).
Proof.
  induction fuel as [|fuel IH]; intros p r d lg level nx Hp Hf; [lia|].
  rewrite (next_match_spec value split split_nonempty value_fits) by exact Hp.
  cbn [SplitRow_loop].
  pose proof split_length as Hk.
  destruct (String.index p split value) as [m|] eqn:E.
  - pose proof (index_fits _ _ _ _ E split_nonempty) as Hm.
    pose proof (index_ge _ _ _ _ E) as Hpm.
    rewrite (to_size_small (Z.of_nat m)) by fits.
    destruct (Z.eqb_spec (Z.of_nat m) (Z.of_nat L)) as [H|_]; [lia|].
    rewrite (to_size_small (Z.of_nat p)) by fits.
    rewrite (to_size_small (Z.of_nat m - Z.of_nat p)) by fits.
    rewrite (to_size_small (Z.of_nat m + Z.of_nat k)) by fits.
    rewrite to_int_small by fits.
    replace (Z.of_nat m + Z.of_nat k)%Z with (Z.of_nat (m + k)) by lia.
    destruct (IH (m + k) (r ++ [Value nx (substring p (m - p) value)])
                 d lg level (S nx)) as (segs & Hne & Hc & Hall & Hrun); [lia | lia |].
    exists (substring p (m - p) value :: segs). split; [discriminate|].
    split; [|split].
    + cbn [String.concat]. destruct segs as [|s segs]; [congruence|].
      rewrite Hc.
      replace (L - p) with ((m - p) + (k + (L - (m + k)))) by lia.
      rewrite substring_split. f_equal.
      replace (p + (m - p)) with m by lia.
      rewrite substring_split. f_equal.
      symmetry. apply (index_correct1 _ _ _ _ E).
    + constructor; [now apply piece_before_match | exact Hall].
    + unfold bind, substr.
      destruct (Z.ltb_spec (Z.of_nat L) (Z.of_nat p)); [lia|].
      cbn [ret alloc heap_next set_next Data Log ApprovedLevel].
      replace (Z.to_nat (Z.of_nat m - Z.of_nat p)) with (m - p) by lia.
      rewrite Nat2Z.id. unfold set_next. cbn [Data Log ApprovedLevel].
      rewrite Hrun. rewrite <- app_assoc.
      cbn [app Values_at List.length].
      now rewrite Nat.add_succ_r.
  - exists [substring p (L - p) value]. split; [discriminate|].
    split; [reflexivity|]. split.
    { constructor; [now apply piece_after_last_match | constructor]. }
    rewrite (to_size_small (Z.of_nat L)) by fits.
    rewrite Z.eqb_refl.
    rewrite (to_size_small (Z.of_nat p)) by fits.
    rewrite (to_size_small (Z.of_nat L - Z.of_nat p)) by fits.
    unfold bind, substr.
    destruct (Z.ltb_spec (Z.of_nat L) (Z.of_nat p)); [lia|].
    cbn [ret alloc heap_next set_next Data Log ApprovedLevel].
    replace (Z.to_nat (Z.of_nat L - Z.of_nat p)) with (L - p) by lia.
    rewrite Nat2Z.id. unfold set_next. cbn [Data Log ApprovedLevel].
    cbn [Values_at List.length]. now rewrite Nat.add_1_r.
Qed.
End Pieces.

Lemma SplitRow_head a1 a2 c split value data lg level nx :
  SplitRow (mkEvaluator (Value a1 (String c split) :: Value a2 value :: data)
                        lg level nx)
  = (bs <- SplitRow_loop (S (String.length value)) value (String c split) 0
                         (next_match value (String c split) 0) [] ;;
     push (Branch nx bs)) (mkEvaluator data lg level (S nx)).
Proof.
  unfold SplitRow, RequireValueTop, bind.
  rewrite RequireTop_1_cons. step.
  cbn [String.length Nat.eqb throw_if ret]. step.
  unfold set_Data. step. rewrite RequireTop_1_cons. step.
  reflexivity.
Qed.

(** X18.  For a separator that is not empty and a source text whose length fits
    [int], [SplitRow] returns a branch of at least one leaf; the texts of
    the leaves joined by the separator give the source text, and no leaf
    text contains the separator. *)
Theorem SplitRow_pieces_hold_no_separator :
  forall a1 a2 split value data lg level nx,
    split <> EmptyString ->
    (Z.of_nat (String.length value) <= INT_MAX)%Z ->
    exists segs,
      SplitRow (mkEvaluator (Value a1 split :: Value a2 value :: data) lg level nx)
      = Ok tt (mkEvaluator (Branch nx (Values_at (S nx) segs) :: data) lg level
                           (S nx + List.length segs)) /\
      segs <> [] /\
      String.concat split segs = value /\
      Forall (fun s => String.index 0 split s = None) segs.
Proof.
  intros a1 a2 split value data lg level nx Hne Hfit.
  destruct (SplitRow_loop_pieces value split Hne Hfit (S (String.length value)) 0 []
              data lg level (S nx)) as (segs & Hn & Hc & Hall & Hrun); [lia | lia |].
  exists segs. split; [|split; [exact Hn|split; [|exact Hall]]].
  - destruct split as [|c split]; [congruence|].
    rewrite SplitRow_head. unfold bind.
    change 0%Z with (Z.of_nat 0). rewrite Hrun. reflexivity.
  - rewrite Hc, Nat.sub_0_r. apply substring_all.
Qed.

Lemma SplitRow_pieces_hold_no_separator_witness :
  exists segs,
    SplitRow (mkEvaluator [Value 1 "--"; Value 0 "a---b"] [] Warning 2)
    = Ok tt (mkEvaluator [Branch 2 (Values_at 3 segs)] [] Warning
                         (3 + List.length segs)) /\
    segs <> [] /\
    String.concat "--" segs = "a---b" /\
    Forall (fun s => String.index 0 "--" s = None) segs.
Proof.
  apply (SplitRow_pieces_hold_no_separator 1 0 "--" "a---b" [] [] Warning 2).
  - discriminate.
  - unfold INT_MAX. simpl. lia.
Defined.

(* ================================================================== *)
(** ** [ConcatRow] followed by [SplitRow] *)

Lemma length_append (a b : string) :
  String.length (a ++ b) = String.length a + String.length b.
Proof. induction a as [|c a IH]; simpl; [reflexivity | now rewrite IH]. Qed.

Lemma substring_app_skip : forall (a b : string) n m,
    substring (String.length a + n) m (a ++ b) = substring n m b.
Proof. induction a as [|c a IH]; intros b n m; simpl; [reflexivity | apply IH]. Qed.

Lemma substring_app_prefix : forall (a b : string),
    substring 0 (String.length a) (a ++ b) = a.
Proof.
  induction a as [|c a IH]; intros b; simpl.
  - now destruct b.
  - now rewrite IH.
Qed.

Lemma substring_head_in : forall (t X : string) j n,
    j < String.length t ->
    exists ch r, substring j (S n) (t ++ X) = String ch r /\
                 In ch (list_ascii_of_string t).
Proof.
  induction t as [|c t IH]; intros X j n Hj; [simpl in Hj; lia|].
  destruct j as [|j].
  - cbn. eauto.
  - cbn [append substring]. destruct (IH X j n) as (ch & r & E & Hin).
    { simpl in Hj. lia. }
    exists ch, r. split; [exact E|]. now right.
Qed.

Section Join.
Variable c : ascii.
Variable sep' : string.
Local Abbreviation sep := (String c sep').

Lemma no_match_inside pre t X m :
  ~ In c (list_ascii_of_string t) ->
  String.length pre <= m < String.length pre + String.length t ->
  substring m (String.length sep) (pre ++ t ++ X) <> sep.
Proof.
  intros Hc Hm E.
  replace m with (String.length pre + (m - String.length pre)) in E by lia.
  rewrite substring_app_skip in E.
  destruct (substring_head_in t X (m - String.length pre) (String.length sep'))
    as (ch & r & E' & Hin); [lia|].
  cbn [String.length] in E. rewrite E' in E. injection E as -> _. auto.
Qed.

Lemma index_at_separator pre t rest :
  ~ In c (list_ascii_of_string t) ->
  String.index (String.length pre) sep (pre ++ t ++ sep ++ rest)
  = Some (String.length pre + String.length t).
Proof.
  intros Hc.
  assert (Hat : substring (String.length pre + String.length t) (String.length sep)
                          (pre ++ t ++ sep ++ rest) = sep).
  { rewrite substring_app_skip.
    replace (String.length t) with (String.length t + 0) by lia.
    rewrite substring_app_skip. apply substring_app_prefix. }
  destruct (String.index (String.length pre) sep (pre ++ t ++ sep ++ rest))
    as [m|] eqn:E.
  - f_equal. pose proof (index_ge _ _ _ _ E) as Hge.
    destruct (Nat.lt_trichotomy m (String.length pre + String.length t))
      as [Hlt|[Heq|Hgt]]; [exfalso | exact Heq | exfalso].
    + apply index_correct1 in E.
      now apply (no_match_inside pre t (sep ++ rest) m Hc).
    + apply (index_correct2 _ _ _ _ E (String.length pre + String.length t));
        [lia | exact Hgt | exact Hat].
  - exfalso.
    apply (index_correct3 _ (String.length pre + String.length t) _ _ E);
      [discriminate | lia | exact Hat].
Qed.

Lemma index_in_last pre t :
  ~ In c (list_ascii_of_string t) ->
  String.index (String.length pre) sep (pre ++ t) = None.
Proof.
  intros Hc.
  destruct (String.index (String.length pre) sep (pre ++ t)) as [m|] eqn:E;
    [exfalso | reflexivity].
  pose proof (index_ge _ _ _ _ E) as Hge.
  pose proof (index_fits _ _ _ _ E ltac:(discriminate)) as Hfit.
  rewrite length_append in Hfit. cbn [String.length] in Hfit.
  apply index_correct1 in E.
  rewrite <- (append_empty_r t) in E.
  apply (no_match_inside pre t "" m Hc); [lia | exact E].
Qed.

Lemma SplitRow_loop_joined : forall ts t pre fuel r d lg level nx,
    Forall (fun t => ~ In c (list_ascii_of_string t)) (t :: ts) ->
    let value := (pre ++ String.concat sep (t :: ts))%string in
    (Z.of_nat (String.length value) <= INT_MAX)%Z ->
    List.length ts < fuel ->
    SplitRow_loop fuel value sep (Z.of_nat (String.length pre))
                  (next_match value sep (Z.of_nat (String.length pre))) r
                  (mkEvaluator d lg level nx)
    = Ok (r ++ Values_at nx (t :: ts))
         (mkEvaluator d lg level (nx + List.length (t :: ts))).
Proof.
  induction ts as [|t' ts IH]; intros t pre fuel r d lg level nx Hall value Hfit Hfuel.
  - subst value. cbn [String.concat] in *.
    destruct fuel as [|fuel]; [lia|].
    assert (Hlen : String.length (pre ++ t) = String.length pre + String.length t)
      by apply length_append.
    rewrite (next_match_spec _ sep ltac:(discriminate) Hfit) by lia.
    rewrite index_in_last by now inversion Hall.
    cbn [SplitRow_loop].
    rewrite (to_size_small (Z.of_nat (String.length (pre ++ t))))
      by (unfold SIZE_MOD, INT_MAX in *; lia).
    rewrite Z.eqb_refl.
    rewrite (to_size_small (Z.of_nat (String.length pre)))
      by (unfold SIZE_MOD, INT_MAX in *; lia).
    rewrite to_size_small by (unfold SIZE_MOD, INT_MAX in *; lia).
    unfold bind, substr.
    destruct (Z.ltb_spec (Z.of_nat (String.length (pre ++ t)))
                         (Z.of_nat (String.length pre))); [lia|].
    cbn [ret alloc heap_next set_next Data Log ApprovedLevel].
    rewrite Nat2Z.id.
    replace (Z.to_nat (Z.of_nat (String.length (pre ++ t)) - Z.of_nat (String.length pre)))
      with (String.length t) by lia.
    pose proof (substring_app_skip pre t 0 (String.length t)) as Es.
    rewrite Nat.add_0_r in Es. rewrite Es.
    pose proof (substring_app_prefix t "") as Et.
    rewrite append_empty_r in Et. rewrite Et.
    unfold set_next. cbn [Data Log ApprovedLevel Values_at List.length].
    now rewrite Nat.add_1_r.
  - subst value.
    change (String.concat sep (t :: t' :: ts))
      with (t ++ sep ++ String.concat sep (t' :: ts))%string in *.
    set (rest := String.concat sep (t' :: ts)) in *.
    destruct fuel as [|fuel]; [lia|].
    assert (Hlen : String.length (pre ++ t ++ sep ++ rest)
                   = String.length pre + String.length t + String.length sep
                     + String.length rest)
      by (rewrite !length_append; lia).
    assert (Hk : 1 <= String.length sep) by (simpl; lia).
    rewrite (next_match_spec _ sep ltac:(discriminate) Hfit) by lia.
    rewrite index_at_separator by now inversion Hall.
    cbn [SplitRow_loop].
    rewrite (to_size_small (Z.of_nat (String.length pre + String.length t)))
      by (unfold SIZE_MOD, INT_MAX in *; lia).
    destruct (Z.eqb_spec (Z.of_nat (String.length pre + String.length t))
                         (Z.of_nat (String.length (pre ++ t ++ sep ++ rest))))
      as [Hbad|_]; [lia|].
    rewrite (to_size_small (Z.of_nat (String.length pre)))
      by (unfold SIZE_MOD, INT_MAX in *; lia).
    rewrite (to_size_small (_ - _)) by (unfold SIZE_MOD, INT_MAX in *; lia).
    rewrite (to_size_small (_ + _)) by (unfold SIZE_MOD, INT_MAX in *; lia).
    rewrite to_int_small by (unfold INT_MAX in *; lia).
    unfold bind, substr.
    destruct (Z.ltb_spec (Z.of_nat (String.length (pre ++ t ++ sep ++ rest)))
                         (Z.of_nat (String.length pre))); [lia|].
    cbn [ret alloc heap_next set_next Data Log ApprovedLevel].
    rewrite Nat2Z.id.
    replace (Z.to_nat (Z.of_nat (String.length pre + String.length t)
                       - Z.of_nat (String.length pre)))
      with (String.length t) by lia.
    pose proof (substring_app_skip pre (t ++ sep ++ rest) 0 (String.length t)) as Es.
    rewrite Nat.add_0_r in Es. rewrite Es, substring_app_prefix.
    unfold set_next. cbn [Data Log ApprovedLevel].
    replace (Z.of_nat (String.length pre + String.length t) + Z.of_nat (String.length sep))%Z
      with (Z.of_nat (String.length (pre ++ t ++ sep))).
    2:{ rewrite !length_append. lia. }
    replace (pre ++ t ++ sep ++ rest)%string with ((pre ++ t ++ sep) ++ rest)%string
      by (rewrite !append_assoc'; reflexivity).
    subst rest. rewrite IH.
    + rewrite <- app_assoc. cbn [app Values_at List.length].
      do 2 f_equal. lia.
    + now inversion Hall.
    + rewrite !append_assoc'. exact Hfit.
    + simpl in Hfuel. lia.
Qed.
End Join.

Lemma length_concat_ge c sep' : forall ts t,
    List.length ts <= String.length (String.concat (String c sep') (t :: ts)).
Proof.
  induction ts as [|t' ts IH]; intros t; [simpl; lia|].
  change (String.concat (String c sep') (t :: t' :: ts))
    with (t ++ String c sep' ++ String.concat (String c sep') (t' :: ts))%string.
  rewrite !length_append. specialize (IH t'). cbn [String.length List.length]. lia.
Qed.

Lemma value_of_Values_at : forall texts n,
    map value_of (Values_at n texts) = map Leaf texts.
Proof. induction texts as [|t ts IH]; intros n; simpl; [reflexivity | now rewrite IH]. Qed.

(** X19.  When the first character of the separator occurs in none of the leaf
    children of a branch, the branch has a leaf child, and the joined text
    has at most [INT_MAX] characters (its length fits the [int] positions of
    [SplitRow]): [ConcatRow] and then, with the separator pushed again,
    [SplitRow] give back a branch whose children are leaves with the texts
    of those leaf children, in order. *)
Theorem ConcatRow_SplitRow_roundtrip :
  forall c sep' a1 a2 b bs data lg level nx,
    let sep := String c sep' in
    leaf_texts bs <> [] ->
    Forall (fun t => ~ In c (list_ascii_of_string t)) (leaf_texts bs) ->
    (Z.of_nat (String.length (String.concat sep (leaf_texts bs))) <= INT_MAX)%Z ->
    exists ev1 ev2,
      ConcatRow (mkEvaluator (Value a1 sep :: Branch b bs :: data) lg level nx)
      = Ok tt ev1 /\
      SplitRow (set_Data (Value a2 sep :: Data ev1) ev1) = Ok tt ev2 /\
      map value_of (Data ev2)
      = Node (map Leaf (leaf_texts bs)) :: map value_of data /\
      Log ev2 = lg.
Proof.
  intros c sep' a1 a2 b bs data lg level nx sep Hne Hall Hfit. subst sep.
  pose proof (ConcatRow_general a1 (String c sep') b bs data lg level nx) as Hcat.
  destruct (leaf_texts bs) as [|t ts] eqn:Et; [congruence|].
  eexists. eexists. split; [exact Hcat|].
  unfold set_Data. cbn [Data Log ApprovedLevel heap_next].
  rewrite SplitRow_head. unfold bind.
  pose proof (SplitRow_loop_joined c sep' ts t "" (S (String.length
                (String.concat (String c sep') (t :: ts)))) [] data lg level
                (S (S nx)) Hall) as Hrun.
  cbv zeta in Hrun. cbn [append String.length] in Hrun.
  change (Z.of_nat 0) with 0%Z in Hrun.
  rewrite Hrun.
  - cbn [push Data]. unfold set_Data. cbn [Data Log ApprovedLevel heap_next].
    split; [reflexivity|]. split; [|reflexivity].
    unfold set_Data. cbn [Data app]. cbn [map]. f_equal.
    change (value_of (Branch (S nx) (Values_at (S (S nx)) (t :: ts))))
      with (Node (map value_of (Values_at (S (S nx)) (t :: ts)))).
    now rewrite value_of_Values_at.
  - exact Hfit.
  - pose proof (length_concat_ge c sep' ts t). lia.
Qed.

Lemma ConcatRow_SplitRow_roundtrip_witness :
  exists ev1 ev2,
    ConcatRow (mkEvaluator
                 [Value 4 ", "; Branch 3 [Value 0 "a"; Value 1 ""; Value 2 "b c"]]
                 [] Warning 5) = Ok tt ev1 /\
    SplitRow (set_Data (Value 9 ", " :: Data ev1) ev1) = Ok tt ev2 /\
    map value_of (Data ev2)
    = Node (map Leaf (leaf_texts [Value 0 "a"; Value 1 ""; Value 2 "b c"]))
      :: map value_of [] /\
    Log ev2 = [].
Proof.
  apply (ConcatRow_SplitRow_roundtrip
           "," " " 4 9 3 [Value 0 "a"; Value 1 ""; Value 2 "b c"] [] [] Warning 5).
  - discriminate.
  - repeat constructor; simpl; intuition discriminate.
  - unfold INT_MAX. simpl. lia.
Defined.

(* ================================================================== *)
(** ** [ExtractGroupedColumnPack] *)

Lemma wf_levels_mono nx nx' : nx <= nx' ->
  forall levels, wf_levels nx levels -> wf_levels nx' levels.
Proof.
  intros Hle. induction levels as [|l outer IH]; [auto|].
  cbn [wf_levels]. intros (H1 & H2 & H3 & H4). repeat split; auto; [lia|].
  eapply Forall_impl; [|exact H2]. intros a Ha. cbv beta in Ha. lia.
Qed.

Lemma wf_levels_bound nx : forall levels,
    wf_levels nx levels -> Forall (fun a => a < nx) (outer_addrs levels).
Proof.
  induction levels as [|l outer IH]; intros H; [constructor|].
  cbn [wf_levels] in H. destruct H as (H1 & H2 & _ & H4).
  unfold outer_addrs. cbn [flat_map]. constructor; [exact H1|].
  apply Forall_app. split; [exact H2 | now apply IH].
Qed.

Lemma update_close o f : forall outer n n',
    update o f n = n' -> ~ In o (outer_addrs outer) ->
    update o f (close n outer) = close n' outer.
Proof.
  induction outer as [|[o' dn] outer IH]; intros n n' Hn Hout; [exact Hn|].
  cbn [close fst snd]. apply IH.
  - unfold outer_addrs in Hout. cbn [flat_map fst snd] in Hout.
    cbn [update addr_of].
    destruct (Nat.eqb_spec o' o) as [E|E]; [exfalso; apply Hout; now left|].
    f_equal. rewrite map_app. cbn [map]. rewrite Hn. f_equal.
    apply map_update_absent. intros Hin. apply Hout. right.
    apply in_or_app. now left.
  - intros Hin. apply Hout. unfold outer_addrs. cbn [flat_map].
    right. apply in_or_app. now right.
Qed.

Lemma update_close_push_back o done x outer :
  ~ In o (outer_addrs outer) ->
  update o (push_back x) (close (Branch o done) outer)
  = close (Branch o (done ++ [x])) outer.
Proof.
  intros H. apply update_close; [|exact H].
  cbn [update addr_of]. now rewrite Nat.eqb_refl.
Qed.

Lemma addrs_close_app : forall outer n n' extra,
    addrs n' = addrs n ++ extra ->
    addrs (close n' outer) = addrs (close n outer) ++ extra.
Proof.
  induction outer as [|[o dn] outer IH]; intros n n' extra H; [exact H|].
  cbn [close fst snd]. apply IH. cbn [addrs].
  rewrite !flat_map_app. cbn [flat_map]. rewrite !app_nil_r, H.
  cbn [app]. now rewrite app_assoc.
Qed.

Lemma seq_join a b c : a <= b -> b <= c ->
  seq a (b - a) ++ seq b (c - b) = seq a (c - a).
Proof.
  intros H1 H2. replace (c - a) with ((b - a) + (c - b)) by lia.
  rewrite seq_app. now replace (a + (b - a)) with b by lia.
Qed.

Section Grouped.
Variable index : Z.
Hypothesis index_int : (INT_MIN <= index <= INT_MAX)%Z.

Lemma frame_groups_enter k child :
  frame_groups index k (child, 0) = groups index k child.
Proof.
  unfold frame_groups. destruct child as [a s | a bs]; cbn [fst snd].
  - reflexivity.
  - destruct k as [|k]; [|reflexivity].
    cbn [groups]. destruct bs as [|b bs]; [|reflexivity].
    cbn. destruct (0 <=? index)%Z; [|reflexivity].
    now destruct (Z.to_nat index).
Qed.

Lemma frame_groups_done k a bs c :
  List.length bs <= c -> frame_groups index k (Branch a bs, c) = [].
Proof.
  intros H. unfold frame_groups. cbn [fst snd]. destruct k.
  - destruct (Nat.ltb_spec c (List.length bs)); [lia | reflexivity].
  - now rewrite skipn_all2.
Qed.

Variable Dn : nat.
Hypothesis Dn_pos : 1 <= Dn.
Hypothesis Dn_int : (Z.of_nat Dn <= INT_MAX)%Z.

Lemma frame_work_pos f : 1 <= frame_work f.
Proof. unfold frame_work. destruct (fst f); lia. Qed.

Lemma Grouped_loop_fuel : forall fuel f fs o done outer k d lg level nx,
    Forall good_frame (f :: fs) ->
    List.length fs = List.length outer ->
    S (List.length fs) + k = Dn ->
    wf_levels nx ((o, done) :: outer) ->
    list_sum (map frame_work (f :: fs)) < fuel ->
    exists nb nx',
      Grouped_loop fuel index (Z.of_nat Dn) (map fst (f :: fs)) (map snd (f :: fs))
                   (o :: map fst outer) (close (Branch o done) outer)
                   (mkEvaluator d lg level nx)
      = Ok nb (mkEvaluator d lg level nx') /\
      value_of nb
      = finish_outer index (S k) (Node (map value_of done ++ frame_groups index k f))
                     fs outer /\
      nx <= nx' /\
      addrs nb = addrs (close (Branch o done) outer) ++ seq nx (nx' - nx).
Proof.
  induction fuel as [|fuel IH];
    intros [b c] fs o done outer k d lg level nx Hfs Hlo Hlen Hwf Hfuel; [lia|].
  apply Forall_cons_iff in Hfs as [[Hb Hsm] Hfs']. cbn [fst] in Hb, Hsm.
  destruct b as [a s | a bs]; [discriminate Hb|].
  change (frame_work (Branch a bs, c) + list_sum (map frame_work fs) < S fuel)
    in Hfuel.
  (* what happens once the top frame is popped *)
  assert (Hpop : forall done' nx1,
             wf_levels nx1 ((o, done') :: outer) ->
             exists nb nx',
               Grouped_loop fuel index (Z.of_nat Dn) (map fst fs) (map snd fs)
                            (map fst outer) (close (Branch o done') outer)
                            (mkEvaluator d lg level nx1)
               = Ok nb (mkEvaluator d lg level nx') /\
               value_of nb
               = finish_outer index (S k) (Node (map value_of done')) fs outer /\
               nx1 <= nx' /\
               addrs nb
               = addrs (close (Branch o done') outer) ++ seq nx1 (nx' - nx1)).
  { intros done' nx1 Hwf1.
    pose proof (frame_work_pos (Branch a bs, c)) as Hpos.
    destruct fs as [|f2 fs2], outer as [|[o2 done2] outer2]; try discriminate Hlo.
    - destruct fuel as [|fuel]; [cbn [map list_sum] in Hfuel; lia|].
      exists (Branch o done'), nx1. split; [reflexivity|]. split; [reflexivity|].
      split; [lia|]. rewrite Nat.sub_diag. cbn [close seq]. now rewrite app_nil_r.
    - cbn [close fst snd].
      cbn [wf_levels fst snd] in Hwf1.
      destruct Hwf1 as (Ho & Hd' & Hno & Ho2 & Hd2 & Hno2 & Hwf2).
      destruct (IH f2 fs2 o2 (done2 ++ [Branch o done']) outer2 (S k) d lg level nx1)
        as (nb & nx' & Hrun & Hval & Hle & Hadr).
      + exact Hfs'.
      + cbn [List.length] in Hlo. lia.
      + cbn [List.length] in Hlen. lia.
      + cbn [wf_levels fst snd]. repeat split; auto.
        rewrite flat_map_app. apply Forall_app. split; [exact Hd2|].
        cbn [flat_map addrs]. rewrite app_nil_r. constructor; assumption.
      + cbn [map list_sum] in Hfuel |- *. lia.
      + exists nb, nx'. split; [exact Hrun|]. split; [|split; assumption].
        rewrite Hval.
        cbn [finish_outer fst snd]. rewrite map_app. cbn [map value_of].
        now rewrite <- app_assoc. }
  unfold frame_work at 1 in Hfuel. cbn [fst snd] in Hfuel.
  cbn [map fst snd Grouped_loop]. unfold bind at 1. cbn [Branches_of ret].
  destruct (Nat.leb_spec (List.length bs) c) as [Hc|Hc].
  - rewrite frame_groups_done by exact Hc. rewrite app_nil_r.
    apply Hpop. exact Hwf.
  - assert (Hw : list_sum (map work (skipn c bs)) =
                 match nth_error bs c with
                 | Some x => work x + list_sum (map work (skipn (S c) bs))
                 | None => 0
                 end).
    { clear - Hc. revert c Hc. induction bs as [|x bs IHbs]; intros c Hc.
      - simpl in Hc. lia.
      - destruct c as [|c]; [reflexivity|]. cbn [skipn nth_error].
        apply IHbs. simpl in Hc. lia. }
    rewrite to_size_small by (unfold SIZE_MOD, INT_MAX in *; lia).
    cbn [List.length]. rewrite length_map.
    pose proof Hwf as Hwf0.
    cbn [wf_levels fst snd] in Hwf. destruct Hwf as (Ho & Hdone & Hno & Hwfo).
    destruct (Z.eqb_spec (Z.of_nat (S (List.length fs))) (Z.of_nat Dn)) as [Hd|Hd].
    + assert (k = 0) by lia. subst k.
      assert (Hfp : frame_groups index 0 (Branch a bs, c)
                    = map value_of (child_at index (Branch a bs))).
      { unfold frame_groups. cbn [fst snd].
        destruct (Nat.ltb_spec c (List.length bs)); [reflexivity | lia]. }
      rewrite Hfp.
      pose proof (pick_at_index index index_int a bs Hsm) as Hp.
      destruct (to_size index <? Z.of_nat (List.length bs))%Z.
      * destruct Hp as (x & Hx & Hpick). rewrite Hpick.
        unfold bind at 1. unfold at_index. rewrite Hx. cbn [ret].
        unfold bind at 1. unfold node_Copy. cbn [heap_next].
        pose proof (value_of_Copy_at x nx) as Hv.
        pose proof (addrs_Copy_at x nx) as [Hle Ha].
        destruct (Copy_at x nx) as [x' n1]. cbn [fst snd] in Hv, Hle, Ha.
        unfold set_next. cbn [Data Log ApprovedLevel].
        rewrite update_close_push_back by exact Hno.
        destruct (Hpop (done ++ [x']) n1) as (nb & nx' & Hrun & Hval & Hle' & Hadr).
        { cbn [wf_levels fst snd]. repeat split.
          - lia.
          - rewrite flat_map_app. apply Forall_app. split.
            + eapply Forall_impl; [|exact Hdone]. intros y Hy. cbv beta in Hy. lia.
            + cbn [flat_map]. rewrite app_nil_r, Ha. apply Forall_forall.
              intros y Hy. apply in_seq in Hy. lia.
          - exact Hno.
          - now apply (wf_levels_mono nx n1). }
        exists nb, nx'. split; [exact Hrun|]. split; [|split; [lia|]].
        { rewrite Hval. rewrite map_app. cbn [map]. now rewrite Hv. }
        rewrite Hadr.
        rewrite (addrs_close_app outer (Branch o done) (Branch o (done ++ [x']))
                                 (addrs x')).
        { rewrite Ha, <- app_assoc. f_equal. now apply seq_join. }
        cbn [addrs]. rewrite flat_map_app. cbn [flat_map].
        now rewrite app_nil_r.
      * rewrite Hp. cbn [map]. rewrite app_nil_r. apply Hpop. exact Hwf0.
    + destruct k as [|k]; [lia|].
      destruct (nth_error bs c) as [child|] eqn:Ec;
        [|apply nth_error_None in Ec; lia].
      assert (Hchild : small child = true).
      { cbn [small] in Hsm. apply andb_prop in Hsm as [_ Hall].
        rewrite forallb_forall in Hall. apply Hall.
        eapply nth_error_In; eauto. }
      assert (Hskip : skipn c bs = child :: skipn (S c) bs).
      { clear - Ec. revert c Ec. induction bs as [|x bs IHbs]; intros c Ec.
        - destruct c; discriminate.
        - destruct c as [|c]; [now injection Ec as ->|].
          cbn [skipn]. apply IHbs. exact Ec. }
      assert (Hfg : frame_groups index (S k) (Branch a bs, c)
                    = (if is_branch child then [Node (groups index k child)] else [])
                        ++ frame_groups index (S k) (Branch a bs, S c)).
      { unfold frame_groups. cbn [fst snd]. rewrite Hskip. reflexivity. }
      rewrite Hfg.
      destruct (is_branch child) eqn:Hbr.
      * unfold bind at 1. cbn [alloc heap_next].
        unfold set_next. cbn [Data Log ApprovedLevel].
        rewrite update_close_push_back by exact Hno.
        change (close (Branch o (done ++ [Branch nx []])) outer)
          with (close (Branch nx []) ((o, done) :: outer)).
        change (child :: Branch a bs :: map fst fs)
          with (map fst ((child, 0) :: (Branch a bs, S c) :: fs)).
        change (0 :: S c :: map snd fs)
          with (map snd ((child, 0) :: (Branch a bs, S c) :: fs)).
        change (nx :: o :: map fst outer)
          with (nx :: map fst ((o, done) :: outer)).
        destruct (IH (child, 0) ((Branch a bs, S c) :: fs) nx [] ((o, done) :: outer)
                     k d lg level (S nx)) as (nb & nx' & Hrun & Hval & Hle & Hadr).
        -- constructor; [split; assumption|].
           constructor; [split; [reflexivity | assumption]|assumption].
        -- cbn [List.length]. lia.
        -- cbn [List.length]. cbn [List.length] in Hlen. lia.
        -- cbn [wf_levels fst snd]. repeat split.
           ++ lia.
           ++ constructor.
           ++ pose proof (wf_levels_bound nx _ Hwf0) as Hbd.
              rewrite Forall_forall in Hbd. intros Hin. apply Hbd in Hin. lia.
           ++ lia.
           ++ eapply Forall_impl; [|exact Hdone]. intros y Hy. cbv beta in Hy. lia.
           ++ exact Hno.
           ++ now apply (wf_levels_mono nx (S nx)); [lia|].
        -- change (frame_work (child, 0) + (frame_work (Branch a bs, S c)
                     + list_sum (map frame_work fs)) < fuel).
           unfold frame_work at 1 2. cbn [fst snd].
           destruct child as [? ? | ca cbs]; [discriminate Hbr|].
           change (skipn 0 cbs) with cbs. cbn [work] in Hw. lia.
        -- exists nb, nx'. split; [exact Hrun|]. split; [|split; [lia|]].
           { rewrite Hval.
             cbn [finish_outer fst snd map app]. rewrite frame_groups_enter.
             reflexivity. }
           rewrite Hadr. cbn [close fst snd].
           rewrite (addrs_close_app outer (Branch o done)
                                    (Branch o (done ++ [Branch nx []])) [nx]).
           { rewrite <- app_assoc. f_equal.
             change ([nx] ++ seq (S nx) (nx' - S nx)) with (seq nx (S (nx' - S nx))).
             f_equal. lia. }
           cbn [addrs]. rewrite flat_map_app. cbn [flat_map addrs].
           now rewrite app_nil_r.
      * change (Branch a bs :: map fst fs)
          with (map fst ((Branch a bs, S c) :: fs)).
        change (S c :: map snd fs)
          with (map snd ((Branch a bs, S c) :: fs)).
        apply (IH (Branch a bs, S c) fs o done outer (S k) d lg level nx).
        -- constructor; [split; [reflexivity | assumption]|assumption].
        -- exact Hlo.
        -- exact Hlen.
        -- exact Hwf0.
        -- change (frame_work (Branch a bs, S c)
                   + list_sum (map frame_work fs) < fuel).
           unfold frame_work at 1. cbn [fst snd].
           destruct child as [ca cs | ? ?]; [|discriminate Hbr].
           cbn [work] in Hw. lia.
Qed.
End Grouped.

Lemma ExtractGroupedColumnPack_ok a1 itxt a2 dtxt r bs data lg level nx index depth :
  ReadAs_int itxt = Some index ->
  ReadAs_int dtxt = Some depth ->
  (1 <= depth)%Z ->
  small (Branch r bs) = true ->
  exists nb nx',
    ExtractGroupedColumnPack
      (mkEvaluator (Value a1 itxt :: Value a2 dtxt :: Branch r bs :: data)
                   lg level nx)
    = Ok tt (mkEvaluator (nb :: Branch r bs :: data) lg level nx') /\
    value_of nb = Node (groups index (Z.to_nat depth - 1) (Branch r bs)) /\
    addrs nb = seq nx (nx' - nx).
Proof.
  intros Hi Hd Hge Hsm.
  pose proof (ReadAs_int_range _ _ Hi) as Hir.
  pose proof (ReadAs_int_range _ _ Hd) as Hdr.
  unfold ExtractGroupedColumnPack, RequireValueTop, RequireBranchTop, ReadAs, bind.
  rewrite RequireTop_1_cons. step. rewrite Hi. step.
  unfold set_Data. step. rewrite RequireTop_1_cons. step. rewrite Hd. step.
  destruct (Z.ltb_spec depth 1) as [?|_]; [lia|]. step.
  unfold set_Data. step.
  rewrite RequireTop_1_cons. step. unfold set_next. step.
  assert (Hdn : (Z.of_nat (Z.to_nat depth) <= INT_MAX)%Z) by lia.
  assert (Hpos : 1 <= Z.to_nat depth) by lia.
  destruct (Grouped_loop_fuel index Hir (Z.to_nat depth) Hpos Hdn (work (Branch r bs))
              (Branch r bs, 0) [] nx [] [] (Z.to_nat depth - 1)
              (Branch r bs :: data) lg level (S nx))
    as (nb & nx' & Hrun & Hval & Hle & Hadr).
  - constructor; [split; [reflexivity | exact Hsm] | constructor].
  - reflexivity.
  - cbn [List.length]. lia.
  - cbn [wf_levels fst snd outer_addrs flat_map]. repeat split; auto.
  - change (frame_work (Branch r bs, 0) + 0 < work (Branch r bs)).
    unfold frame_work. cbn [fst snd skipn work]. lia.
  - exists nb, nx'. cbn [map fst snd close] in Hrun.
    rewrite Z2Nat.id in Hrun by lia. rewrite Hrun.
    split; [reflexivity|]. split.
    + rewrite Hval. cbn [finish_outer map app].
      now rewrite frame_groups_enter.
    + rewrite Hadr. cbn [close addrs flat_map app].
      change (nx :: seq (S nx) (nx' - S nx)) with (seq nx (S (nx' - S nx))).
      f_equal. lia.
Qed.

Lemma flatten_groups index : forall n k,
    flatten k (groups index k n) = map value_of (column index k n).
Proof.
  induction n as [a s | a bs IH] using BranchBase_rect'; intros k.
  - destruct k; reflexivity.
  - destruct k as [|k].
    + cbn [groups flatten]. unfold column. cbn [rows_at flat_map].
      now rewrite app_nil_r.
    + cbn [groups flatten]. unfold column. cbn [rows_at].
      rewrite flat_map_flat_map.
      fold (column index k).
      induction IH as [|b l Hb _ IHl]; [reflexivity|].
      cbn [flat_map]. rewrite flat_map_app, map_app, <- IHl. f_equal.
      change (flat_map (child_at index) (rows_at k b)) with (column index k b).
      destruct b as [? ? | ba bbs]; [reflexivity|].
      cbn [is_branch]. rewrite is_branch_Branch. cbn [flat_map].
      rewrite app_nil_r. apply Hb.
Qed.

(** X20.  [ExtractGroupedColumnPack] with a depth below 1 raises its error after
    popping the two leaves.  With [1 <= depth] on a branch [root] (whose
    vectors an [int] counter can walk) it returns, [root] stays, and the
    branch pushed on it mirrors the branches of [root] above the target
    level: one branch for every branch child, none for a leaf, and at the
    target level (level 1 is [root]) a clone of the child at [index] when
    there is one.  The pushed branch is made of new objects only, the picks
    included: its objects are the ones allocated during the call, in the
    order of allocation.  Read in order, the picks are those of
    [ExtractColumnPack]. *)
Theorem ExtractGroupedColumnPack_groups_by_branch :
  forall a1 itxt a2 dtxt root data lg level nx index depth,
    ReadAs_int itxt = Some index ->
    ReadAs_int dtxt = Some depth ->
    let ev := mkEvaluator (Value a1 itxt :: Value a2 dtxt :: root :: data)
                          lg level nx in
    ((depth < 1)%Z ->
     ExtractGroupedColumnPack ev
     = Throw (Wraped "Cannot extract from zero depth" Critical)
             (mkEvaluator (root :: data) lg level nx)) /\
    ((1 <= depth)%Z -> is_branch root = true -> small root = true ->
     exists nb nx',
       ExtractGroupedColumnPack ev
       = Ok tt (mkEvaluator (nb :: root :: data) lg level nx') /\
       value_of nb = Node (groups index (Z.to_nat depth - 1) root) /\
       addrs nb = seq nx (nx' - nx) /\
       flatten (Z.to_nat depth - 1) (groups index (Z.to_nat depth - 1) root)
       = map value_of (column index (Z.to_nat depth - 1) root)).
Proof.
  intros a1 itxt a2 dtxt root data lg level nx index depth Hi Hd ev. split.
  - intros Hlt. subst ev.
    unfold ExtractGroupedColumnPack, RequireValueTop, ReadAs, bind.
    rewrite RequireTop_1_cons. step. rewrite Hi. step.
    unfold set_Data. step. rewrite RequireTop_1_cons. step. rewrite Hd. step.
    destruct (Z.ltb_spec depth 1) as [_|?]; [reflexivity | lia].
  - intros Hge Hbr Hsm. destruct root as [r s | r bs]; [discriminate Hbr|].
    destruct (ExtractGroupedColumnPack_ok a1 itxt a2 dtxt r bs data lg level nx
                index depth Hi Hd Hge Hsm) as (nb & nx' & Hrun & Hval & Hadr).
    exists nb, nx'. split; [exact Hrun|]. split; [exact Hval|].
    split; [exact Hadr|]. apply flatten_groups.
Qed.

Lemma ExtractGroupedColumnPack_groups_by_branch_witness :
  let root := Branch 6 [Branch 2 [Value 0 "a"; Value 1 "b"];
                        Value 7 "skipped";
                        Branch 5 [Value 3 "c"; Value 4 "d"]] in
  exists nb nx',
    ExtractGroupedColumnPack
      (mkEvaluator [Value 9 "1"; Value 8 "2"; root] [] Warning 10)
    = Ok tt (mkEvaluator [nb; root] [] Warning nx') /\
    value_of nb = Node (groups 1 (Z.to_nat 2 - 1) root) /\
    addrs nb = seq 10 (nx' - 10) /\
    flatten (Z.to_nat 2 - 1) (groups 1 (Z.to_nat 2 - 1) root)
    = map value_of (column 1 (Z.to_nat 2 - 1) root).
Proof.
  intros root.
  apply (proj2 (ExtractGroupedColumnPack_groups_by_branch
                  9 "1" 8 "2" root [] [] Warning 10 1%Z 2%Z eq_refl eq_refl));
    [lia | reflexivity | reflexivity].
Defined.

(* ================================================================== *)
(** ** What the operations leave alone *)

Lemma keeps_bind {A B} (m : M A) (k : A -> M B) :
  keeps_Log m -> (forall a, keeps_Log (k a)) -> keeps_Log (bind m k).
Proof.
  intros Hm Hk ev. unfold bind. specialize (Hm ev).
  destruct (m ev) as [a ev'|e ev'|]; [|exact Hm|exact I].
  specialize (Hk a ev'). destruct (k a ev') as [b ev''|e ev''|];
    [congruence | congruence | exact I].
Qed.

Lemma keeps_ret {A} (a : A) : keeps_Log (ret a).
Proof. intros ev. reflexivity. Qed.

Lemma keeps_undefined {A} : keeps_Log (@undefined A).
Proof. intros ev. exact I. Qed.

Lemma keeps_ThrowWraped {A} msg level : keeps_Log (@ThrowWraped A msg level).
Proof. intros ev. reflexivity. Qed.

Lemma keeps_throw_if c msg level : keeps_Log (throw_if c msg level).
Proof. destruct c; [apply keeps_ThrowWraped | apply keeps_ret]. Qed.

Lemma keeps_size : keeps_Log size.
Proof. intros ev. reflexivity. Qed.

Lemma keeps_top : keeps_Log top.
Proof. intros ev. unfold top. now destruct (Data ev). Qed.

Lemma keeps_pop : keeps_Log pop.
Proof. intros ev. unfold pop. now destruct (Data ev). Qed.

Lemma keeps_push x : keeps_Log (push x).
Proof. intros ev. reflexivity. Qed.

Lemma keeps_alloc : keeps_Log alloc.
Proof. intros ev. reflexivity. Qed.

Lemma keeps_node_Copy x : keeps_Log (node_Copy x).
Proof. intros ev. unfold node_Copy. now destruct (Copy_at x (heap_next ev)). Qed.

Lemma keeps_write a f : keeps_Log (write a f).
Proof. intros ev. reflexivity. Qed.

Lemma keeps_Stored_of x : keeps_Log (Stored_of x).
Proof. destruct x; [apply keeps_ret | apply keeps_undefined]. Qed.

Lemma keeps_Branches_of x : keeps_Log (Branches_of x).
Proof. destruct x; [apply keeps_undefined | apply keeps_ret]. Qed.

Lemma keeps_at_index v i : keeps_Log (at_index v i).
Proof.
  unfold at_index. destruct (nth_error _ _); [apply keeps_ret | apply keeps_undefined].
Qed.

Lemma keeps_substr v p c : keeps_Log (substr v p c).
Proof.
  unfold substr. destruct (_ <? _)%Z; [apply keeps_undefined | apply keeps_ret].
Qed.

Create HintDb keeps discriminated.
#[local] Hint Resolve keeps_ret keeps_undefined keeps_ThrowWraped
  keeps_throw_if keeps_size keeps_top keeps_pop keeps_push keeps_alloc
  keeps_node_Copy keeps_write keeps_Stored_of keeps_Branches_of
  keeps_at_index keeps_substr : keeps.

(** Splits a computation along its steps and branches. *)
Ltac keeps_steps :=
  repeat first
    [ solve [auto with keeps]
    | apply keeps_bind; [|intros ?]
    | match goal with
      | |- keeps_Log (if ?c then _ else _) => destruct c
      | |- keeps_Log (match ?x with Some _ => _ | None => _ end) => destruct x
      | |- keeps_Log (match ?x with [] => _ | _ :: _ => _ end) => destruct x
      end ].

Lemma keeps_ReadAs x : keeps_Log (ReadAs x).
Proof. unfold ReadAs. keeps_steps. Qed.

Lemma keeps_RequireValue br : keeps_Log (RequireValue br).
Proof. apply keeps_throw_if. Qed.

Lemma keeps_RequireBranch br : keeps_Log (RequireBranch br).
Proof. apply keeps_throw_if. Qed.

Lemma keeps_RequireDigits s : keeps_Log (RequireDigits s).
Proof.
  induction s as [|c s IH]; [apply keeps_ret|].
  cbn [RequireDigits]. apply keeps_bind; [apply keeps_throw_if | intros _; exact IH].
Qed.

#[local] Hint Resolve keeps_ReadAs keeps_RequireValue keeps_RequireBranch
  keeps_RequireDigits : keeps.

Lemma keeps_RequireInteger br : keeps_Log (RequireInteger br).
Proof. unfold RequireInteger. keeps_steps. Qed.

Lemma keeps_RequireTop sz : keeps_Log (RequireTop sz).
Proof. unfold RequireTop. keeps_steps. Qed.

#[local] Hint Resolve keeps_RequireInteger keeps_RequireTop : keeps.

Lemma keeps_RequireValueTop : keeps_Log RequireValueTop.
Proof. unfold RequireValueTop. keeps_steps. Qed.

Lemma keeps_RequireIntegerTop : keeps_Log RequireIntegerTop.
Proof. unfold RequireIntegerTop. keeps_steps. Qed.

Lemma keeps_RequireBranchTop : keeps_Log RequireBranchTop.
Proof. unfold RequireBranchTop. keeps_steps. Qed.

#[local] Hint Resolve keeps_RequireValueTop keeps_RequireIntegerTop
  keeps_RequireBranchTop : keeps.

Lemma keeps_Branch_fill : forall k acc, keeps_Log (Branch_fill k acc).
Proof. induction k; intros acc; cbn [Branch_fill]; keeps_steps. Qed.

Lemma keeps_Unpack_push : forall bs, keeps_Log (Unpack_push bs).
Proof. induction bs; cbn [Unpack_push]; keeps_steps. Qed.

Lemma keeps_Duplicate_loop : forall n, keeps_Log (Duplicate_loop n).
Proof. induction n; cbn [Duplicate_loop]; keeps_steps. Qed.

Lemma keeps_DeepRemove_save : forall n tmp, keeps_Log (DeepRemove_save n tmp).
Proof. induction n; intros tmp; cbn [DeepRemove_save]; keeps_steps. Qed.

Lemma keeps_DeepRemove_restore : forall n tmp, keeps_Log (DeepRemove_restore n tmp).
Proof. induction n; intros tmp; cbn [DeepRemove_restore]; keeps_steps. Qed.

Lemma keeps_SplitRow_loop v s : forall fuel p np r,
    keeps_Log (SplitRow_loop fuel v s p np r).
Proof. induction fuel; intros p np r; cbn [SplitRow_loop]; keeps_steps. Qed.

Lemma keeps_ConcatRow_loop space : forall bs f str,
    keeps_Log (ConcatRow_loop space bs f str).
Proof. induction bs; intros f str; cbn [ConcatRow_loop]; keeps_steps. Qed.

Lemma keeps_Column_loop index depth : forall fuel br cp nb,
    keeps_Log (Column_loop fuel index depth br cp nb).
Proof. induction fuel; intros br cp nb; cbn [Column_loop]; keeps_steps. Qed.

Lemma keeps_Grouped_loop index depth : forall fuel br cp nbr nbranch,
    keeps_Log (Grouped_loop fuel index depth br cp nbr nbranch).
Proof.
  induction fuel; intros br cp nbr nbranch; cbn [Grouped_loop]; keeps_steps.
Qed.

#[local] Hint Resolve keeps_Branch_fill keeps_Unpack_push
  keeps_Duplicate_loop keeps_DeepRemove_save keeps_DeepRemove_restore
  keeps_SplitRow_loop keeps_ConcatRow_loop keeps_Column_loop
  keeps_Grouped_loop : keeps.

Lemma keeps_PackTopSameLevel : keeps_Log PackTopSameLevel.
Proof.
  unfold PackTopSameLevel. apply keeps_bind; [auto with keeps|]. intros a.
  apply keeps_bind; [auto with keeps|]. intros t ev.
  cbv zeta. now destruct (SameLevel_loop _ _ _).
Qed.

Lemma Functions_keep_Log : Forall (fun e => keeps_Log (Func e)) Functions.
Proof.
  rewrite Functions_eq.
  repeat (apply Forall_cons;
          [ cbn [Func];
            first [ exact keeps_PackTopSameLevel
                  | unfold PackTop, UnpackTop, Unpack, PackTopX, new_Branch,
                      EmptyBranch, EmptyElement, CopyFromIndex,
                      ExtractColumnPack, ExtractGroupedColumnPack, Copy,
                      Duplicate, Pop, DeepRemove, Undot, ConcatRow, SplitRow,
                      Reverse; solve [keeps_steps] ] |]).
  apply Forall_nil.
Qed.

Lemma EvalCom_try_keeps_Log com : keeps_Log (EvalCom_try Functions com).
Proof.
  unfold EvalCom_try. destruct (_ <? 1); [apply keeps_ret|].
  destruct (lookup com Functions) as [f|] eqn:E; [|keeps_steps].
  apply lookup_In in E as (e & Hin & <-).
  pose proof Functions_keep_Log as HF. rewrite Forall_forall in HF. now apply HF.
Qed.

(** X21.  No registered operation and no literal token touches [Log] or
    [ApprovedLevel], whether it returns or throws.  When the operation
    returns, [EvalCom] returns in the same state and logs nothing.  When
    the operation throws, [EvalCom] with [catch_localy] adds to [Log] one
    entry, the message with the token, when [log] is set and none when it
    is not, and in both cases returns when [ApprovedLevel] is [Fatal] and
    throws the error again otherwise; without [catch_localy] it throws the
    error again and logs nothing. *)
Theorem EvalCom_logs_exactly_the_errors :
  forall com log ev,
    match EvalCom_try Functions com ev with
    | Ok _ ev' =>
        Log ev' = Log ev /\ ApprovedLevel ev' = ApprovedLevel ev /\
        EvalCom Functions com log true ev = Ok tt ev' /\
        EvalCom Functions com log false ev = Ok tt ev'
    | Throw e ev' =>
        Log ev' = Log ev /\ ApprovedLevel ev' = ApprovedLevel ev /\
        ErrorLevel e = Fatal /\
        EvalCom Functions com true true ev
        = (let logged := set_Log (caused e com :: Log ev) ev' in
           match ApprovedLevel ev with
           | Fatal => Ok tt logged
           | _ => Throw e logged
           end) /\
        EvalCom Functions com false true ev
        = match ApprovedLevel ev with
          | Fatal => Ok tt ev'
          | _ => Throw e ev'
          end /\
        EvalCom Functions com log false ev = Throw e ev'
    | Undefined =>
        EvalCom Functions com log true ev = Undefined /\
        EvalCom Functions com log false ev = Undefined
    end.
Proof.
  intros com log ev. unfold EvalCom.
  pose proof (EvalCom_try_keeps_Log com ev) as Hk.
  pose proof (EvalCom_try_raises_Fatal com ev) as Hr.
  destruct (EvalCom_try Functions com ev) as [[] ev'|e ev'|].
  - repeat split; assumption.
  - destruct Hr as [Ha He]. cbn [negb]. rewrite He.
    cbn [ApprovedLevel set_Log]. rewrite Ha, Hk.
    repeat split; try assumption;
      destruct (ApprovedLevel ev); reflexivity.
  - split; reflexivity.
Qed.

(* ================================================================== *)
(** ** The threshold [ApprovedLevel] *)






Lemma Level_gt_Fatal_below l : l <> Fatal -> Level_gt Fatal l = true.
Proof. destruct l; [reflexivity .. | congruence]. Qed.

Lemma EvalComs_from_feed : forall coms i ev ev',
    ApprovedLevel ev <> Fatal ->
    (feed Functions coms ev = Ok tt ev' <->
     EvalComs_from Functions i coms ev = Ok tt ev').
Proof.
  induction coms as [|com coms IH]; intros i ev ev' Ha; [reflexivity|].
  cbn [feed EvalComs_from]. unfold bind, EvalCom.
  pose proof (EvalCom_try_raises_Fatal com ev) as Hr.
  destruct (EvalCom_try Functions com ev) as [[] ev1|e ev1|].
  - apply IH. congruence.
  - destruct Hr as [Ha' He]. cbn [negb]. rewrite He.
    cbn [ApprovedLevel set_Log]. rewrite Ha', Level_gt_Fatal_below by exact Ha.
    split; discriminate.
  - split; discriminate.
Qed.

Lemma feed_keeps_Log_below_Fatal : forall coms ev ev',
    ApprovedLevel ev <> Fatal ->
    feed Functions coms ev = Ok tt ev' -> Log ev' = Log ev.
Proof.
  induction coms as [|com coms IH]; intros ev ev' Ha H.
  - cbn in H. now injection H as <-.
  - cbn [feed] in H. unfold bind, EvalCom in H.
    pose proof (EvalCom_try_raises_Fatal com ev) as Hr.
    pose proof (EvalCom_try_keeps_Log com ev) as Hk.
    destruct (EvalCom_try Functions com ev) as [[] ev1|e ev1|].
    + rewrite <- Hk. apply IH; [congruence | exact H].
    + destruct Hr as [Ha' He]. cbn [negb] in H. rewrite He in H.
      cbn [ApprovedLevel set_Log] in H.
      rewrite Ha', Level_gt_Fatal_below in H by exact Ha. discriminate H.
    + discriminate H.
Qed.

(** X23.  With [ApprovedLevel] below [Fatal], [EvalComs] on a batch returns
    exactly when feeding the tokens one by one to [EvalCom] returns, in the
    same state, and then nothing was logged. *)
Theorem EvalComs_agrees_with_token_by_token :
  forall coms ev ev',
    ApprovedLevel ev <> Fatal ->
    (EvalComs Functions coms ev = Ok tt ev' <-> feed Functions coms ev = Ok tt ev') /\
    (EvalComs Functions coms ev = Ok tt ev' -> Log ev' = Log ev).
Proof.
  intros coms ev ev' Ha. split.
  - symmetry. now apply EvalComs_from_feed.
  - intros H. apply (EvalComs_from_feed coms 0 ev ev' Ha) in H.
    now apply (feed_keeps_Log_below_Fatal coms ev ev').
Qed.

Lemma EvalComs_agrees_with_token_by_token_witness :
  (EvalComs Functions ["a"; "b"; "2"; "^tc"] (new_Evaluator Critical)
   = Ok tt (mkEvaluator [Branch 3 [Value 0 "a"; Value 1 "b"]] [] Critical 4) <->
   feed Functions ["a"; "b"; "2"; "^tc"] (new_Evaluator Critical)
   = Ok tt (mkEvaluator [Branch 3 [Value 0 "a"; Value 1 "b"]] [] Critical 4)) /\
  (EvalComs Functions ["a"; "b"; "2"; "^tc"] (new_Evaluator Critical)
   = Ok tt (mkEvaluator [Branch 3 [Value 0 "a"; Value 1 "b"]] [] Critical 4) ->
   Log (mkEvaluator [Branch 3 [Value 0 "a"; Value 1 "b"]] [] Critical 4)
   = Log (new_Evaluator Critical)).
Proof.
  apply (EvalComs_agrees_with_token_by_token
           ["a"; "b"; "2"; "^tc"] (new_Evaluator Critical)).
  discriminate.
Defined.

(* ================================================================== *)
(** ** [Require] on any pattern *)

Lemma Require_body_no_cursor ch b ev :
  Require_body ch ([b], []) ev
  = if opcode ch then Undefined
    else Throw (Wraped "Require syntax error" Critical) ev.
Proof.
  unfold Require_body, opcode, bind.
  destruct (Ascii.eqb ch "."); [reflexivity|].
  destruct (Ascii.eqb ch "b"); [reflexivity|].
  destruct (Ascii.eqb ch "v"); [reflexivity|].
  destruct (Ascii.eqb ch "i"); [reflexivity|].
  destruct (Ascii.eqb ch "e"); reflexivity.
Qed.

Lemma Require_do_no_cursor ch rest b ev :
  Require_do ch rest ([b], []) ev
  = if opcode ch then Undefined
    else Throw (Wraped "Require syntax error" Critical) ev.
Proof.
  destruct rest; cbn [Require_do]; unfold bind; rewrite Require_body_no_cursor;
    destruct (opcode ch); reflexivity.
Qed.

(** X24.  [Require] never returns normally.  On a [Value] it raises
    ["Value as branch argument"].  On a [Branch] the cursor stack is empty
    when the first character is interpreted: each of the opcodes [.], [b],
    [v], [i], [e] reads or pops it, which is undefined behaviour, and any
    other first character (the terminating zero of an empty pattern
    included) raises ["Require syntax error"]. *)
Theorem Require_never_returns :
  (forall request a s ev,
      Require request (Value a s) ev
      = Throw (Wraped "Value as branch argument" Critical) ev) /\
  (forall request a bs ev,
      Require request (Branch a bs) ev
      = if opcode (match request with String ch _ => ch | EmptyString => zero end)
        then Undefined
        else Throw (Wraped "Require syntax error" Critical) ev).
Proof.
  split.
  - intros. reflexivity.
  - intros request a bs ev. unfold Require, bind.
    change (RequireBranch (Branch a bs) ev) with (Ok tt ev). cbv iota.
    destruct request; apply Require_do_no_cursor.
Qed.

(* ================================================================== *)
(** ** [PrintData] *)

Lemma put_Branch a bs str :
  put (Branch a bs) str
  = let str1 := indent (depth_ str) str in
    let str2 := set_depth (S (depth_ str1)) str1 in
    let str3 := stream_out (ValueEnd str2) (stream_out (Section_ str2) str2) in
    match put_all bs str3 with
    | Some str4 => Some (set_depth (Nat.pred (depth_ str4)) str4)
    | None => None
    end.
Proof.
  cbn [put Depth Nat.eqb]. cbv zeta.
  match goal with |- match ?f bs ?s with _ => _ end = _ =>
    assert (E : forall l st, f l st = put_all l st) end.
  { induction l as [|b l IH]; intros st; cbn [put_all]; [reflexivity|].
    destruct (put b st); [apply IH | reflexivity]. }
  now rewrite E.
Qed.

Lemma indent_spec : forall n out d,
    indent n (mkBranchStream out d tab "./section" nl)
    = mkBranchStream (out ++ replicate n tab) d tab "./section" nl.
Proof.
  induction n as [|n IH]; intros out d.
  - cbn. now rewrite append_empty_r.
  - cbn [indent replicate]. unfold stream_out. cbn [out_ depth_ Space Section_ ValueEnd].
    rewrite IH. now rewrite append_assoc'.
Qed.

Lemma concat_empty_cons s l :
  String.concat "" (s :: l) = (s ++ String.concat "" l)%string.
Proof. destruct l; cbn; [now rewrite append_empty_r | reflexivity]. Qed.

Lemma put_outline n : forall out d,
    put n (mkBranchStream out d tab "./section" nl)
    = Some (mkBranchStream (out ++ outline d (value_of n)) d tab "./section" nl).
Proof.
  induction n as [a s | a bs IH] using BranchBase_rect'; intros out d.
  - cbn [put Depth Nat.eqb]. unfold put_Value. cbn [depth_].
    rewrite indent_spec. unfold stream_out. cbn [out_ depth_ Space Section_ ValueEnd].
    cbn [value_of outline]. now rewrite !append_assoc'.
  - rewrite put_Branch. cbv zeta. cbn [depth_]. rewrite indent_spec.
    unfold set_depth, stream_out. cbn [out_ depth_ Space Section_ ValueEnd].
    assert (E : forall out',
               put_all bs (mkBranchStream out' (S d) tab "./section" nl)
               = Some (mkBranchStream
                         (out' ++ String.concat "" (map (outline (S d)) (map value_of bs)))
                         (S d) tab "./section" nl)).
    { induction IH as [|b l Hb _ IHl]; intros out'.
      - cbn. now rewrite append_empty_r.
      - cbn [put_all map]. rewrite Hb, IHl, concat_empty_cons.
        now rewrite append_assoc'. }
    rewrite E. cbn [out_ depth_ Space Section_ ValueEnd Nat.pred].
    cbn [value_of outline]. now rewrite !append_assoc'.
Qed.

Lemma PrintData_write_spec : forall data tmp out,
    PrintData_write data tmp (new_BranchStream out)
    = Some (rev data ++ tmp,
            new_BranchStream
              (out ++ String.concat "" (map (fun n => outline 0 (value_of n)) data))).
Proof.
  unfold new_BranchStream.
  induction data as [|t data IH]; intros tmp out.
  - cbn. now rewrite append_empty_r.
  - cbn [PrintData_write]. rewrite put_outline, IH.
    cbn [rev map]. rewrite <- app_assoc, concat_empty_cons, append_assoc'.
    reflexivity.
Qed.

Lemma PrintData_restore_spec : forall tmp data,
    PrintData_restore tmp data = rev tmp ++ data.
Proof.
  induction tmp as [|t tmp IH]; intros data; [reflexivity|].
  cbn [PrintData_restore rev]. rewrite IH. now rewrite <- app_assoc.
Qed.

Lemma PrintData_spec out ev :
  PrintData out ev
  = Ok (out ++ String.concat "" (map (fun n => outline 0 (value_of n)) (Data ev)))%string
       ev.
Proof.
  unfold PrintData. rewrite PrintData_write_spec.
  cbn [out_ new_BranchStream]. rewrite PrintData_restore_spec.
  rewrite !app_nil_r, rev_involutive. now destruct ev.
Qed.

(** X25.  [PrintData] appends to the stream the outline of every node of the
    stack, the top first, and puts the stack back as it was: the evaluator
    after the call is the evaluator before it.  A leaf is one line with its
    text, a branch the line [./section] followed by its children, each level
    indented by one more tab. *)
Theorem PrintData_writes_outline_and_restores_stack :
  forall out ev,
    PrintData out ev
    = Ok (out ++ String.concat "" (map (fun n => outline 0 (value_of n)) (Data ev)))%string
         ev.
Proof.
  intros out ev. rewrite PrintData_spec.
  destruct ev as [d lg level nx]. reflexivity.
Qed.

(* ================================================================== *)
(** ** [UnpackTop] followed by [PackTopX]; the arguments of [SplitRow] *)

(** X26.  In a state with the invariant and a branch on top: [UnpackTop], the
    numeral of the number of its children and ["^tc"] leave, on the untouched
    rest of the stack, one branch made of new objects whose children have
    the contents of the children of the branch, in order. *)
Theorem UnpackTop_PackTopX_roundtrip :
  forall b bs rest lg level nx,
    inv (mkEvaluator (Branch b bs :: rest) lg level nx) ->
    (Z.of_nat (List.length bs) <= INT_MAX)%Z ->
    exists b' bs' nx',
      feed Functions ["^_t"; decimal (List.length bs); "^tc"]
           (mkEvaluator (Branch b bs :: rest) lg level nx)
      = Ok tt (mkEvaluator (Branch b' bs' :: rest) lg level nx') /\
      map value_of bs' = map value_of bs /\
      Forall (fun a => nx <= a) (addrs (Branch b' bs')).
Proof.
  intros b bs rest lg level nx Hinv Hfit.
  pose proof (value_of_Copy_all bs nx) as Hv.
  pose proof (addrs_Copy_all bs nx) as [Hle Ha].
  destruct (Copy_all bs nx) as [cs n1] eqn:Ec. cbn [fst snd] in Hv, Hle, Ha.
  assert (Hlen : List.length cs = List.length bs).
  { rewrite <- (length_map value_of cs), Hv. apply length_map. }
  exists (S n1), cs, (S (S n1)). split; [|split].
  - cbn [feed]. unfold bind.
    assert (E1 : EvalCom Functions "^_t" true true
                   (mkEvaluator (Branch b bs :: rest) lg level nx)
                 = Ok tt (mkEvaluator (rev cs ++ rest) lg level n1)).
    { apply EvalCom_Ok. rewrite (EvalCom_try_registered "^_t" UnpackTop eq_refl).
      rewrite UnpackTop_ok, Ec. cbn [fst snd]. f_equal. f_equal.
      apply map_update_absent.
      apply inv_NoDup in Hinv as [Hn Hf]. cbn [Data heap_next] in Hn, Hf.
      unfold footprint in Hn, Hf. cbn [flat_map addrs] in Hn, Hf.
      rewrite flat_map_app. intros Hin. apply in_app_or in Hin as [Hin|Hin].
      - assert (Hin' : In b (flat_map addrs cs)).
        { apply in_flat_map in Hin as (x & Hx & Hbx). apply in_flat_map.
          exists x. split; [now apply in_rev | exact Hbx]. }
        rewrite Ha in Hin'. apply in_seq in Hin'.
        inversion Hf as [|? ? Hb _]; subst. lia.
      - inversion Hn as [|? ? Hb _]; subst. apply Hb. apply in_or_app. now right. }
    rewrite E1.
    rewrite (EvalCom_literal _ true true _ (literal_decimal _)).
    cbn [Data Log ApprovedLevel heap_next].
    assert (E2 : EvalCom Functions "^tc" true true
                   (mkEvaluator (Value n1 (decimal (List.length bs)) :: rev cs ++ rest)
                                lg level (S n1))
                 = Ok tt (mkEvaluator (Branch (S n1) cs :: rest) lg level (S (S n1)))).
    { apply EvalCom_Ok. rewrite (EvalCom_try_registered "^tc" PackTopX eq_refl).
      rewrite (PackTopX_ok _ _ (Z.of_nat (List.length bs))).
      - rewrite Nat2Z.id, <- Hlen, <- (length_rev cs).
        now rewrite firstn_length_app, skipn_length_app, rev_involutive.
      - rewrite ReadAs_int_decimal. f_equal. unfold clamp_int, INT_MIN, INT_MAX in *.
        destruct (Z.ltb_spec (Z.of_nat (List.length bs)) (-2147483648)); [lia|].
        destruct (Z.ltb_spec 2147483647 (Z.of_nat (List.length bs))); [lia|reflexivity].
      - rewrite length_app, length_rev. lia. }
    rewrite E2. reflexivity.
  - exact Hv.
  - cbn [addrs]. constructor; [lia|]. rewrite Ha. apply Forall_forall.
    intros a Hin. apply in_seq in Hin. lia.
Qed.

Lemma UnpackTop_PackTopX_roundtrip_witness :
  exists b' bs' nx',
    feed Functions ["^_t"; decimal (List.length [Value 0 "a"; Value 1 "b"]); "^tc"]
         (mkEvaluator [Branch 2 [Value 0 "a"; Value 1 "b"]] [] Warning 3)
    = Ok tt (mkEvaluator [Branch b' bs'] [] Warning nx') /\
    map value_of bs' = map value_of [Value 0 "a"; Value 1 "b"] /\
    Forall (fun a => 3 <= a) (addrs (Branch b' bs')).
Proof.
  apply (UnpackTop_PackTopX_roundtrip 2 [Value 0 "a"; Value 1 "b"] [] [] Warning 3).
  - apply inv_NoDup. cbn. split.
    + repeat constructor; cbn; intuition discriminate.
    + repeat constructor.
  - unfold INT_MAX. simpl. lia.
Defined.

(** X27.  [SplitRow] tests the separator before it pops it: an empty separator
    raises ["Empty passed as split"] with the stack as it was, whatever lies
    beneath.  A separator that is not empty is popped before the source text
    is looked at: with nothing beneath it the error is
    ["Required argument, but not passed"], with a branch beneath it
    ["Branch as value argument"].  An empty source text gives a branch with
    one empty leaf. *)
Theorem SplitRow_argument_errors :
  (forall a data lg level nx,
      SplitRow (mkEvaluator (Value a "" :: data) lg level nx)
      = Throw (Wraped "Empty passed as split" Critical)
              (mkEvaluator (Value a "" :: data) lg level nx)) /\
  (forall a c split lg level nx,
      SplitRow (mkEvaluator [Value a (String c split)] lg level nx)
      = Throw (Wraped "Required argument, but not passed" Critical)
              (mkEvaluator [] lg level nx)) /\
  (forall a c split b bs data lg level nx,
      SplitRow (mkEvaluator (Value a (String c split) :: Branch b bs :: data)
                            lg level nx)
      = Throw (Wraped "Branch as value argument" Critical)
              (mkEvaluator (Branch b bs :: data) lg level nx)) /\
  (forall a c split a2 lg level nx,
      SplitRow (mkEvaluator [Value a (String c split); Value a2 ""] lg level nx)
      = Ok tt (mkEvaluator [Branch nx [Value (S nx) ""]] lg level (S (S nx)))).
Proof.
  split; [|split; [|split]].
  - intros. unfold SplitRow, RequireValueTop, bind.
    rewrite RequireTop_1_cons. reflexivity.
  - intros. unfold SplitRow, RequireValueTop, bind.
    rewrite RequireTop_1_cons. reflexivity.
  - intros. unfold SplitRow, RequireValueTop, bind.
    rewrite RequireTop_1_cons. step.
    cbn [String.length Nat.eqb throw_if ret]. step.
    unfold set_Data. step. rewrite RequireTop_1_cons. reflexivity.
  - intros a c split a2 lg level nx. rewrite SplitRow_head. reflexivity.
Qed.

(* ================================================================== *)
(** ** The errors the operations raise *)

Lemma listed_bind {A B} (m : M A) (k : A -> M B) :
  raises_listed m -> (forall a, raises_listed (k a)) -> raises_listed (bind m k).
Proof.
  intros Hm Hk ev. unfold bind. specialize (Hm ev).
  destruct (m ev) as [a ev'|e ev'|]; [|exact Hm|exact I].
  apply Hk.
Qed.

Lemma listed_ret {A} (a : A) : raises_listed (ret a).
Proof. intros ev. exact I. Qed.

Lemma listed_undefined {A} : raises_listed (@undefined A).
Proof. intros ev. exact I. Qed.

Lemma listed_throw_if c msg :
  In msg messages -> raises_listed (throw_if c msg Critical).
Proof.
  intros H ev. destruct c; [|exact I].
  cbn [throw_if]. unfold ThrowWraped. exists msg. now split.
Qed.

Lemma listed_size : raises_listed size.
Proof. intros ev. exact I. Qed.

Lemma listed_top : raises_listed top.
Proof. intros ev. unfold top. now destruct (Data ev). Qed.

Lemma listed_pop : raises_listed pop.
Proof. intros ev. unfold pop. now destruct (Data ev). Qed.

Lemma listed_push x : raises_listed (push x).
Proof. intros ev. exact I. Qed.

Lemma listed_alloc : raises_listed alloc.
Proof. intros ev. exact I. Qed.

Lemma listed_node_Copy x : raises_listed (node_Copy x).
Proof. intros ev. unfold node_Copy. now destruct (Copy_at x (heap_next ev)). Qed.

Lemma listed_write a f : raises_listed (write a f).
Proof. intros ev. exact I. Qed.

Lemma listed_Stored_of x : raises_listed (Stored_of x).
Proof. destruct x; [apply listed_ret | apply listed_undefined]. Qed.

Lemma listed_Branches_of x : raises_listed (Branches_of x).
Proof. destruct x; [apply listed_undefined | apply listed_ret]. Qed.

Lemma listed_at_index v i : raises_listed (at_index v i).
Proof.
  unfold at_index. destruct (nth_error _ _); [apply listed_ret | apply listed_undefined].
Qed.

Lemma listed_substr v p c : raises_listed (substr v p c).
Proof.
  unfold substr. destruct (_ <? _)%Z; [apply listed_undefined | apply listed_ret].
Qed.

Create HintDb listed discriminated.
#[local] Hint Resolve listed_ret listed_undefined listed_size listed_top
  listed_pop listed_push listed_alloc listed_node_Copy listed_write
  listed_Stored_of listed_Branches_of listed_at_index listed_substr : listed.

(** Splits a computation along its steps and branches. *)
Ltac listed_steps :=
  repeat first
    [ solve [auto with listed]
    | apply listed_throw_if; cbn; tauto
    | apply listed_bind; [|intros ?]
    | match goal with
      | |- raises_listed (if ?c then _ else _) => destruct c
      | |- raises_listed (match ?x with Some _ => _ | None => _ end) => destruct x
      | |- raises_listed (match ?x with [] => _ | _ :: _ => _ end) => destruct x
      end ].

Lemma listed_ReadAs x : raises_listed (ReadAs x).
Proof. unfold ReadAs. listed_steps. Qed.

Lemma listed_RequireValue br : raises_listed (RequireValue br).
Proof. unfold RequireValue. listed_steps. Qed.

Lemma listed_RequireBranch br : raises_listed (RequireBranch br).
Proof. unfold RequireBranch. listed_steps. Qed.

Lemma listed_RequireDigits s : raises_listed (RequireDigits s).
Proof.
  induction s as [|c s IH]; [apply listed_ret|].
  cbn [RequireDigits]. apply listed_bind; [listed_steps | intros _; exact IH].
Qed.

#[local] Hint Resolve listed_ReadAs listed_RequireValue listed_RequireBranch
  listed_RequireDigits : listed.

Lemma listed_RequireInteger br : raises_listed (RequireInteger br).
Proof. unfold RequireInteger. listed_steps. Qed.

Lemma listed_RequireTop sz : raises_listed (RequireTop sz).
Proof. unfold RequireTop. listed_steps. Qed.

#[local] Hint Resolve listed_RequireInteger listed_RequireTop : listed.

Lemma listed_RequireValueTop : raises_listed RequireValueTop.
Proof. unfold RequireValueTop. listed_steps. Qed.

Lemma listed_RequireIntegerTop : raises_listed RequireIntegerTop.
Proof. unfold RequireIntegerTop. listed_steps. Qed.

Lemma listed_RequireBranchTop : raises_listed RequireBranchTop.
Proof. unfold RequireBranchTop. listed_steps. Qed.

#[local] Hint Resolve listed_RequireValueTop listed_RequireIntegerTop
  listed_RequireBranchTop : listed.

Lemma listed_Branch_fill : forall k acc, raises_listed (Branch_fill k acc).
Proof. induction k; intros acc; cbn [Branch_fill]; listed_steps. Qed.

Lemma listed_Unpack_push : forall bs, raises_listed (Unpack_push bs).
Proof. induction bs; cbn [Unpack_push]; listed_steps. Qed.

Lemma listed_Duplicate_loop : forall n, raises_listed (Duplicate_loop n).
Proof. induction n; cbn [Duplicate_loop]; listed_steps. Qed.

Lemma listed_DeepRemove_save : forall n tmp, raises_listed (DeepRemove_save n tmp).
Proof. induction n; intros tmp; cbn [DeepRemove_save]; listed_steps. Qed.

Lemma listed_DeepRemove_restore : forall n tmp,
    raises_listed (DeepRemove_restore n tmp).
Proof. induction n; intros tmp; cbn [DeepRemove_restore]; listed_steps. Qed.

Lemma listed_SplitRow_loop v s : forall fuel p np r,
    raises_listed (SplitRow_loop fuel v s p np r).
Proof. induction fuel; intros p np r; cbn [SplitRow_loop]; listed_steps. Qed.

Lemma listed_ConcatRow_loop space : forall bs f str,
    raises_listed (ConcatRow_loop space bs f str).
Proof. induction bs; intros f str; cbn [ConcatRow_loop]; listed_steps. Qed.

Lemma listed_Column_loop index depth : forall fuel br cp nb,
    raises_listed (Column_loop fuel index depth br cp nb).
Proof. induction fuel; intros br cp nb; cbn [Column_loop]; listed_steps. Qed.

Lemma listed_Grouped_loop index depth : forall fuel br cp nbr nbranch,
    raises_listed (Grouped_loop fuel index depth br cp nbr nbranch).
Proof.
  induction fuel; intros br cp nbr nbranch; cbn [Grouped_loop]; listed_steps.
Qed.

#[local] Hint Resolve listed_Branch_fill listed_Unpack_push
  listed_Duplicate_loop listed_DeepRemove_save listed_DeepRemove_restore
  listed_SplitRow_loop listed_ConcatRow_loop listed_Column_loop
  listed_Grouped_loop : listed.





(* ================================================================== *)
(** ** Reading the output of [PrintData] *)

Lemma plain_Node cs : plain (Node cs) <-> Forall plain cs.
Proof.
  cbn [plain]. induction cs as [|c cs IH].
  - split; [constructor | auto].
  - split.
    + intros [Hc Hcs]. constructor; [exact Hc | now apply IH].
    + intros H. inversion H; subst. split; [assumption | now apply IH].
Qed.

Lemma render_app l1 l2 : render (l1 ++ l2) = (render l1 ++ render l2)%string.
Proof.
  induction l1 as [|[n s] l1 IH]; [reflexivity|].
  cbn [app render]. now rewrite IH, !append_assoc'.
Qed.

Lemma outline_render t : forall d, outline d t = render (lines d t).
Proof.
  induction t as [s | cs IH] using tree_rect'; intros d.
  - cbn [outline lines render]. now rewrite append_empty_r.
  - cbn [outline lines render]. do 3 f_equal.
    induction IH as [|c l Hc _ IHl]; [reflexivity|].
    cbn [map flat_map]. rewrite concat_empty_cons, render_app, Hc, IHl.
    reflexivity.
Qed.

Lemma append_cancel_l (a b c : string) : (a ++ b = a ++ c)%string -> b = c.
Proof. induction a as [|x a IH]; cbn; intros H; [exact H | injection H; auto]. Qed.

Lemma leading_tabs : forall n1 n2 (x1 x2 : string),
    (forall r, x1 <> String (ascii_of_nat 9) r) -> x1 <> "" ->
    (forall r, x2 <> String (ascii_of_nat 9) r) -> x2 <> "" ->
    (replicate n1 tab ++ x1 = replicate n2 tab ++ x2)%string ->
    n1 = n2 /\ x1 = x2.
Proof.
  induction n1 as [|n1 IH]; intros [|n2] x1 x2 H1 E1 H2 E2 H.
  - now split.
  - exfalso. cbn in H. now apply (H1 _ H).
  - exfalso. cbn in H. symmetry in H. now apply (H2 _ H).
  - cbn in H. injection H as H.
    destruct (IH n2 x1 x2 H1 E1 H2 E2 H) as [-> ->]. now split.
Qed.

Lemma first_line_feed : forall (s1 s2 r1 r2 : string),
    ~ In (ascii_of_nat 10) (list_ascii_of_string s1) ->
    ~ In (ascii_of_nat 10) (list_ascii_of_string s2) ->
    (s1 ++ nl ++ r1 = s2 ++ nl ++ r2)%string ->
    s1 = s2 /\ r1 = r2.
Proof.
  induction s1 as [|c s1 IH]; intros [|c2 s2] r1 r2 H1 H2 H.
  - cbn in H. injection H as H. now split.
  - exfalso. cbn in H. injection H as Hc _. apply H2. left. now rewrite <- Hc.
  - exfalso. cbn in H. injection H as Hc _. apply H1. left. exact Hc.
  - cbn in H. injection H as -> H.
    destruct (IH s2 r1 r2) as [-> ->]; [| |exact H|now split].
    + intros Hin. apply H1. now right.
    + intros Hin. apply H2. now right.
Qed.

Lemma render_inj : forall l1 l2,
    Forall (fun l => one_line (snd l)) l1 ->
    Forall (fun l => one_line (snd l)) l2 ->
    render l1 = render l2 -> l1 = l2.
Proof.
  assert (Hne : forall s r, (s ++ nl ++ r)%string <> "").
  { intros [|c s] r; discriminate. }
  assert (Hnt : forall s r, one_line s ->
                            forall r', (s ++ nl ++ r)%string <> String (ascii_of_nat 9) r').
  { intros [|c s] r [_ Hs] r' H; [discriminate H|].
    cbn in H. injection H as -> _. now apply (Hs s). }
  induction l1 as [|[n1 s1] l1 IH]; intros [|[n2 s2] l2] H1 H2 H.
  - reflexivity.
  - exfalso. cbn in H. destruct n2; cbn in H; [|discriminate H].
    symmetry in H. now apply Hne in H.
  - exfalso. cbn in H. destruct n1; cbn in H; [|discriminate H].
    now apply Hne in H.
  - inversion H1 as [|? ? Hs1 Hl1]; inversion H2 as [|? ? Hs2 Hl2]; subst.
    cbn [snd] in Hs1, Hs2. cbn [render] in H.
    apply leading_tabs in H as [-> H]; auto.
    apply first_line_feed in H as [-> H]; [|apply Hs1|apply Hs2].
    f_equal. now apply IH.
Qed.

Lemma lines_head d t : exists s r, lines d t = (d, s) :: r.
Proof. destruct t; cbn; eauto. Qed.

Lemma lines_inj t1 : forall t2 d r1 r2,
    plain t1 -> plain t2 -> shallow d r1 -> shallow d r2 ->
    lines d t1 ++ r1 = lines d t2 ++ r2 -> t1 = t2 /\ r1 = r2.
Proof.
  induction t1 as [s1 | cs1 IH] using tree_rect'; intros t2 d r1 r2 P1 P2 S1 S2 H.
  - destruct t2 as [s2 | cs2]; cbn in H.
    + injection H as -> ->. now split.
    + exfalso. injection H as -> _. cbn in P1. now apply (proj2 P1).
  - destruct t2 as [s2 | cs2]; cbn [lines app] in H.
    + exfalso. injection H as <- _. cbn in P2. now apply (proj2 P2).
    + injection H as H. apply plain_Node in P1, P2.
      assert (E : cs1 = cs2 /\ r1 = r2); [|destruct E as [-> ->]; now split].
      revert cs2 P2 H. induction IH as [|c1 l1 Hc1 _ IHl]; intros cs2 P2 H.
      * destruct cs2 as [|c2 l2]; [now split|exfalso].
        cbn [flat_map app] in H. destruct (lines_head (S d) c2) as (s & r & E).
        rewrite E in H. cbn [app] in H. rewrite H in S1. cbn in S1. lia.
      * destruct cs2 as [|c2 l2].
        { exfalso. cbn [flat_map app] in H.
          destruct (lines_head (S d) c1) as (s & r & E).
          rewrite E in H. cbn [app] in H. rewrite <- H in S2. cbn in S2. lia. }
        inversion P1 as [|? ? Pc1 Pl1]; inversion P2 as [|? ? Pc2 Pl2]; subst.
        cbn [flat_map] in H. rewrite <- !app_assoc in H.
        assert (Sh : forall l r, shallow d r ->
                                 shallow (S d) (flat_map (lines (S d)) l ++ r)).
        { intros [|c l] r Hr.
          - cbn. destruct r; cbn in *; [exact I | lia].
          - cbn [flat_map]. destruct (lines_head (S d) c) as (s & r' & E).
            rewrite E. cbn. lia. }
        destruct (Hc1 c2 (S d) _ _ Pc1 Pc2 (Sh l1 r1 S1) (Sh l2 r2 S2) H) as [-> H'].
        destruct (IHl Pl1 l2 Pl2 H') as [-> ->]. now split.
Qed.

Lemma lines_one_line t : forall d,
    plain t -> Forall (fun l => one_line (snd l)) (lines d t).
Proof.
  assert (Hsec : one_line "./section").
  { split; [cbn; intuition discriminate | intros r H; discriminate H]. }
  induction t as [s | cs IH] using tree_rect'; intros d P.
  - cbn in P. repeat constructor; apply P.
  - apply plain_Node in P. cbn [lines]. constructor; [exact Hsec|].
    induction IH as [|c l Hc _ IHl]; [constructor|].
    inversion P; subst. cbn [flat_map]. apply Forall_app. split; auto.
Qed.

Lemma stack_lines_inj : forall ts1 ts2,
    Forall plain ts1 -> Forall plain ts2 ->
    flat_map (lines 0) ts1 = flat_map (lines 0) ts2 -> ts1 = ts2.
Proof.
  induction ts1 as [|t1 ts1 IH]; intros [|t2 ts2] P1 P2 H.
  - reflexivity.
  - exfalso. cbn [flat_map] in H. destruct (lines_head 0 t2) as (s & r & E).
    rewrite E in H. discriminate H.
  - exfalso. cbn [flat_map] in H. destruct (lines_head 0 t1) as (s & r & E).
    rewrite E in H. discriminate H.
  - inversion P1; inversion P2; subst. cbn [flat_map] in H.
    assert (Sh : forall l, shallow 0 (flat_map (lines 0) l)).
    { intros [|c l]; [exact I|]. cbn [flat_map].
      destruct (lines_head 0 c) as (s & r & E). rewrite E. cbn. lia. }
    destruct (lines_inj t1 t2 0 _ _ ltac:(assumption) ltac:(assumption)
                        (Sh ts1) (Sh ts2) H) as [-> H'].
    f_equal. now apply IH.
Qed.

Lemma concat_outline_render : forall ts,
    String.concat "" (map (outline 0) ts) = render (flat_map (lines 0) ts).
Proof.
  induction ts as [|t ts IH]; [reflexivity|].
  cbn [map flat_map]. now rewrite concat_empty_cons, render_app, outline_render, IH.
Qed.

(** X29.  When the leaf texts on two stacks hold no line feed, start with no tab
    and differ from [./section], equal output of [PrintData] means equal
    contents of the stacks.  Without the last condition it does not: a leaf
    with the text [./section] and an empty branch are printed alike. *)
Theorem PrintData_output_determines_plain_stacks :
  (forall out ev1 ev2 text,
      Forall plain (map value_of (Data ev1)) ->
      Forall plain (map value_of (Data ev2)) ->
      PrintData out ev1 = Ok text ev1 ->
      PrintData out ev2 = Ok text ev2 ->
      map value_of (Data ev1) = map value_of (Data ev2)) /\
  (forall out lg level nx a b,
      PrintData out (mkEvaluator [Value a "./section"] lg level nx)
      = Ok (out ++ "./section" ++ nl)%string
           (mkEvaluator [Value a "./section"] lg level nx) /\
      PrintData out (mkEvaluator [Branch b []] lg level nx)
      = Ok (out ++ "./section" ++ nl)%string
           (mkEvaluator [Branch b []] lg level nx)).
Proof.
  split.
  - intros out ev1 ev2 text P1 P2 H1 H2.
    rewrite PrintData_spec in H1, H2.
    injection H1 as H1. injection H2 as H2. rewrite <- H2 in H1.
    apply append_cancel_l in H1.
    rewrite <- !(map_map value_of (outline 0)) in H1.
    rewrite !concat_outline_render in H1.
    apply stack_lines_inj; [exact P1 | exact P2 |].
    apply render_inj; [| | exact H1].
    + apply Forall_flat_map. eapply Forall_impl; [|exact P1].
      intros t Ht. now apply lines_one_line.
    + apply Forall_flat_map. eapply Forall_impl; [|exact P2].
      intros t Ht. now apply lines_one_line.
  - intros. rewrite !PrintData_spec. cbn [Data map value_of outline replicate].
    cbn [String.concat map append]. rewrite !append_empty_r. split; reflexivity.
Qed.
